(** * Buonghe retrieval back end: rank fusion, cluster projection,
    temporal correlation and the session-state life cycle

    A shallow embedding of [be/helpers/fusion.py],
    [be/services/search_service.py], [be/helpers/redis_client.py] and
    [be/routers/chat.py].

    Modelling conventions.
    - A Python [float] is an IEEE 754 binary64 value: Rocq's primitive
      [float], whose [+], [-], [*], [/], [<], [<=] and [==] are the
      operations of the hardware that CPython uses. The scores and time
      stamps of a back-end answer are taken to be floats. A Python [int] is
      an integer of [Z]; where an int meets a float it is converted first
      ([float_of_int]), which raises [OverflowError] when the int is too
      large.
    - A Python [str] is the string of the bytes of its UTF-8 encoding.
    - A Python [dict] is an insertion-ordered association list whose keys
      are pairwise different ([dict_wf]); assignment to an existing key keeps
      its position, assignment to a new key appends.
    - [sorted(..., key=..., reverse=True)] is the stable descending sort,
      modelled by a stable insertion sort that compares with [<] only. On
      keys that [<] orders (all floats but NaN) the result of a stable sort
      is determined by its input, so the algorithm does not matter; what
      Python makes of keys that include NaN depends on its algorithm and is
      outside the model.
    - A raised exception is the [Raise] branch of the [res] monad.
    - The back ends (vector search, lexical search, translation) are
      functions from the request payload to an outcome; the request ids
      built from [uuid.uuid4()] only label a request and are left out of
      the payloads. *)

From Stdlib Require Import ZArith QArith Floats Ascii.
From stdpp Require Import gmap strings list numbers sorting.

Set Warnings "-inexact-float".

Local Open Scope string_scope.
Local Open Scope list_scope.
Local Open Scope float_scope.

(** ** Python run-time values *)

Module Py.

Inductive exn : Type :=
| ValueError
| KeyError
| AttributeError
| TypeError
| AssertionError
| OverflowError
| ZeroDivisionError
| APIRequestError.

Inductive res (A : Type) : Type :=
| Ok (a : A)
| Raise (e : exn).
Global Arguments Ok {A} a.
Global Arguments Raise {A} e.

Definition bind {A B} (m : res A) (f : A → res B) : res B :=
  match m with
  | Ok a => f a
  | Raise e => Raise e
  end.

Global Instance res_bind : MBind res := λ A B f m, bind m f.
Global Instance res_ret : MRet res := λ A a, Ok a.

Definition is_ok {A} (m : res A) : Prop :=
  match m with Ok _ => True | Raise _ => False end.

(** [for x in xs: acc = f(acc, x)], stopping at the first exception. *)
Fixpoint foldM {A B} (f : B → A → res B) (acc : B) (xs : list A) : res B :=
  match xs with
  | [] => Ok acc
  | x :: xs' => acc' ← f acc x; foldM f acc' xs'
  end.

(** [[f(x) for x in xs]], also [asyncio.gather] of the calls [f x]: all
    results in order, or an exception of a member. *)
Fixpoint mapM {A B} (f : A → res B) (xs : list A) : res (list B) :=
  match xs with
  | [] => Ok []
  | x :: xs' => y ← f x; ys ← mapM f xs'; Ok (y :: ys)
  end.

(** *** Floats *)

(** [x < y], [x <= y] and [x == y] as propositions. *)
Definition flt (x y : float) : Prop := (x <? y) = true.
Definition fle (x y : float) : Prop := (x <=? y) = true.
Definition feq (x y : float) : Prop := (x =? y) = true.

(** [x == x]: every float but NaN. *)
Definition is_number (x : float) : Prop := (x =? x) = true.

(** Neither NaN nor an infinity. *)
Definition finite (x : float) : Prop := is_finite x = true.

Global Instance flt_dec x y : Decision (flt x y).
Proof. unfold flt. apply _. Defined.
Global Instance fle_dec x y : Decision (fle x y).
Proof. unfold fle. apply _. Defined.
Global Instance feq_dec x y : Decision (feq x y).
Proof. unfold feq. apply _. Defined.
Global Instance is_number_dec x : Decision (is_number x).
Proof. unfold is_number. apply _. Defined.
Global Instance finite_dec x : Decision (finite x).
Proof. unfold finite. apply _. Defined.

(** The float nearest to an int (ties to even), as [float(n)] gives it
    when it does not raise; an infinity stands for an int that is too
    large. *)
Definition nearest_float (n : Z) : float :=
  SF2Prim (binary_normalize prec emax n 0 false).

(** [float(n)], and the conversion of the int in [x / n] and [x * n]:
    [OverflowError] when the int does not fit a float. *)
Definition float_of_int (n : Z) : res float :=
  match binary_normalize prec emax n 0 false with
  | S754_infinity _ => Raise OverflowError
  | _ => Ok (nearest_float n)
  end.

(** [x / n] for a float [x] and an int [n]: the int is converted, and a
    zero divisor raises (the converted divisor is zero exactly when the int
    is). *)
Definition float_div_int (x : float) (n : Z) : res float :=
  if decide (n = 0)%Z then Raise ZeroDivisionError
  else d ← float_of_int n; Ok (x / d).

(** [x / len(l)] and [x * c] for a length or a counter: an int below
    [2^63], which always converts. *)
Definition float_div_len (x : float) (n : nat) : res float :=
  match n with
  | O => Raise ZeroDivisionError
  | _ => Ok (x / nearest_float (Z.of_nat n))
  end.

(** [x <= n] for a float [x] and an int [n]: Python compares the two
    numbers exactly, without converting the int. *)
Definition float_le_int (x : float) (n : Z) : bool :=
  match Prim2SF x with
  | S754_nan => false
  | S754_infinity s => s
  | S754_zero _ => (0 <=? n)%Z
  | S754_finite s m e =>
      match e with
      | Zneg p => (cond_Zopp s (Zpos m) <=? n * 2 ^ Zpos p)%Z
      | _ => (cond_Zopp s (Zpos m) * 2 ^ e <=? n)%Z
      end
  end.

(** *** Insertion-ordered dictionaries with string keys *)

Definition dict (V : Type) : Type := list (string * V).

Definition dict_wf {V} (d : dict V) : Prop := NoDup d.*1.

Global Instance dict_wf_dec {V} (d : dict V) : Decision (dict_wf d).
Proof. unfold dict_wf. apply _. Defined.

Fixpoint dict_get {V} (k : string) (d : dict V) : option V :=
  match d with
  | [] => None
  | (k', v) :: d' => if decide (k' = k) then Some v else dict_get k d'
  end.

(** [d[k] = v] *)
Fixpoint dict_set {V} (k : string) (v : V) (d : dict V) : dict V :=
  match d with
  | [] => [(k, v)]
  | (k', v') :: d' =>
      if decide (k' = k) then (k', v) :: d' else (k', v') :: dict_set k v d'
  end.

Definition dict_keys {V} (d : dict V) : list string := d.*1.

(** [k in d] *)
Definition dict_mem {V} (k : string) (d : dict V) : bool :=
  bool_decide (is_Some (dict_get k d)).

(** [d.update(d')] *)
Definition dict_update {V} (d d' : dict V) : dict V :=
  foldl (λ acc kv, dict_set kv.1 kv.2 acc) d d'.

(** [dict(items)] *)
Definition dict_of_items {V} (items : list (string * V)) : dict V :=
  dict_update [] items.

(** The body of a loop [for it in items: d[key(it)] = g(d.get(key(it)), it)];
    the loops of the fusion engine have this form. *)
Definition upd_step {I W} (key : I → string) (g : option W → I → W)
    (a : dict W) (it : I) : dict W :=
  dict_set (key it) (g (dict_get (key it) a) it) a.

(** [d[k] += x] on a [defaultdict(float)] *)
Definition dict_add (k : string) (x : float) (d : dict float) : dict float :=
  dict_set k (default 0 (dict_get k d) + x) d.

(** [d[k] += 1] on a [defaultdict(int)] *)
Definition dict_incr (k : string) (d : dict Z) : dict Z :=
  dict_set k (default 0%Z (dict_get k d) + 1)%Z d.

(** [enumerate(xs)] with the index as the integer Python hands out *)
Fixpoint enumerate_from {A} (i : Z) (xs : list A) : list (Z * A) :=
  match xs with
  | [] => []
  | x :: xs' => (i, x) :: enumerate_from (i + 1) xs'
  end.
Definition enumerate {A} (xs : list A) : list (Z * A) := enumerate_from 0 xs.

(** *** [sorted(xs, key=key, reverse=True)]

    [x], which stood before every element of [l], goes behind the
    elements whose key is greater than its own. *)

Fixpoint insert_desc {A} (key : A → float) (x : A) (l : list A) : list A :=
  match l with
  | [] => [x]
  | y :: l' =>
      if key x <? key y then y :: insert_desc key x l' else x :: y :: l'
  end.

Definition sorted_reverse {A} (key : A → float) (xs : list A) : list A :=
  foldr (insert_desc key) [] xs.

(** [a] may stand before [b] in a list sorted by [key], descending: its
    key is not less. *)
Definition desc {A} (key : A → float) (a b : A) : Prop :=
  ¬ flt (key a) (key b).

(** *** [s.split(sep)] for a one-character separator *)

Fixpoint split (sep : ascii) (s : string) : list string :=
  match s with
  | EmptyString => [EmptyString]
  | String c s' =>
      if decide (c = sep) then EmptyString :: split sep s'
      else match split sep s' with
           | [] => [String c EmptyString]
           | w :: ws => String c w :: ws
           end
  end.

(** [_, b, c = s.split("/")]: unpacking anything but three parts raises
    [ValueError]. *)
Definition split3 (s : string) : res (string * string) :=
  match split "/"%char s with
  | [_; b; c] => Ok (b, c)
  | _ => Raise ValueError
  end.

End Py.

Import Py.

(** ** The canonical record and the result sets *)

(** One entry of a result set, as [_format_milvus_result] and
    [apply_filters] build it. *)
Record CanonicalRecord : Type := mkRecord {
  score : float;
  url : string;
  path : string;
  video_id : string;
  frame_id : string;
  time_in_seconds : float
}.

Definition with_score (s : float) (r : CanonicalRecord) : CanonicalRecord :=
  mkRecord s (url r) (path r) (video_id r) (frame_id r) (time_in_seconds r).

Definition ResultSet : Type := dict CanonicalRecord.

(** ** [helpers/fusion.py]: class [RRFFusion] *)

Module RRFFusion.

Record t : Type := mk { _k : Z; _alpha : float }.

(** The property setters. *)
Definition set_alpha (value : float) (self : t) : res t :=
  if (0 <=? value) && (value <=? 1) then Ok (mk (_k self) value)
  else Raise ValueError.

Definition set_k (value : Z) (self : t) : res t :=
  if decide (value < 1)%Z then Raise ValueError
  else Ok (mk value (_alpha self)).

(** [__init__(k, alpha)]: [self.k = k] then [self.alpha = alpha]. *)
Definition init (k : Z) (alpha : float) : res t :=
  self ← set_k k (mk 0 0);
  set_alpha alpha self.

(** The service builds its engine with the defaults, [RRFFusion()]. *)
Definition default_k : Z := 60.
Definition default_alpha : float := 0.1.

Section methods.
Variable self : t.

(** [fused_scores[doc_id] += 1.0 / (self.k + rank + 1)] *)
Definition reciprocal_rank_fusion (results : list ResultSet)
  : res (dict float) :=
  foldM
    (λ fused_scores result_dict,
       foldM
         (λ fused (p : Z * string),
            w ← float_div_int 1 (_k self + p.1 + 1);
            Ok (dict_add p.2 w fused))
         fused_scores (enumerate (dict_keys result_dict)))
    [] results.

(** The single pass filling [sum_scores] and [count_scores]. *)
Definition comb_mnz_pass (results : list ResultSet) : dict float * dict Z :=
  foldl
    (λ acc result_dict,
       foldl
         (λ (acc : dict float * dict Z) (item : string * CanonicalRecord),
            (dict_add item.1 (score item.2) acc.1, dict_incr item.1 acc.2))
         acc result_dict)
    ([], []) results.

(** [sum_scores[doc_id] * count_scores[doc_id]]: the counter, at most the
    number of sets, is converted to a float. *)
Definition comb_mnz_fusion (results : list ResultSet) : dict float :=
  let '(sum_scores, count_scores) := comb_mnz_pass results in
  dict_of_items
    (map (λ doc_id,
            (doc_id,
             default 0 (dict_get doc_id sum_scores)
             * nearest_float (default 0%Z (dict_get doc_id count_scores))))
         (dict_keys sum_scores)).

(** [set(a.keys()) | set(b.keys())]; a Python set has no specified
    iteration order, the model lists each key once, in some order of
    its own. *)
Definition key_union {A B} (a : dict A) (b : dict B) : list string :=
  remove_dups (dict_keys a ++ dict_keys b).

Definition calc_final_scores (results : list ResultSet) : res (dict float) :=
  rrf_scores ← reciprocal_rank_fusion results;
  let comb_mnz_scores := comb_mnz_fusion results in
  let all_doc_ids := key_union rrf_scores comb_mnz_scores in
  Ok (foldl
        (λ final_scores doc_id,
           let rrf_score := default 0 (dict_get doc_id rrf_scores) in
           let mnz_score := default 0 (dict_get doc_id comb_mnz_scores) in
           dict_set doc_id
             (_alpha self * rrf_score + (1 - _alpha self) * mnz_score)
             final_scores)
        [] all_doc_ids).

Definition merge_results (results : list ResultSet) : ResultSet :=
  foldl dict_update [] results.

(** [merged_results[doc_id]["score"] = score] writes into the record
    object, which the input set shares; [fuse] returns the merged
    mapping only, so the write is modelled on the merged mapping. *)
Definition overwrite_scores (final_scores : dict float) (merged : ResultSet)
  : ResultSet :=
  foldl
    (λ merged_results (p : string * float),
       match dict_get p.1 merged_results with
       | Some r => dict_set p.1 (with_score p.2 r) merged_results
       | None => merged_results
       end)
    merged final_scores.

Definition fuse (results : list ResultSet) : res ResultSet :=
  match results with
  | [] => Ok []
  | _ =>
      final_scores ← calc_final_scores results;
      let merged_results := merge_results results in
      let merged_results := overwrite_scores final_scores merged_results in
      Ok (dict_of_items
            (sorted_reverse (λ x : string * CanonicalRecord, score x.2)
               merged_results))
  end.

End methods.

End RRFFusion.

(** ** [models/base.py]: presentation types *)

Inductive Mode : Type := MOMENT | VIDEO | VIDEO_AVG | TEMPORAL.

Global Instance Mode_eq_dec : EqDecision Mode.
Proof. solve_decision. Defined.

Module Image.
Record t : Type := mk {
  id : string;
  path : string;
  name : string;
  time_in_seconds : float;
  score : float
}.
End Image.

Module Cluster.
Record t : Type := mk {
  mode : option Mode;
  cluster_name : string;
  image_list : list Image.t;
  url : string
}.
End Cluster.

Record Filters : Type := mkFilters {
  ocr : list string;
  subtitle : list string;
  description : list string
}.

Record TemporalEvent : Type := mkEvent {
  ev_text : option string;
  ev_image : option string;
  ev_filters : option Filters
}.

Record GeneralResponse : Type := mkResponse {
  status : string;
  resp_mode : option Mode;
  resp_results : list Cluster.t;
  state_id : option string;
  resp_translated_texts : list string
}.

(** ** Temporal records

    The value [visual_temporal_search] stores for a now id:
    [{"now": {...}, "before": {...} | None, "after": {...} | None,
      "score": combined}]. *)

Module Entry.
Record t : Type := mk {
  id : string;
  time_in_seconds : float;
  score : float;
  url : string
}.
End Entry.

Module TemporalRecord.
Record t : Type := mk {
  now : Entry.t;
  before : option Entry.t;
  after : option Entry.t;
  score : float
}.
End TemporalRecord.

(** What [_visual_search] returns: the list [[]] when it is given neither
    text nor image, a result set otherwise. *)
Inductive VisualResult : Type :=
| VList
| VRecords (d : ResultSet).

(** The shapes of a ["results"] value of a session state. *)
Inductive Results : Type :=
| RList
| RRecords (d : ResultSet)
| RTemporal (d : dict TemporalRecord.t).

Definition Results_of_visual (v : VisualResult) : Results :=
  match v with
  | VList => RList
  | VRecords d => RRecords d
  end.

(** [not result_dict] *)
Definition Results_is_empty (r : Results) : bool :=
  match r with
  | RList | RRecords [] | RTemporal [] => true
  | _ => false
  end.

(** [len(result_dict)] and [list(result_dict.keys())] *)
Definition Results_len (r : Results) : nat :=
  match r with
  | RList => 0
  | RRecords d => length d
  | RTemporal d => length d
  end.

Definition Results_keys (r : Results) : list string :=
  match r with
  | RList => []
  | RRecords d => dict_keys d
  | RTemporal d => dict_keys d
  end.

(** [current_result_dict.get(id, {}).get("score", 0)]; a list has no
    [get]. *)
Definition Results_prior_score (id : string) (r : Results) : res float :=
  match r with
  | RList => Raise AttributeError
  | RRecords d => Ok (default 0 (score <$> dict_get id d))
  | RTemporal d => Ok (default 0 (TemporalRecord.score <$> dict_get id d))
  end.

(** The session state kept in the cache under a state handle. *)
Record Cached : Type := mkCached {
  temporal : bool;
  results : Results;
  translated_texts : option (list string)
}.

(** ** [services/search_service.py]: configuration and collaborators *)

(** The environment the module reads when it is loaded, and
    [SearchConfig.default_top_k]. [KEYFRAMES_DIR] is taken as set: every
    [Image] needs a [path]. *)
Record Config : Type := mkConfig {
  KEYFRAMES_DIR : string;
  ELASTIC_INDEX_NAME : option string;
  DEFAULT_MILVUS_COLLECTION : option string;
  ENSEMBLE_COLLECTIONS : list string;
  default_top_k : Z;
  translation_endpoint : option string
}.

(** Outcome of [APIClient.post] followed by
    [response.get("result", {}).get("results", [])]: the list of hits; an
    [APIRequestError] (the client wraps every failure of the request in
    it); or a body on which the [get] chain itself raises. *)
Inductive ApiOutcome (A : Type) : Type :=
| ApiOk (hits : list A)
| ApiRequestFailed
| ApiMalformed.
Global Arguments ApiOk {A} hits.
Global Arguments ApiRequestFailed {A}.
Global Arguments ApiMalformed {A}.

(** A hit of the vector back end: [(id, score, url, time_in_seconds)]. *)
Definition MilvusHit : Type := string * float * string * float.

Record MilvusPayload : Type := mkMilvusPayload {
  collection_name : option string;
  top_k : option Z;
  query_text : option (list string);
  query_b64_image : option (list string);
  query_ids : option (list string);
  query_weights : option (list float)
}.

Record ElasticHit : Type := mkElasticHit {
  hit_id : string;
  hit_url : string;
  hit_time_in_seconds : float;
  hit_score : float
}.

Record ElasticPayload : Type := mkElasticPayload {
  index_name : option string;
  ocr_text : option (list string);
  transcription_text : option (list string);
  description_text : option (list string);
  size : option Z;
  _from : Z;
  query_data_ids : option (list string)
}.

(** ** The cluster projector *)

Section projector.
Variable cfg : Config.

Definition _create_moment_clusters (result_dict : ResultSet)
  : list Cluster.t :=
  map (λ item : string * CanonicalRecord,
         let '(id, metadata) := item in
         let image :=
           Image.mk id (path metadata) id (time_in_seconds metadata)
             (score metadata) in
         Cluster.mk (Some MOMENT) (video_id metadata) [image] (url metadata))
      result_dict.

Definition image_of_item (item : string * CanonicalRecord) : Image.t :=
  Image.mk item.1 (path item.2) item.1 (time_in_seconds item.2)
    (score item.2).

(** The body of the grouping loop of [_create_video_clusters]. *)
Definition video_group_step (groups : dict (list Image.t * string))
    (item : string * CanonicalRecord) : dict (list Image.t * string) :=
  let metadata := item.2 in
  let groups :=
    if dict_mem (video_id metadata) groups then groups
    else dict_set (video_id metadata) ([], url metadata) groups in
  let image := image_of_item item in
  match dict_get (video_id metadata) groups with
  | Some (images, u) =>
      dict_set (video_id metadata) (images ++ [image], u) groups
  | None => groups
  end.

(** [video_groups]: video id -> (images, url), in first-encounter order
    of the video ids. *)
Definition video_groups (result_dict : ResultSet)
  : dict (list Image.t * string) :=
  foldl video_group_step [] result_dict.

(** [sum(img.score for img in images) / len(images)]: the sum starts
    from 0 and adds the scores in the order of the list. *)
Definition average_score (images : list Image.t) : res float :=
  float_div_len (foldl (λ acc img, acc + Image.score img) 0 images)
    (length images).

Definition cluster_of_group (mode : option Mode)
    (g : string * (list Image.t * string)) : Cluster.t :=
  Cluster.mk mode g.1 g.2.1 g.2.2.

Definition _create_video_clusters (result_dict : ResultSet)
    (mode : option Mode) : res (list Cluster.t) :=
  let groups := video_groups result_dict in
  if decide (mode = Some VIDEO) then Ok (map (cluster_of_group mode) groups)
  else
    video_scores ← mapM
      (λ g : string * (list Image.t * string),
         avg ← average_score g.2.1;
         Ok (g.1, (avg, g.2)))
      groups;
    let sorted_videos :=
      sorted_reverse
        (λ x : string * (float * (list Image.t * string)), x.2.1)
        video_scores in
    Ok (map (λ x : string * (float * (list Image.t * string)),
               cluster_of_group mode (x.1, x.2.2))
          sorted_videos).

Definition image_of_entry (combined : float) (e : Entry.t) : Image.t :=
  Image.mk (Entry.id e) (KEYFRAMES_DIR cfg) (Entry.id e)
    (Entry.time_in_seconds e) combined.

Definition _create_temporal_clusters (result_dict : dict TemporalRecord.t)
  : res (list Cluster.t) :=
  mapM
    (λ item : string * TemporalRecord.t,
       let '(id, result) := item in
       _ ← split3 id;
       let combined := TemporalRecord.score result in
       let image_list :=
         [image_of_entry combined (TemporalRecord.now result)]
         ++ from_option (λ e, [image_of_entry combined e]) []
              (TemporalRecord.before result)
         ++ from_option (λ e, [image_of_entry combined e]) []
              (TemporalRecord.after result) in
       Ok (Cluster.mk (Some VIDEO) id image_list
             (Entry.url (TemporalRecord.now result))))
    result_dict.

(** A record of the wrong shape has none of the keys the loop reads:
    the first iteration raises [KeyError] (in the temporal projection
    after the id has been unpacked). *)
Definition process_results (result_dict : Results) (mode : option Mode)
    (temporal : bool) : res (list Cluster.t) :=
  if Results_is_empty result_dict then Ok []
  else if temporal then
    match result_dict with
    | RTemporal d => _create_temporal_clusters d
    | RRecords ((id, _) :: _) => _ ← split3 id; Raise KeyError
    | _ => Ok []
    end
  else
    match result_dict with
    | RRecords d =>
        if decide (mode = Some MOMENT) then Ok (_create_moment_clusters d)
        else _create_video_clusters d mode
    | RTemporal _ => Raise KeyError
    | RList => Ok []
    end.

End projector.

(** ** The search service: the calls that do not touch the session cache *)

(** [c.isspace()] for the code points that UTF-8 writes in one byte:
    U+0009 to U+000D, U+001C to U+001F and U+0020. *)
Definition is_space (c : ascii) : bool :=
  let n := nat_of_ascii c in
  bool_decide (n = 32 ∨ (9 ≤ n ∧ n ≤ 13) ∨ (28 ≤ n ∧ n ≤ 31))%nat.

(** The white space that UTF-8 writes in two bytes: U+0085 and U+00A0. *)
Definition is_space2 (c1 c2 : ascii) : bool :=
  let a := nat_of_ascii c1 in
  let b := nat_of_ascii c2 in
  bool_decide (a = 194 ∧ (b = 133 ∨ b = 160))%nat.

(** The white space that UTF-8 writes in three bytes: U+1680, U+2000 to
    U+200A, U+2028, U+2029, U+202F, U+205F and U+3000. *)
Definition is_space3 (c1 c2 c3 : ascii) : bool :=
  let a := nat_of_ascii c1 in
  let b := nat_of_ascii c2 in
  let c := nat_of_ascii c3 in
  bool_decide
    ((a = 225 ∧ b = 154 ∧ c = 128)
     ∨ (a = 226 ∧ b = 128
        ∧ ((128 ≤ c ∧ c ≤ 138) ∨ c = 168 ∨ c = 169 ∨ c = 175))
     ∨ (a = 226 ∧ b = 129 ∧ c = 159)
     ∨ (a = 227 ∧ b = 128 ∧ c = 128))%nat.

(** [not text.strip()]: the text is made of white space only. *)
Fixpoint is_blank (s : string) : bool :=
  match s with
  | EmptyString => true
  | String c1 s1 =>
      if is_space c1 then is_blank s1
      else
        match s1 with
        | String c2 s2 =>
            if is_space2 c1 c2 then is_blank s2
            else
              match s2 with
              | String c3 s3 => is_space3 c1 c2 c3 && is_blank s3
              | EmptyString => false
              end
        | EmptyString => false
        end
  end.

(** [not text] for an optional string: [None] or the empty string. *)
Definition falsy (text : option string) : bool :=
  match text with
  | None => true
  | Some s => bool_decide (s = "")
  end.

(** [[x] if xs] for a list argument that is sent only when non-empty. *)
Definition nonempty {A} (xs : list A) : option (list A) :=
  match xs with
  | [] => None
  | _ => Some xs
  end.

Record SearchText : Type := mkSearchText {
  st_text : string;
  st_mode : Mode;
  st_collection : option string;
  st_state_id : option string;
  st_top_k : option Z;
  st_translate_mode : bool
}.

Record SearchFeedback : Type := mkSearchFeedback {
  fb_collection : option string;
  fb_positive : list string;
  fb_negative : list string;
  fb_state_id : string;
  fb_mode : Mode;
  fb_positive_weight : float;
  fb_negative_weight : float
}.

Record SearchTemporal : Type := mkSearchTemporal {
  tp_collection : option string;
  tp_now : option TemporalEvent;
  tp_before : option TemporalEvent;
  tp_after : option TemporalEvent;
  tp_time_interval : option Z;
  tp_translate_mode : bool
}.

Section service.
Variable cfg : Config.
(** The three collaborators. [translator text] is what the [try] block
    of [_translate_text] yields: the translated text, or [None] when the
    request, the status check or the decoding of the answer raises. *)
Variable milvus : MilvusPayload → ApiOutcome MilvusHit.
Variable elastic : ElasticPayload → ApiOutcome ElasticHit.
Variable translator : string → option string.

(** [self.fusion = RRFFusion()] *)
Definition fusion : RRFFusion.t :=
  RRFFusion.mk RRFFusion.default_k RRFFusion.default_alpha.

Definition _translate_text (text : string) : res string :=
  match translation_endpoint cfg with
  | None => Raise AssertionError
  | Some _ =>
      match translator text with
      | Some translated_text => Ok translated_text
      | None => Ok text
      end
  end.

Definition _format_milvus_result (results : list MilvusHit)
  : res ResultSet :=
  foldM
    (λ result_dict (result : MilvusHit),
       let '(id, sc, u, t) := result in
       '(video_id, frame_id) ← split3 id;
       Ok (dict_set id (mkRecord sc u (KEYFRAMES_DIR cfg) video_id frame_id t)
             result_dict))
    [] results.

(** The [try] block of [_text_search] and [_visual_search]: an
    [APIRequestError] is raised again, any other exception (also one of
    the formatting) gives the still empty [result_dict]. *)
Definition milvus_search (payload : MilvusPayload) : res ResultSet :=
  match milvus payload with
  | ApiOk hits =>
      match _format_milvus_result hits with
      | Ok result_dict => Ok result_dict
      | Raise _ => Ok []
      end
  | ApiRequestFailed => Raise APIRequestError
  | ApiMalformed => Ok []
  end.

Definition _text_search (collection : option string) (text : string)
    (top_k : option Z) : res ResultSet :=
  if is_blank text then Raise ValueError
  else
    milvus_search
      (mkMilvusPayload collection top_k (Some [text]) None None None).

Definition _ensemble_text_search (request : SearchText) : res ResultSet :=
  match ENSEMBLE_COLLECTIONS cfg with
  | [] => _text_search (st_collection request) (st_text request)
            (st_top_k request)
  | collections =>
      results ← mapM
        (λ c, _text_search (Some c) (st_text request) (st_top_k request))
        collections;
      RRFFusion.fuse fusion results
  end.

Definition _visual_search (collection : option string)
    (text : option string) (base64_images : list string)
  : res VisualResult :=
  if falsy text && bool_decide (base64_images = []) then Ok VList
  else
    result_dict ← milvus_search
      (mkMilvusPayload collection (Some (default_top_k cfg))
         (if falsy text then None else (λ t, [t]) <$> text)
         (nonempty base64_images) None None);
    Ok (VRecords result_dict).

(** [self.fusion.fuse(results)] on what the members returned: the first
    thing [fuse] does with a non-empty list is [result_dict.keys()] on
    every member, which a list does not have. *)
Definition fuse_members (results : list VisualResult) : res ResultSet :=
  match results with
  | [] => Ok []
  | _ =>
      dicts ← mapM
        (λ r, match r with
              | VList => Raise AttributeError
              | VRecords d => Ok d
              end)
        results;
      RRFFusion.fuse fusion dicts
  end.

Definition _ensemble_visual_search (collection : option string)
    (text : option string) (base64_images : list string)
  : res VisualResult :=
  match ENSEMBLE_COLLECTIONS cfg with
  | [] =>
      _visual_search
        (match collection with
         | Some c => if decide (c = "") then DEFAULT_MILVUS_COLLECTION cfg
                     else Some c
         | None => DEFAULT_MILVUS_COLLECTION cfg
         end)
        text base64_images
  | collections =>
      results ← mapM (λ c, _visual_search (Some c) text base64_images)
        collections;
      d ← fuse_members results;
      Ok (VRecords d)
  end.

(** *** Relevance feedback *)

(** The request id is ["milvus_" + state_id + "_" + collection]: a
    missing collection makes the concatenation raise. *)
Definition _single_relevance_feedback (request : SearchFeedback)
    (collection : option string) : res ResultSet :=
  match collection with
  | None => Raise TypeError
  | Some c =>
      let positive := fb_positive request in
      let negative := fb_negative request in
      let positive_weights :=
        replicate (length positive) (fb_positive_weight request) in
      let negative_weights :=
        replicate (length negative) (fb_negative_weight request) in
      let payload :=
        mkMilvusPayload (Some c) (Some (default_top_k cfg)) None None
          (Some (positive ++ negative))
          (Some (positive_weights ++ negative_weights)) in
      match milvus payload with
      | ApiOk [] => Ok []
      | ApiOk milvus_results => _format_milvus_result milvus_results
      | ApiRequestFailed => Raise APIRequestError
      | ApiMalformed => Ok []
      end
  end.

Definition _ensemble_relevance_feedback (request : SearchFeedback)
  : res ResultSet :=
  match ENSEMBLE_COLLECTIONS cfg with
  | [] => Ok []
  | collections =>
      results ← mapM (λ c, _single_relevance_feedback request (Some c))
        collections;
      RRFFusion.fuse fusion results
  end.

(** *** Lexical filtering *)

Definition apply_filters_payload (current_result_dict : Results)
    (filters : Filters) (top_k : option Z) : ElasticPayload :=
  let ids :=
    if decide (0 < Results_len current_result_dict)%nat
    then Results_keys current_result_dict else [] in
  let size :=
    if decide (0 < Results_len current_result_dict)%nat
    then Some (Z.of_nat (length ids)) else top_k in
  mkElasticPayload (ELASTIC_INDEX_NAME cfg)
    (nonempty (ocr filters)) (nonempty (subtitle filters))
    (nonempty (description filters))
    size 0
    (if decide (0 < length ids)%nat then Some ids else None).

Definition apply_filters (current_result_dict : Results)
    (filters : Filters) (top_k : option Z) : res ResultSet :=
  match elastic (apply_filters_payload current_result_dict filters top_k) with
  | ApiOk elastic_results =>
      foldM
        (λ result_dict (result : ElasticHit),
           let id := hit_id result in
           '(video_id, frame_id) ← split3 id;
           prior ← Results_prior_score id current_result_dict;
           Ok (dict_set id
                 (mkRecord (hit_score result + prior) (hit_url result)
                    (KEYFRAMES_DIR cfg) video_id frame_id
                    (hit_time_in_seconds result))
                 result_dict))
        [] elastic_results
  | ApiRequestFailed => Ok []
  | ApiMalformed => Ok []
  end.

(** *** Temporal correlation (the body of [visual_temporal_search] from
    [final_result_dict = {}] to [sorted_result_dict]) *)

(** [0 <= delta <= time_interval], the interval being an int; the
    second comparison is evaluated only when the first holds, and fails on
    a missing interval. *)
Definition within_interval (delta : float) (time_interval : option Z)
  : res bool :=
  if 0 <=? delta then
    match time_interval with
    | Some ti => Ok (float_le_int delta ti)
    | None => Raise TypeError
    end
  else Ok false.

(** The body of one of the two inner loops. [delta c] is the time
    difference the loop tests: [now - c] for the before set, [c - now]
    for the after set. The state is [(selected, selected_id)] kept
    together, and [max_score]. *)
Definition select_step (video_id : string)
    (delta : CanonicalRecord → float) (time_interval : option Z)
    (st : option (string * CanonicalRecord) * float)
    (item : string * CanonicalRecord)
  : res (option (string * CanonicalRecord) * float) :=
  let '(cand_id, cand) := item in
  '(cand_video_id, _) ← split3 cand_id;
  if decide (cand_video_id = video_id) then
    ok ← within_interval (delta cand) time_interval;
    if ok && (st.2 <? score cand)
    then Ok (Some (cand_id, cand), score cand)
    else Ok st
  else Ok st.

(** One of the two inner loops, started with nothing selected and
    [max_score = 0]. *)
Definition select_candidate (video_id : string)
    (delta : CanonicalRecord → float) (time_interval : option Z)
    (candidates : VisualResult)
  : res (option (string * CanonicalRecord)) :=
  match candidates with
  | VList => Raise AttributeError
  | VRecords d =>
      st ← foldM (select_step video_id delta time_interval) (None, 0) d;
      Ok st.1
  end.

Definition entry_of (id : string) (r : CanonicalRecord) : Entry.t :=
  Entry.mk id (time_in_seconds r) (score r) (url r).

Definition correlate_one (before_result_dict after_result_dict : VisualResult)
    (time_interval : option Z) (now_id : string)
    (now_result : CanonicalRecord) : res TemporalRecord.t :=
  '(video_id, frame_id) ← split3 now_id;
  selected_before ← select_candidate video_id
    (λ c, time_in_seconds now_result - time_in_seconds c)
    time_interval before_result_dict;
  selected_after ← select_candidate video_id
    (λ c, time_in_seconds c - time_in_seconds now_result)
    time_interval after_result_dict;
  let combined_score := score now_result in
  let combined_score :=
    match selected_before with
    | Some (_, b) => combined_score + score b
    | None => combined_score
    end in
  let combined_score :=
    match selected_after with
    | Some (_, a) => combined_score + score a
    | None => combined_score
    end in
  Ok (TemporalRecord.mk (entry_of now_id now_result)
        (uncurry entry_of <$> selected_before)
        (uncurry entry_of <$> selected_after)
        combined_score).

Definition temporal_correlation
    (now_result_dict before_result_dict after_result_dict : VisualResult)
    (time_interval : option Z) : res (dict TemporalRecord.t) :=
  match now_result_dict with
  | VList => Raise AttributeError
  | VRecords now_d =>
      final_result_dict ← foldM
        (λ final (item : string * CanonicalRecord),
           tr ← correlate_one before_result_dict after_result_dict
                  time_interval item.1 item.2;
           Ok (dict_set item.1 tr final))
        [] now_d;
      Ok (dict_of_items
            (sorted_reverse
               (λ x : string * TemporalRecord.t, TemporalRecord.score x.2)
               final_result_dict))
  end.

(** The sub-search of one event: [search_now], [search_before],
    [search_after]. A missing before or after event gives [{}]. *)
Definition search_event (collection : option string) (ev : TemporalEvent)
  : res VisualResult :=
  result ← _visual_search collection (ev_text ev)
    (match ev_image ev with
     | None => []
     | Some img => if decide (img = "") then [] else [img]
     end);
  match ev_filters ev with
  | Some filters =>
      d ← apply_filters (Results_of_visual result) filters (Some 1024%Z);
      Ok (VRecords d)
  | None => Ok result
  end.

End service.

(** ** The session cache and the state handles *)

(** The world the service runs in.
    - [redis_up] is [false] when the cache client has no connection or a
      call to it fails: [set] then returns [False] and [get] returns
      [None].
    - [redis] is the content of the cache (a stored value is the JSON text
      of the state, read back by [json.loads]; the model keeps the state).
      Expiry only removes entries and is not modelled.
    - [entropy] is the system's random source: [entropy i] is what the
      [i]-th call of [secrets.token_hex(6)] draws, and [drawn] counts the
      calls made so far. *)
Record World : Type := mkWorld {
  redis_up : bool;
  redis : gmap string Cached;
  entropy : nat → N;
  drawn : nat
}.

Definition Svc (A : Type) : Type := World → res A * World.

Global Instance Svc_ret : MRet Svc := λ A a w, (Ok a, w).
Global Instance Svc_bind : MBind Svc := λ A B f m w,
  match m w with
  | (Ok a, w') => f a w'
  | (Raise e, w') => (Raise e, w')
  end.

Definition lift {A} (r : res A) : Svc A := λ w, (r, w).

Definition hex_digit (d : N) : ascii :=
  match d with
  | 0 => "0" | 1 => "1" | 2 => "2" | 3 => "3" | 4 => "4" | 5 => "5"
  | 6 => "6" | 7 => "7" | 8 => "8" | 9 => "9" | 10 => "a" | 11 => "b"
  | 12 => "c" | 13 => "d" | 14 => "e" | _ => "f"
  end%N%char.

(** [digits] hexadecimal digits of [n], most significant first. *)
Fixpoint hex_fixed (digits : nat) (n : N) (acc : string) : string :=
  match digits with
  | O => acc
  | S d => hex_fixed d (n / 16)%N (String (hex_digit (n mod 16)%N) acc)
  end.

(** [secrets.token_hex(nbytes)] on a draw [n] of the random source. *)
Definition token_hex (nbytes : nat) (n : N) : string :=
  hex_fixed (2 * nbytes) n "".

Definition _generate_state_id : Svc string := λ w,
  (Ok (String.append "0x" (token_hex 6 (entropy w (drawn w)))),
   mkWorld (redis_up w) (redis w) (entropy w) (S (drawn w))).

(** [f"search_{state_id}"]; a missing id is formatted as [None]. *)
Definition cache_key (state_id : option string) : string :=
  String.append "search_" (default "None" state_id).

(** [redis_client.set] through [cache_result] *)
Definition cache_result (state_id : string) (value : Cached) : Svc bool :=
  λ w,
    if redis_up w then
      (Ok true,
       mkWorld (redis_up w) (<[cache_key (Some state_id) := value]> (redis w))
         (entropy w) (drawn w))
    else (Ok false, w).

(** [redis_client.get] through [get_cached_result] *)
Definition get_cached_result (state_id : option string)
  : Svc (option Cached) :=
  λ w, (Ok (if redis_up w then redis w !! cache_key state_id else None), w).

(** [cached_results["translated_texts"]] *)
Definition get_translated_texts (c : Cached) : res (list string) :=
  match translated_texts c with
  | Some ts => Ok ts
  | None => Raise KeyError
  end.

Record ChatFilter : Type := mkChatFilter {
  cf_mode : option Mode;
  cf_state_id : option string;
  cf_filters : Filters;
  cf_top_k : option Z
}.

(** ** The orchestrator operations *)

Section orchestrator.
Variable cfg : Config.
Variable milvus : MilvusPayload → ApiOutcome MilvusHit.
Variable elastic : ElasticPayload → ApiOutcome ElasticHit.
Variable translator : string → option string.

Definition success (mode : option Mode) (state_id : string)
    (clusters : list Cluster.t) (translated : list string)
  : GeneralResponse :=
  mkResponse "success" mode clusters (Some state_id) translated.

(** The answer from an existing state, common to [text_search] and
    [visual_temporal_search]. *)
Definition from_cache (c : Cached) (mode : Mode) (is_temporal : bool)
    (state_id : string) : res GeneralResponse :=
  clusters ← process_results cfg (results c) (Some mode) is_temporal;
  translated ← get_translated_texts c;
  Ok (success (Some mode) state_id clusters translated).

Definition text_search (request : SearchText) : Svc GeneralResponse :=
  if is_blank (st_text request) then lift (Raise ValueError)
  else
    state_id ←
      (if falsy (st_state_id request) then _generate_state_id
       else mret (default "" (st_state_id request)));
    cached_results ← get_cached_result (Some state_id);
    match cached_results with
    | Some c => lift (from_cache c (st_mode request) false state_id)
    | None =>
        text ←
          (if st_translate_mode request
           then lift (_translate_text cfg translator (st_text request))
           else mret (st_text request));
        let translated_texts :=
          if st_translate_mode request then [text] else [] in
        let request :=
          mkSearchText text (st_mode request) (st_collection request)
            (st_state_id request) (st_top_k request)
            (st_translate_mode request) in
        result_dict ← lift
          (if decide (st_collection request = Some "ensemble")
           then _ensemble_text_search cfg milvus request
           else _text_search cfg milvus (st_collection request)
                  (st_text request) (st_top_k request));
        new_state_id ← _generate_state_id;
        _ ← cache_result new_state_id
              (mkCached false (RRecords result_dict) None);
        clusters ← lift
          (process_results cfg (RRecords result_dict)
             (Some (st_mode request)) false);
        mret (success (Some (st_mode request)) new_state_id clusters
                translated_texts)
    end.

Definition visual_search (collection : option string) (mode : Mode)
    (text : option string) (base64_images : list string)
  : Svc GeneralResponse :=
  result_dict ← lift
    (if decide (collection = Some "ensemble")
     then _ensemble_visual_search cfg milvus collection text base64_images
     else _visual_search cfg milvus collection text base64_images);
  new_state_id ← _generate_state_id;
  _ ← cache_result new_state_id
        (mkCached false (Results_of_visual result_dict) None);
  clusters ← lift
    (process_results cfg (Results_of_visual result_dict) (Some mode) false);
  mret (success (Some mode) new_state_id clusters []).

Definition relevance_feedback (request : SearchFeedback)
  : Svc GeneralResponse :=
  result_dict ← lift
    (if decide (fb_collection request = Some "ensemble")
     then _ensemble_relevance_feedback cfg milvus request
     else _single_relevance_feedback cfg milvus request
            (fb_collection request));
  match result_dict with
  | [] =>
      mret (success (Some (fb_mode request)) (fb_state_id request) [] [])
  | _ =>
      new_state_id ← _generate_state_id;
      _ ← cache_result new_state_id
            (mkCached false (RRecords result_dict) None);
      clusters ← lift
        (process_results cfg (RRecords result_dict)
           (Some (fb_mode request)) false);
      mret (success (Some (fb_mode request)) new_state_id clusters [])
  end.

(** [if request.X and request.X.text: request.X.text = translate(...)]:
    the event after the step, and the text to append, if any. *)
Definition translate_event (ev : option TemporalEvent)
  : res (option TemporalEvent * list string) :=
  match ev with
  | Some e =>
      if falsy (ev_text e) then Ok (ev, [])
      else
        t ← _translate_text cfg translator (default "" (ev_text e));
        Ok (Some (mkEvent (Some t) (ev_image e) (ev_filters e)), [t])
  | None => Ok (ev, [])
  end.

Definition search_optional_event (collection : option string)
    (ev : option TemporalEvent) : res VisualResult :=
  match ev with
  | None => Ok (VRecords [])
  | Some e => search_event cfg milvus elastic collection e
  end.

Definition visual_temporal_search (request : SearchTemporal)
  : Svc GeneralResponse :=
  match tp_now request with
  | None => lift (Raise ValueError)
  | Some _ =>
      state_id ← _generate_state_id;
      cached_results ← get_cached_result (Some state_id);
      match cached_results with
      | Some c => lift (from_cache c VIDEO true state_id)
      | None =>
          '(now, before, after, translated_texts) ← lift
            (if tp_translate_mode request then
               '(now, t1) ← translate_event (tp_now request);
               '(before, t2) ← translate_event (tp_before request);
               '(after, t3) ← translate_event (tp_after request);
               Ok (now, before, after, t1 ++ t2 ++ t3)
             else
               Ok (tp_now request, tp_before request, tp_after request, []));
          now_result_dict ← lift
            (search_optional_event (tp_collection request) now);
          before_result_dict ← lift
            (search_optional_event (tp_collection request) before);
          after_result_dict ← lift
            (search_optional_event (tp_collection request) after);
          sorted_result_dict ← lift
            (temporal_correlation now_result_dict before_result_dict
               after_result_dict (tp_time_interval request));
          clusters ← lift
            (process_results cfg (RTemporal sorted_result_dict)
               (Some VIDEO) true);
          new_state_id ← _generate_state_id;
          _ ← cache_result new_state_id
                (mkCached true (RTemporal sorted_result_dict)
                   (Some translated_texts));
          mret (success (Some VIDEO) new_state_id clusters translated_texts)
      end
  end.

Definition change_clustering_mode (state_id : string) (new_mode : Mode)
  : Svc (string * list Cluster.t) :=
  if decide (state_id = "") then lift (Raise ValueError)
  else
    cached_results ← get_cached_result (Some state_id);
    match cached_results with
    | None => lift (Raise ValueError)
    | Some c =>
        clusters ← lift
          (process_results cfg (results c) (Some new_mode) (temporal c));
        new_state_id ← _generate_state_id;
        _ ← cache_result new_state_id c;
        mret (new_state_id, clusters)
    end.

(** *** [routers/chat.py]

    A handler of the router wraps its body in [try] and turns every
    exception into [HTTPException(status_code=500)]: a [Raise] of these
    two functions is that error answer. *)

Definition filter_chat (request : ChatFilter) : Svc GeneralResponse :=
  cached_result ← get_cached_result (cf_state_id request);
  let current_result_dict :=
    match cached_result with
    | Some c => results c
    | None => RRecords []
    end in
  result_dict ← lift
    (apply_filters cfg elastic current_result_dict (cf_filters request)
       (cf_top_k request));
  clusters ← lift
    (process_results cfg (RRecords result_dict) (cf_mode request) false);
  new_state_id ← _generate_state_id;
  _ ← cache_result new_state_id
        (mkCached
           (match cached_result with Some c => temporal c | None => false end)
           (RRecords result_dict) None);
  mret (success (cf_mode request) new_state_id clusters []).

Definition restore_chat (mode : Mode) (state_id : string)
  : Svc GeneralResponse :=
  cached_result ← get_cached_result (Some state_id);
  match cached_result with
  | Some c =>
      clusters ← lift
        (process_results cfg (results c) (Some mode) (temporal c));
      mret (success (Some mode) state_id clusters [])
  | None => mret (success (Some mode) state_id [] [])
  end.

End orchestrator.

(** ** The fusion formulas, in the words of the design

    These definitions follow the description of the fusion engine, not its
    code; the theorems below compare the two. *)

Module FusionSpec.

(** A float sum in the order of the sets: what the sets contribute is
    added up from 0, one set after the other; a set that contributes
    nothing is passed over. *)
Definition sum_over {S} (contrib : S → option float) (sets : list S)
  : float :=
  foldl (λ acc s, match contrib s with Some c => acc + c | None => acc end)
    0 sets.

(** The 0-based position of [id] in the iteration order of a set. *)
Definition rank_of (id : string) (s : ResultSet) : option nat :=
  fst <$> list_find (λ k, k = id) (dict_keys s).

(** [1/(k + rank + 1)] as a float. *)
Definition reciprocal (k : Z) (rank : nat) : float :=
  1 / nearest_float (k + Z.of_nat rank + 1).

(** [rrf[id]]: the sum over the sets of [1/(k + rank + 1)]; a set
    without the id contributes nothing. *)
Definition rrf (k : Z) (sets : list ResultSet) (id : string) : float :=
  sum_over (λ s, reciprocal k <$> rank_of id s) sets.

(** [combMNZ[id]]: (sum of the per-set scores of the id) * (number of
    sets that contain it). *)
Definition comb_mnz (sets : list ResultSet) (id : string) : float :=
  sum_over (λ s, score <$> dict_get id s) sets
  * nearest_float
      (Z.of_nat (length (filter (λ s, id ∈ dict_keys s) sets))).

Definition final (alpha : float) (k : Z) (sets : list ResultSet)
    (id : string) : float :=
  alpha * rrf k sets id + (1 - alpha) * comb_mnz sets id.

(** [id] is seen in one of the sets. *)
Definition in_some_set (id : string) (sets : list ResultSet) : Prop :=
  Exists (λ s : ResultSet, id ∈ dict_keys s) sets.

(** The record of [id] in the last set that contains it. *)
Definition last_write (id : string) (sets : list ResultSet)
  : option CanonicalRecord :=
  foldl (λ acc s, match dict_get id s with Some r => Some r | None => acc end)
    None sets.

(** Every [k + rank + 1] that the sets call for has a float. *)
Definition convertible (k : Z) (sets : list ResultSet) : Prop :=
  Forall
    (λ s : ResultSet,
       ∀ rank, (rank < length s)%nat →
               is_ok (float_of_int (k + Z.of_nat rank + 1)))
    sets.

(** [r'] is the record [r] with the score [s] written over its own. *)
Definition rescored (s : float) (r r' : CanonicalRecord) : Prop :=
  score r' = s ∧ url r' = url r ∧ path r' = path r
  ∧ video_id r' = video_id r ∧ frame_id r' = frame_id r
  ∧ time_in_seconds r' = time_in_seconds r.

(** The ids in the order in which the sets, one after the other, first
    show them. *)
Definition first_seen (sets : list ResultSet) : list string :=
  foldl (λ seen x, if decide (x ∈ seen) then seen else seen ++ [x])
    [] (concat (dict_keys <$> sets)).

(** [l] ranks the ids [ids] by a score: it lists the same ids, none
    before an id of greater score, ids of equal score in the order of
    [ids]. *)
Definition is_ranking (score_of : string → float) (ids l : list string)
  : Prop :=
  l ≡ₚ ids
  ∧ StronglySorted (λ a b, ¬ flt (score_of a) (score_of b)) l
  ∧ ∀ c, filter (λ x, feq (score_of x) c) l
         = filter (λ x, feq (score_of x) c) ids.

End FusionSpec.

(** ** The shape of the accumulation loops

    The fusion engine fills its score tables with nested loops: for every
    set, for every item of the set, [acc[key(item)] += val(item)]. The
    proofs treat them through these generic bodies. *)

Section accumulate_defs.
Context {S I : Type} (items : S → list I) (key : I → string).

Definition found (id : string) (s : S) : option I :=
  snd <$> list_find (λ it, key it = id) (items s).

Definition acc_body (val : I → float) (acc : dict float) (s : S)
  : dict float :=
  foldl (upd_step key (λ o it, default 0 o + val it)) acc (items s).

Definition count_body (acc : dict Z) (s : S) : dict Z :=
  foldl (upd_step key (λ o (_ : I), default 0 o + 1)%Z) acc (items s).

(** What the loop over one set does to the entry of [id]. *)
Definition acc_entry (val : I → float) (id : string) (o : option float)
    (s : S) : option float :=
  match found id s with
  | Some it => Some (default 0 o + val it)
  | None => o
  end.
End accumulate_defs.

(** What the score-overwriting loop of [fuse] does to one merged record. *)
Definition rescore (final_scores : dict float) (id : string)
    (r : CanonicalRecord) : CanonicalRecord :=
  match dict_get id final_scores with
  | Some sc => with_score sc r
  | None => r
  end.

(** Sample inputs: two result sets that share two ids. *)
Definition sample_record (v : string) (t s : float) : CanonicalRecord :=
  mkRecord s "http://video" "keyframes" v "f" t.

Definition sample_set1 : ResultSet :=
  [("L01/V1/1", sample_record "V1" 0 0.8);
   ("L01/V1/2", sample_record "V1" 0 0.5)].

Definition sample_set2 : ResultSet :=
  [("L01/V1/2", sample_record "V1" 0 0.6);
   ("L01/V2/3", sample_record "V2" 0 0.9);
   ("L01/V1/1", sample_record "V1" 0 0.6)].

(** An engine that the constructor accepts and whose [k] has no float. *)
Definition huge_k : Z := 2 ^ 1024.

(** Two sets in which the scores of one id add up to an infinity: with
    [alpha = 1] its final score is [rrf + 0 * inf], which is NaN. *)
Definition overflow_set1 : ResultSet :=
  [("L01/V1/b", sample_record "V1" 0 1);
   ("L01/V1/a", sample_record "V1" 0 1.7e308)].

Definition overflow_set2 : ResultSet :=
  [("L01/V1/a", sample_record "V1" 0 1.7e308)].

(** ** The cluster projection, in the words of the design *)

Module ClusterSpec.

(** The distinct values of a list in the order of their first
    occurrence. *)
Definition first_encounter (xs : list string) : list string :=
  foldl (λ seen x, if decide (x ∈ seen) then seen else seen ++ [x]) [] xs.


(** The mean of the scores of the images of a cluster as floats give
    it: the scores added up from 0 in the order of the images, divided by
    their number. *)
Definition mean_score (c : Cluster.t) : float :=
  foldl (λ acc s, acc + s) 0 (Image.score <$> Cluster.image_list c)
  / nearest_float (Z.of_nat (length (Cluster.image_list c))).

(** The rational number that a finite float stands for. *)
Definition exact (x : float) : Q :=
  match Prim2SF x with
  | S754_finite s m e => (inject_Z (cond_Zopp s (Zpos m)) * Qpower 2 e)%Q
  | _ => 0%Q
  end.





End ClusterSpec.

(** ** Temporal correlation, in the words of the design *)

Module TemporalSpec.

Abbreviation candidate := (string * CanonicalRecord)%type.

(** The video component of a compound id "prefix/videoId/frameId". *)
Definition video_of (id : string) : option string :=
  match split3 id with
  | Ok (v, _) => Some v
  | Raise _ => None
  end.

(** The ids of a set name the videos of its records: the video
    component of every id is the [video_id] of its record. The sets that
    [_format_milvus_result] and [apply_filters] build are of this kind. *)
Definition ids_wf (d : list candidate) : Prop :=
  Forall (λ c : candidate, video_of c.1 = Some (video_id c.2)) d.

(** The candidate is of the video [video] and lies in the time window:
    [0 <= delta <= time_interval], where [delta] is [R.time - c.time]
    for a before candidate and [c.time - R.time] for an after
    candidate. *)
Definition in_window (video : string) (delta : CanonicalRecord → float)
    (time_interval : Z) (c : candidate) : Prop :=
  video_id c.2 = video
  ∧ fle 0 (delta c.2) ∧ float_le_int (delta c.2) time_interval = true.

Global Instance in_window_dec video delta time_interval c :
  Decision (in_window video delta time_interval c).
Proof. unfold in_window. apply _. Defined.

(** [sel] is the choice among the candidates that satisfy [P]: the one
    of maximum score, the first encountered among equals; nothing when
    no candidate satisfies [P]. *)
Definition is_choice (P : candidate → Prop) (cands : list candidate)
    (sel : option candidate) : Prop :=
  match sel with
  | None => ∀ c, c ∈ cands → ¬ P c
  | Some c =>
      ∃ l1 l2, cands = l1 ++ c :: l2 ∧ P c
               ∧ Forall (λ x, P x → flt (score x.2) (score c.2)) l1
               ∧ Forall (λ x, P x → ¬ flt (score c.2) (score x.2)) l2
  end.

(** The selection as the design words it: the best candidate in the
    window. *)
Definition stated_choice (video : string) (delta : CanonicalRecord → float)
    (time_interval : Z) : list candidate → option candidate → Prop :=
  is_choice (in_window video delta time_interval).

(** The selection with the threshold of the code: the best candidate in
    the window among those of positive score. *)
Definition positive_choice (video : string)
    (delta : CanonicalRecord → float)
    (time_interval : Z) : list candidate → option candidate → Prop :=
  is_choice
    (λ c, in_window video delta time_interval c ∧ flt 0 (score c.2)).

(** The score with the score of a selected candidate added, if there is
    one. *)
Definition plus_selected (s : float) (sel : option candidate) : float :=
  match sel with
  | Some c => s + score c.2
  | None => s
  end.

(** The maximum-score tracker of a selection loop that holds [sel]. *)
Definition tracker_of (sel : option candidate) : float :=
  from_option (λ c : candidate, score c.2) 0 sel.

(** What a selection loop keeps: the tracker is 0 with nothing selected,
    or the score of the selected candidate, which is positive and comes
    from the set. *)
Definition tracker_ok (cands : list candidate)
    (st : option candidate * float) : Prop :=
  match st.1 with
  | None => st.2 = 0
  | Some c => c ∈ cands ∧ flt 0 (score c.2) ∧ st.2 = score c.2
  end.

(** The temporal record the design describes for the now record [R]
    of id [id], with the selection rule [choice]. *)
Definition record_for
    (choice : string → (CanonicalRecord → float) → Z →
              list candidate → option candidate → Prop)
    (before after : list candidate) (time_interval : Z)
    (id : string) (R : CanonicalRecord) (tr : TemporalRecord.t) : Prop :=
  ∃ sb sa,
    choice (video_id R) (λ c, time_in_seconds R - time_in_seconds c)
      time_interval before sb
    ∧ choice (video_id R) (λ c, time_in_seconds c - time_in_seconds R)
        time_interval after sa
    ∧ tr = TemporalRecord.mk
             (Entry.mk id (time_in_seconds R) (score R) (url R))
             ((λ c : candidate,
                 Entry.mk c.1 (time_in_seconds c.2) (score c.2) (url c.2))
                <$> sb)
             ((λ c : candidate,
                 Entry.mk c.1 (time_in_seconds c.2) (score c.2) (url c.2))
                <$> sa)
             (plus_selected (plus_selected (score R) sb) sa).

(** The output of the correlator: every now record has its temporal
    record, and the mapping is in descending order of combined score
    (when the combined scores are numbers). *)
Definition correlated
    (choice : string → (CanonicalRecord → float) → Z →
              list candidate → option candidate → Prop)
    (now before after : list candidate) (time_interval : Z)
    (out : dict TemporalRecord.t) : Prop :=
  dict_keys out ≡ₚ dict_keys now
  ∧ (Forall (λ x : string * TemporalRecord.t,
               is_number (TemporalRecord.score x.2)) out →
     StronglySorted (desc (λ x : string * TemporalRecord.t,
                             TemporalRecord.score x.2)) out)
  ∧ ∀ id R, (id, R) ∈ now →
      ∃ tr, dict_get id out = Some tr
            ∧ record_for choice before after time_interval id R tr.

(** A now record at 30 s and a single before candidate of the same
    video at 25 s whose score is negative. *)
Definition now_example : ResultSet :=
  [("L01/V1/30", sample_record "V1" 30 0.4)].

Definition before_example : ResultSet :=
  [("L01/V1/25", sample_record "V1" 25 (-0.5))].

(** Two now records, three before candidates and one after candidate:
    the now record of V1 gets the before candidate at 25 s (the better of
    the two in its window) and the after candidate, and moves to the
    front; the only before candidate of V2 has a negative score. *)
Definition now_sample : ResultSet :=
  [("L01/V2/50", sample_record "V2" 50 0.6);
   ("L01/V1/30", sample_record "V1" 30 0.4)].

Definition before_sample : ResultSet :=
  [("L01/V1/10", sample_record "V1" 10 0.5);
   ("L01/V1/25", sample_record "V1" 25 0.9);
   ("L01/V2/49", sample_record "V2" 49 (-0.5))].

Definition after_sample : ResultSet :=
  [("L01/V1/40", sample_record "V1" 40 0.2)].

End TemporalSpec.

(** ** The orchestrator, in the words of the design *)

Module SessionSpec.


(** The prior result set of an ApplyFilters call: the result set of the
    state the request names, empty if there is none. *)
Definition prior_results (request : ChatFilter) (w : World) : Results :=
  match (if redis_up w then redis w !! cache_key (cf_state_id request)
         else None) with
  | Some c => results c
  | None => RRecords []
  end.

Definition prior_temporal (request : ChatFilter) (w : World) : bool :=
  match (if redis_up w then redis w !! cache_key (cf_state_id request)
         else None) with
  | Some c => temporal c
  | None => false
  end.

(** The state handle made from a draw of the random source, and the
    handle of the [i]-th draw. *)
Definition handle (n : N) : string := String.append "0x" (token_hex 6 n).

Definition handle_drawn (w : World) (i : nat) : string :=
  handle (entropy w i).

(** The world after a state was stored under the next handle. *)
Definition stored_under_next (value : Cached) (w : World) : World :=
  mkWorld (redis_up w)
    (if redis_up w
     then <[cache_key (Some (handle_drawn w (drawn w))) := value]> (redis w)
     else redis w)
    (entropy w) (S (drawn w)).

(** From [w] to [w'] the random source is the same, only read further,
    and the cache is unchanged at every key that is not the key of a
    handle drawn in between. *)
Definition fresh_writes (w w' : World) : Prop :=
  entropy w' = entropy w
  ∧ redis_up w' = redis_up w
  ∧ (drawn w ≤ drawn w')%nat
  ∧ ∀ key,
      (∀ i, (drawn w ≤ i < drawn w')%nat →
            key ≠ cache_key (Some (handle_drawn w i))) →
      redis w' !! key = redis w !! key.

Definition FreshWrites {A} (m : Svc A) : Prop :=
  ∀ w, fresh_writes w (m w).2.

End SessionSpec.

(** The same request with the translation switched off. *)
Definition without_translation (request : SearchText) : SearchText :=
  mkSearchText (st_text request) (st_mode request) (st_collection request)
    (st_state_id request) (st_top_k request) false.

Definition without_translation_temporal (request : SearchTemporal)
  : SearchTemporal :=
  mkSearchTemporal (tp_collection request) (tp_now request)
    (tp_before request) (tp_after request) (tp_time_interval request) false.

(** The texts that a temporal search hands to the translation step. *)
Definition event_texts (ev : option TemporalEvent) : list string :=
  match ev with
  | Some e => if falsy (ev_text e) then [] else [default "" (ev_text e)]
  | None => []
  end.

Definition temporal_texts (request : SearchTemporal) : list string :=
  event_texts (tp_now request) ++ event_texts (tp_before request)
  ++ event_texts (tp_after request).

(** The operations of the service and of the chat router that read or
    write session states. *)
Inductive Operation : Type :=
| TextSearch (request : SearchText)
| VisualSearch (collection : option string) (mode : Mode)
    (text : option string) (base64_images : list string)
| RelevanceFeedback (request : SearchFeedback)
| TemporalSearch (request : SearchTemporal)
| ChangeClusteringMode (state_id : string) (new_mode : Mode)
| ApplyFilters (request : ChatFilter)
| RestoreState (mode : Mode) (state_id : string).

Section run.
Variable cfg : Config.
Variable milvus : MilvusPayload → ApiOutcome MilvusHit.
Variable elastic : ElasticPayload → ApiOutcome ElasticHit.
Variable translator : string → option string.

(** The world an operation leaves behind, whether it answers or
    raises. *)
Definition world_after (op : Operation) (w : World) : World :=
  match op with
  | TextSearch request => (text_search cfg milvus translator request w).2
  | VisualSearch collection mode text base64_images =>
      (visual_search cfg milvus collection mode text base64_images w).2
  | RelevanceFeedback request => (relevance_feedback cfg milvus request w).2
  | TemporalSearch request =>
      (visual_temporal_search cfg milvus elastic translator request w).2
  | ChangeClusteringMode state_id new_mode =>
      (change_clustering_mode cfg state_id new_mode w).2
  | ApplyFilters request => (filter_chat cfg elastic request w).2
  | RestoreState mode state_id => (restore_chat cfg mode state_id w).2
  end.
End run.

(** Sample worlds and collaborators. *)

(** A reachable, empty cache; every draw of the random source gives 0. *)
Definition empty_world : World := mkWorld true ∅ (λ _, 0%N) 0.

Definition sample_config : Config :=
  mkConfig "keyframes" (Some "frames") (Some "clip") [] 1024
    (Some "http://translate").

(** A lexical back end that is down, and one that gives one hit. *)
Definition elastic_down (_ : ElasticPayload) : ApiOutcome ElasticHit :=
  ApiRequestFailed.

Definition elastic_one_hit (_ : ElasticPayload) : ApiOutcome ElasticHit :=
  ApiOk [mkElasticHit "L01/V1/1" "http://video" 3 2].

(** A vector back end that knows one frame for the query "a" and none
    for any other query. *)
Definition milvus_sample (p : MilvusPayload) : ApiOutcome MilvusHit :=
  if decide (query_text p = Some ["a"])
  then ApiOk [("L01/V1/1", 0.5, "http://video", 3)]
  else ApiOk [].

Definition translator_down (_ : string) : option string := None.

(** A service started without [TRANSLATION_ENDPOINT]. *)
Definition no_endpoint_config : Config :=
  mkConfig "keyframes" (Some "frames") (Some "clip") [] 1024 None.

Definition translated_search_request : SearchText :=
  mkSearchText "a" MOMENT None None None true.


(** ** More of the service: deleting a state, related images *)

(** [redis_client.delete] through [delete_cached_result]: whether a key
    was removed; [False] without a connection. The client catches its own
    errors, so the [CacheError] of [delete_cached_result] is never
    raised. *)
Definition delete_cached_result (state_id : string) : Svc bool :=
  λ w,
    if redis_up w then
      (Ok (bool_decide (is_Some (redis w !! cache_key (Some state_id)))),
       mkWorld (redis_up w) (delete (cache_key (Some state_id)) (redis w))
         (entropy w) (drawn w))
    else (Ok false, w).

(** [models/base.py]: the answer of [related_search]. *)
Record Related : Type := mkRelated {
  rel_status : string;
  rel_mode : option string;
  rel_results : list Cluster.t;
  rel_display_name : string
}.

Record TimelineHit : Type := mkTimelineHit {
  tl_id : string;
  tl_url : string;
  tl_time_in_seconds : float
}.

Record TimelinePayload : Type := mkTimelinePayload {
  tl_index_name : option string;
  tl_frame_id : string;
  tl_time_difference : Z
}.

Section related.
Variable cfg : Config.
Variable milvus : MilvusPayload → ApiOutcome MilvusHit.
Variable timeline : TimelinePayload → ApiOutcome TimelineHit.

Definition timeline_cluster (result : TimelineHit) : res Cluster.t :=
  '(video_id, frame_id) ← split3 (tl_id result);
  Ok (Cluster.mk (Some MOMENT) video_id
        [Image.mk (tl_id result) (KEYFRAMES_DIR cfg) (tl_id result)
           (tl_time_in_seconds result) 1]
        (tl_url result)).

(** No [try] here: a failure of the request and an unreadable answer
    both raise. *)
Definition _timeline_search (image_id : string) : res (list Cluster.t) :=
  match timeline
          (mkTimelinePayload (ELASTIC_INDEX_NAME cfg) image_id 60) with
  | ApiOk elastic_results => mapM timeline_cluster elastic_results
  | ApiRequestFailed => Raise APIRequestError
  | ApiMalformed => Raise AttributeError
  end.

Definition _single_similar_search (image_id : string)
    (collection : option string) : res ResultSet :=
  match milvus
          (mkMilvusPayload collection (Some (default_top_k cfg)) None None
             (Some [image_id]) (Some [1])) with
  | ApiOk [] => Ok []
  | ApiOk milvus_results => _format_milvus_result cfg milvus_results
  | ApiRequestFailed => Raise APIRequestError
  | ApiMalformed => Raise AttributeError
  end.

Definition _ensemble_similar_search (image_id : string) : res ResultSet :=
  match ENSEMBLE_COLLECTIONS cfg with
  | [] => Ok []
  | collections =>
      results ← mapM (λ c, _single_similar_search image_id (Some c))
        collections;
      RRFFusion.fuse fusion results
  end.

(** The feedback arguments that [related_search] passes on are not
    used. *)
Definition _similar_search (image_id : string) (collection : option string)
  : res (list Cluster.t) :=
  result_dict ←
    (if decide (collection = Some "ensemble")
     then _ensemble_similar_search image_id
     else _single_similar_search image_id collection);
  match result_dict with
  | [] => Ok []
  | _ => process_results cfg (RRecords result_dict) (Some MOMENT) false
  end.

Definition related_display_name (image_id mode : string) : string :=
  String.append "Related to "
    (String.append image_id
       (String.append " (" (String.append mode ")"))).

Definition related_search (mode image_id : string)
    (collection : option string) : res Related :=
  if decide (image_id = "") then Raise ValueError
  else if decide (mode = "timeline" ∨ mode = "similar") then
    let clusters :=
      match (if decide (mode = "timeline") then _timeline_search image_id
             else _similar_search image_id collection) with
      | Ok clusters => clusters
      | Raise _ => []
      end in
    Ok (mkRelated "success" (Some mode) clusters
          (related_display_name image_id mode))
  else Raise ValueError.

End related.

(** A vector back end that is down, and a timeline back end with one
    neighbouring frame. *)
Definition milvus_down (_ : MilvusPayload) : ApiOutcome MilvusHit :=
  ApiRequestFailed.

Definition timeline_sample (_ : TimelinePayload) : ApiOutcome TimelineHit :=
  ApiOk [mkTimelineHit "L01/V1/2" "http://video" 4].

(** ** The shape of the stored states

    Only a temporal search stores the translated texts with its state, and
    it stores them with the temporal flag set and with a mapping of
    temporal records as results. *)
Definition state_shape_ok (c : Cached) : Prop :=
  is_Some (translated_texts c) →
  temporal c = true ∧ ∃ d, results c = RTemporal d.

Definition cache_shapes_ok (w : World) : Prop :=
  ∀ key c, redis w !! key = Some c → state_shape_ok c.

(** An operation keeps the shape of the stored states, and [post] holds
    of what it answers. *)
Definition KeepsShapes {A} (post : A → Prop) (m : Svc A) : Prop :=
  ∀ w, cache_shapes_ok w →
    cache_shapes_ok (m w).2 ∧ ∀ a, (m w).1 = Ok a → post a.

(** The world after a visual search for "a" from the empty cache: one
    state is stored, under the handle [0x000000000000]. *)
Definition sample_stored_world : World :=
  (visual_search sample_config milvus_sample None MOMENT (Some "a") []
     empty_world).2.

(** The state of that world, and a text search that names it. *)
Definition sample_stored_state : Cached :=
  mkCached false
    (RRecords
       [("L01/V1/1",
         mkRecord 0.5 "http://video" "keyframes" "V1" "1" 3)])
    None.

Definition sample_resume_request : SearchText :=
  mkSearchText "b" MOMENT None (Some "0x000000000000") None false.

(** A reachable, empty cache whose random source counts: the [i]-th
    draw gives [i]. The world after a temporal search for "a" from it has
    one temporal state, under the handle [0x000000000001]. *)
Definition counting_world : World := mkWorld true ∅ (λ i, N.of_nat i) 0.

Definition sample_temporal_request : SearchTemporal :=
  mkSearchTemporal None (Some (mkEvent (Some "a") None None)) None None
    (Some 5%Z) false.

Definition sample_temporal_world : World :=
  (visual_temporal_search sample_config milvus_sample elastic_down
     translator_down sample_temporal_request counting_world).2.

(** A translator that answers "a" to every text, a temporal search that
    asks for translation, and the world after it: its one state, under the
    handle [0x000000000001], has the translated text. *)
Definition translator_a (_ : string) : option string := Some "a".

Definition sample_translated_request : SearchTemporal :=
  mkSearchTemporal None (Some (mkEvent (Some "mot") None None)) None None
    (Some 5%Z) true.

Definition sample_translated_world : World :=
  (visual_temporal_search sample_config milvus_sample elastic_down
     translator_a sample_translated_request counting_world).2.

Definition sample_temporal_filter : ChatFilter :=
  mkChatFilter (Some MOMENT) (Some "0x000000000001")
    (mkFilters ["bridge"] [] []) (Some 10%Z).


(** * Properties *)

(** * Properties *)

(** ** Dictionaries *)

Section dict_facts.
Context {V : Type}.
Implicit Types (d : dict V) (k : string) (v : V).

Lemma dict_get_set k k' v d :
  dict_get k' (dict_set k v d) = if decide (k = k') then Some v else dict_get k' d.
Proof.
  induction d as [|[k1 v1] d IH]; simpl.
  - repeat case_decide; congruence.
  - destruct (decide (k1 = k)) as [->|Hne]; simpl;
      repeat case_decide; try congruence.
Qed.

Lemma dict_get_None k d : dict_get k d = None ↔ k ∉ d.*1.
Proof.
  induction d as [|[k1 v1] d IH]; simpl.
  - split; [intros _; apply not_elem_of_nil | done].
  - rewrite not_elem_of_cons. case_decide; subst.
    + split; [done | intros [? _]; done].
    + rewrite IH. naive_solver.
Qed.

Lemma dict_get_is_Some k d : is_Some (dict_get k d) ↔ k ∈ d.*1.
Proof.
  rewrite <-not_eq_None_Some, dict_get_None.
  destruct (decide (k ∈ d.*1)); naive_solver.
Qed.

Lemma dict_get_Some_elem k v d : dict_get k d = Some v → (k, v) ∈ d.
Proof.
  induction d as [|[k1 v1] d IH]; simpl; [done|].
  case_decide; subst.
  - intros [= ->]. left.
  - intros ?. right. auto.
Qed.

Lemma dict_get_elem_wf k v d : dict_wf d → (k, v) ∈ d → dict_get k d = Some v.
Proof.
  unfold dict_wf. induction d as [|[k1 v1] d IH]; simpl.
  - intros _ H. by apply elem_of_nil in H.
  - rewrite NoDup_cons. intros [Hk1 Hnd] [[= <- <-]|Hin]%elem_of_cons.
    + by rewrite decide_True.
    + rewrite decide_False; [auto|].
      intros ->. apply Hk1. apply list_elem_of_fmap. by exists (k, v).
Qed.

Lemma dict_set_absent k v d : k ∉ d.*1 → dict_set k v d = d ++ [(k, v)].
Proof.
  induction d as [|[k1 v1] d IH]; simpl; [done|].
  rewrite not_elem_of_cons. intros [Hne Hk].
  rewrite decide_False by done. by rewrite IH.
Qed.

Lemma dict_set_present_keys k v d : k ∈ d.*1 → (dict_set k v d).*1 = d.*1.
Proof.
  induction d as [|[k1 v1] d IH]; simpl.
  - intros H. by apply elem_of_nil in H.
  - intros Hin. case_decide; simpl; [done|].
    f_equal. apply IH. apply elem_of_cons in Hin as [->|]; done.
Qed.

Lemma dict_set_keys k v d :
  (dict_set k v d).*1 = if decide (k ∈ d.*1) then d.*1 else d.*1 ++ [k].
Proof.
  case_decide.
  - by apply dict_set_present_keys.
  - rewrite dict_set_absent by done. by rewrite fmap_app.
Qed.

Lemma dict_set_wf k v d : dict_wf d → dict_wf (dict_set k v d).
Proof.
  unfold dict_wf. intros Hwf. rewrite dict_set_keys. case_decide; [done|].
  apply NoDup_app. split_and!; [done| |apply NoDup_singleton].
  intros x Hx ->%list_elem_of_singleton. done.
Qed.

Lemma dict_set_elem_keys k k' v d :
  k' ∈ (dict_set k v d).*1 ↔ k' = k ∨ k' ∈ d.*1.
Proof.
  rewrite dict_set_keys. case_decide.
  - naive_solver.
  - rewrite elem_of_app, list_elem_of_singleton. naive_solver.
Qed.

Lemma dict_update_wf d d' : dict_wf d → dict_wf (dict_update d d').
Proof.
  unfold dict_update. revert d.
  induction d' as [|[k1 v1] d' IH]; intros d Hwf; simpl; [done|].
  apply IH. by apply dict_set_wf.
Qed.

Lemma dict_update_get k d d' :
  dict_wf d' →
  dict_get k (dict_update d d')
  = match dict_get k d' with Some v => Some v | None => dict_get k d end.
Proof.
  unfold dict_update, dict_wf. revert d.
  induction d' as [|[k1 v1] d' IH]; intros d Hwf; simpl; [done|].
  apply NoDup_cons in Hwf as [Hk1 Hwf].
  rewrite IH by done. rewrite dict_get_set. simpl.
  case_decide; subst; [|done].
  apply (dict_get_None k d') in Hk1. by rewrite Hk1.
Qed.

Lemma dict_update_keys k d d' :
  k ∈ (dict_update d d').*1 ↔ k ∈ d.*1 ∨ k ∈ d'.*1.
Proof.
  unfold dict_update. revert d.
  induction d' as [|[k1 v1] d' IH]; intros d; simpl.
  - rewrite elem_of_nil. naive_solver.
  - rewrite IH, dict_set_elem_keys, elem_of_cons. naive_solver.
Qed.

Lemma dict_update_fresh d d' : NoDup (d ++ d').*1 → dict_update d d' = d ++ d'.
Proof.
  unfold dict_update. revert d.
  induction d' as [|[k1 v1] d' IH]; intros d Hnd; simpl.
  - by rewrite app_nil_r.
  - rewrite dict_set_absent.
    + rewrite IH; rewrite <-app_assoc; done.
    + rewrite fmap_app in Hnd. apply NoDup_app in Hnd as (_ & Hd & _).
      intros Hin. apply (Hd _ Hin). simpl. left.
Qed.

Lemma dict_of_items_wf (items : list (string * V)) :
  dict_wf items → dict_of_items items = items.
Proof. intros Hwf. unfold dict_of_items. by rewrite dict_update_fresh. Qed.

End dict_facts.

(** ** Floats *)

Ltac cmp_cases :=
  repeat match goal with
    | |- context [Z.compare ?a ?b] => destruct (Z.compare_spec a b)
    | H : context [Z.compare ?a ?b] |- _ => destruct (Z.compare_spec a b)
    | |- context [Pos.compare_cont Eq ?a ?b] =>
        change (Pos.compare_cont Eq a b) with (Pos.compare a b);
        destruct (Pos.compare_spec a b)
    | H : context [Pos.compare_cont Eq ?a ?b] |- _ =>
        change (Pos.compare_cont Eq a b) with (Pos.compare a b) in H;
        destruct (Pos.compare_spec a b)
    end.

Lemma SFcompare_negative_transitive (a b c : spec_float) :
  b ≠ S754_nan →
  SFcompare a c = Some Lt →
  SFcompare a b = Some Lt ∨ SFcompare b c = Some Lt.
Proof.
  intros Hb.
  destruct a as [[]|[]| |[] ma ea], b as [[]|[]| |[] mb eb],
    c as [[]|[]| |[] mc ec]; simpl; try done; auto;
    cmp_cases; simpl; subst; try done; auto; try lia.
Qed.

Lemma SFcompare_Eq_cases (a b : spec_float) :
  SFcompare a b = Some Eq →
  a = b ∨ ∃ s s', a = S754_zero s ∧ b = S754_zero s'.
Proof.
  destruct a as [[]|[]| |[] ma ea], b as [[]|[]| |[] mb eb];
    simpl; try done; auto; try (by right; eauto);
    cmp_cases; simpl; subst; try done; auto.
Qed.

Lemma SFcompare_zero_l (s s' : bool) (b : spec_float) :
  SFcompare (S754_zero s) b = SFcompare (S754_zero s') b.
Proof. by destruct b. Qed.

Lemma SFcompare_zero_r (s s' : bool) (b : spec_float) :
  SFcompare b (S754_zero s) = SFcompare b (S754_zero s').
Proof. by destruct b. Qed.

Lemma SFcompare_refl (a : spec_float) :
  a ≠ S754_nan → SFcompare a a = Some Eq.
Proof.
  destruct a as [[]|[]| |[] ma ea]; simpl; try done;
    rewrite Z.compare_refl;
    change (Pos.compare_cont Eq ma ma) with (Pos.compare ma ma);
    by rewrite Pos.compare_refl.
Qed.

Lemma SFcompare_Lt_asym (a b : spec_float) :
  SFcompare a b = Some Lt → SFcompare b a = Some Gt.
Proof.
  destruct a as [[]|[]| |[] ma ea], b as [[]|[]| |[] mb eb];
    simpl; try done;
    cmp_cases; simpl; subst; try done; try lia.
Qed.

Lemma flt_compare (x y : float) :
  flt x y ↔ SFcompare (Prim2SF x) (Prim2SF y) = Some Lt.
Proof.
  unfold flt. rewrite ltb_spec. unfold SFltb.
  destruct (SFcompare _ _) as [[]|]; naive_solver.
Qed.

Lemma feq_compare (x y : float) :
  feq x y ↔ SFcompare (Prim2SF x) (Prim2SF y) = Some Eq.
Proof.
  unfold feq. rewrite FloatAxioms.eqb_spec. unfold SFeqb.
  destruct (SFcompare _ _) as [[]|]; naive_solver.
Qed.

Lemma fle_compare (x y : float) :
  fle x y ↔ SFcompare (Prim2SF x) (Prim2SF y) = Some Lt
            ∨ SFcompare (Prim2SF x) (Prim2SF y) = Some Eq.
Proof.
  unfold fle. rewrite leb_spec. unfold SFleb.
  destruct (SFcompare _ _) as [[]|]; split; auto; try done;
    intros [|]; done.
Qed.

Lemma is_number_spec (x : float) : is_number x ↔ Prim2SF x ≠ S754_nan.
Proof.
  change (is_number x) with (feq x x). rewrite feq_compare. split.
  - intros H Hn. by rewrite Hn in H.
  - apply SFcompare_refl.
Qed.

Lemma flt_asym (x y : float) : flt x y → ¬ flt y x.
Proof.
  rewrite !flt_compare. intros H%SFcompare_Lt_asym. congruence.
Qed.

Lemma flt_irrefl (x : float) : ¬ flt x x.
Proof. intros H. exact (flt_asym _ _ H H). Qed.

Lemma flt_negative_transitive (x y z : float) :
  is_number y → flt x z → flt x y ∨ flt y z.
Proof.
  rewrite is_number_spec, !flt_compare.
  apply SFcompare_negative_transitive.
Qed.

Lemma flt_is_number_l (x y : float) : flt x y → is_number x.
Proof.
  rewrite is_number_spec, flt_compare. intros H Hn. by rewrite Hn in H.
Qed.

Lemma flt_is_number_r (x y : float) : flt x y → is_number y.
Proof.
  rewrite is_number_spec, flt_compare. intros H Hn. rewrite Hn in H.
  by destruct (Prim2SF x).
Qed.

Lemma flt_trans (x y z : float) : flt x y → flt y z → flt x z.
Proof.
  intros Hxy Hyz.
  destruct (flt_negative_transitive x z y) as [H|H]; [|done|done|].
  - by eapply flt_is_number_r.
  - by apply flt_asym in H.
Qed.

Lemma fle_not_flt (x y : float) : fle x y → ¬ flt y x.
Proof.
  rewrite fle_compare, flt_compare.
  intros [H%SFcompare_Lt_asym|H] H'; [congruence|].
  apply SFcompare_Eq_cases in H as [H|(s & s' & H1 & H2)].
  - rewrite H in H'.
    rewrite SFcompare_refl in H'; [done|].
    intros Hn. by rewrite Hn in H'.
  - by rewrite H1, H2 in H'.
Qed.

Lemma feq_flt_l (x x' y : float) : feq x x' → (x <? y) = (x' <? y).
Proof.
  rewrite feq_compare, !ltb_spec. unfold SFltb.
  intros [->|(s & s' & -> & ->)]%SFcompare_Eq_cases; [done|].
  by rewrite (SFcompare_zero_l s s').
Qed.

Lemma feq_flt_r (x y y' : float) : feq y y' → (x <? y) = (x <? y').
Proof.
  rewrite feq_compare, !ltb_spec. unfold SFltb.
  intros [->|(s & s' & -> & ->)]%SFcompare_Eq_cases; [done|].
  by rewrite (SFcompare_zero_r s s').
Qed.

Lemma feq_feq_l (x x' c : float) : feq x x' → (x =? c) = (x' =? c).
Proof.
  rewrite feq_compare, !FloatAxioms.eqb_spec. unfold SFeqb.
  intros [->|(s & s' & -> & ->)]%SFcompare_Eq_cases; [done|].
  by rewrite (SFcompare_zero_l s s').
Qed.

Lemma feq_not_flt (x y : float) : feq x y → ¬ flt x y.
Proof. rewrite feq_compare, flt_compare. congruence. Qed.

Lemma feq_sym (x y : float) : feq x y → feq y x.
Proof.
  rewrite !feq_compare.
  intros H. destruct (SFcompare_Eq_cases _ _ H) as [Heq|(s & s' & H1 & H2)].
  - rewrite Heq in H |- *. exact H.
  - by rewrite H1, H2.
Qed.

Lemma feq_trans (x y z : float) : feq x y → feq y z → feq x z.
Proof.
  intros Hxy Hyz. unfold feq. rewrite (feq_feq_l x y z Hxy). exact Hyz.
Qed.

Lemma feq_is_number_l (x y : float) : feq x y → is_number x.
Proof.
  rewrite is_number_spec, feq_compare. intros H Hn. by rewrite Hn in H.
Qed.

(** *** Arithmetic with 0 and 1 *)

Lemma finite_cases (x : float) :
  finite x →
  (∃ s, Prim2SF x = S754_zero s) ∨ (∃ s m e, Prim2SF x = S754_finite s m e).
Proof.
  unfold finite, is_finite, is_nan, is_infinity.
  rewrite !FloatAxioms.eqb_spec, abs_spec.
  destruct (Prim2SF x) as [s|s| |s m e]; eauto.
  - by destruct s.
  - done.
Qed.

Lemma Prim2SF_one : Prim2SF 1 = S754_finite false 4503599627370496 (-52).
Proof. reflexivity. Qed.

Lemma Prim2SF_zero : Prim2SF 0 = S754_zero false.
Proof. reflexivity. Qed.

Lemma digits2_pos_iter (n p : positive) :
  Zpos (digits2_pos (Pos.iter xO p n)) = (Zpos (digits2_pos p) + Zpos n)%Z.
Proof.
  induction n as [|n IH] using Pos.peano_ind.
  - simpl. lia.
  - rewrite Pos.iter_succ. cbn [digits2_pos]. lia.
Qed.

Lemma mul_shift (m : positive) :
  (4503599627370496 * m)%positive = Pos.iter xO m 52.
Proof. reflexivity. Qed.

Lemma digits2_pos_shift (m : positive) :
  Zpos (digits2_pos (4503599627370496 * m)) = (Zpos (digits2_pos m) + 52)%Z.
Proof. rewrite mul_shift. apply digits2_pos_iter. Qed.

Lemma shr_shift (m : positive) :
  SpecFloat.iter_pos shr_1 52
    (Build_shr_record (Zpos (4503599627370496 * m)) false false)
  = Build_shr_record (Zpos m) false false.
Proof. reflexivity. Qed.

Lemma SFmul_one (a : spec_float) :
  valid_binary a = true →
  SF64mul (S754_finite false 4503599627370496 (-52)) a = a.
Proof.
  destruct a as [s|s| |s m e]; try done.
  intros [Hc He]%andb_prop.
  unfold canonical_mantissa in Hc. apply Z.eqb_eq in Hc.
  unfold SF64mul, SFmul, binary_round_aux, shr_fexp.
  cbn [xorb Zdigits2 shr_record_of_loc].
  rewrite digits2_pos_shift.
  replace (Z.pos (digits2_pos m) + 52 + (-52 + e))%Z
    with (Z.pos (digits2_pos m) + e)%Z by lia.
  rewrite Hc.
  replace (e - (-52 + e))%Z with 52%Z by lia.
  change (shr {| shr_m := Z.pos (4503599627370496 * m);
                 shr_r := false; shr_s := false |} (-52 + e) 52)
    with (SpecFloat.iter_pos shr_1 52
            {| shr_m := Z.pos (4503599627370496 * m);
               shr_r := false; shr_s := false |}, (-52 + e + 52)%Z).
  rewrite shr_shift.
  cbn [loc_of_shr_record shr_m round_nearest_even Zdigits2
       shr_record_of_loc].
  replace (-52 + e + 52)%Z with e by lia.
  rewrite Hc, Z.sub_diag. cbn [shr shr_m].
  by rewrite He.
Qed.

Lemma mul_one_l (x : float) : 1 * x = x.
Proof.
  apply Prim2SF_inj. rewrite mul_spec, Prim2SF_one.
  apply SFmul_one, Prim2SF_valid.
Qed.

(** A zero of either sign. *)
Lemma zero_mul_finite (z x : float) :
  feq z 0 → finite x → feq (z * x) 0.
Proof.
  rewrite !feq_compare, mul_spec, Prim2SF_zero.
  intros Hz [[s Hx]|(s & m & e & Hx)]%finite_cases; rewrite Hx;
    destruct (Prim2SF z) as [sz|sz| |sz mz ez]; try done;
    by destruct sz.
Qed.

Lemma add_zero_r (x z : float) :
  is_number x → feq z 0 → feq (x + z) x.
Proof.
  rewrite is_number_spec, !feq_compare, add_spec, Prim2SF_zero.
  intros Hx Hz.
  destruct (Prim2SF z) as [sz|[]| |[] mz ez]; try done.
  destruct (Prim2SF x) as [s|s| |s m e]; try done.
  - by destruct s, sz.
  - by destruct s.
  - by apply (SFcompare_refl (S754_finite s m e)).
Qed.

Lemma add_zero_l (x z : float) :
  is_number x → feq z 0 → feq (z + x) x.
Proof.
  rewrite is_number_spec, !feq_compare, add_spec, Prim2SF_zero.
  intros Hx Hz.
  destruct (Prim2SF z) as [sz|[]| |[] mz ez]; try done.
  destruct (Prim2SF x) as [s|s| |s m e]; try done.
  - by destruct s, sz.
  - by destruct s.
  - by apply (SFcompare_refl (S754_finite s m e)).
Qed.

Lemma finite_is_number (x : float) : finite x → is_number x.
Proof.
  rewrite is_number_spec.
  intros [[s Hx]|(s & m & e & Hx)]%finite_cases; by rewrite Hx.
Qed.

(** *** Trichotomy *)

Lemma SFcompare_Gt_Lt (a b : spec_float) :
  SFcompare a b = Some Gt → SFcompare b a = Some Lt.
Proof.
  destruct a as [[]|[]| |[] ma ea], b as [[]|[]| |[] mb eb];
    simpl; try done;
    cmp_cases; simpl; subst; try done; try lia.
Qed.

Lemma SFcompare_total (a b : spec_float) :
  a ≠ S754_nan → b ≠ S754_nan → is_Some (SFcompare a b).
Proof.
  destruct a as [[]|[]| |[] ma ea], b as [[]|[]| |[] mb eb];
    simpl; try done; eauto.
Qed.

Lemma float_trichotomy (x y : float) :
  is_number x → is_number y → ¬ flt x y → ¬ flt y x → feq x y.
Proof.
  rewrite !is_number_spec, !flt_compare, feq_compare.
  intros Hx Hy Hxy Hyx.
  destruct (SFcompare_total _ _ Hx Hy) as [[| |] Hc]; [done|done|].
  by apply SFcompare_Gt_Lt in Hc.
Qed.

(** ** The stable descending sort *)

Section sort_facts.
Context {A : Type} (key : A → float).
Implicit Types (x y : A) (l : list A).

Local Abbreviation desc := (desc key).

Lemma insert_desc_perm x l : insert_desc key x l ≡ₚ x :: l.
Proof.
  induction l as [|y l IH]; simpl; [done|].
  destruct (key x <? key y); [|done]. rewrite IH. apply Permutation_swap.
Qed.

Lemma sorted_reverse_perm l : sorted_reverse key l ≡ₚ l.
Proof.
  induction l as [|x l IH]; simpl; [done|].
  by rewrite insert_desc_perm, IH.
Qed.

Lemma sorted_reverse_elem x l : x ∈ sorted_reverse key l ↔ x ∈ l.
Proof. by rewrite sorted_reverse_perm. Qed.

(** On keys that are numbers the result is in descending order. *)
Lemma insert_desc_sorted x l :
  Forall (λ y, is_number (key y)) l →
  StronglySorted desc l → StronglySorted desc (insert_desc key x l).
Proof.
  intros Hnum. induction 1 as [|y l Hl IH Hy]; simpl.
  - repeat constructor.
  - apply Forall_cons in Hnum as [Hny Hnum].
    destruct (key x <? key y) eqn:Hlt.
    + constructor; [by apply IH|].
      rewrite insert_desc_perm. constructor; [|done].
      unfold desc. by apply flt_asym.
    + constructor; [by constructor|].
      assert (¬ flt (key x) (key y)) as Hxy.
      { unfold flt. by rewrite Hlt. }
      constructor; [done|].
      eapply Forall_impl; [exact Hy|]. unfold desc. intros z Hz Hxz.
      by destruct (flt_negative_transitive _ (key y) _ Hny Hxz).
Qed.

Lemma sorted_reverse_sorted l :
  Forall (λ y, is_number (key y)) l →
  StronglySorted desc (sorted_reverse key l).
Proof.
  induction 1 as [|x l Hx Hl IH]; simpl; [constructor|].
  apply insert_desc_sorted; [|done].
  apply Forall_forall. intros y Hy. rewrite sorted_reverse_elem in Hy.
  exact (proj1 (Forall_forall _ _) Hl y Hy).
Qed.

(** Stability: the elements whose keys equal one number keep their
    order. *)
Lemma insert_desc_stable (c : float) x l :
  filter (λ y, feq (key y) c) (insert_desc key x l)
  = filter (λ y, feq (key y) c) (x :: l).
Proof.
  induction l as [|y l IH]; simpl; [done|].
  destruct (key x <? key y) eqn:Hlt; [|done].
  rewrite !filter_cons in *. rewrite IH.
  destruct (decide (feq (key x) c)) as [Hx|Hx],
    (decide (feq (key y) c)) as [Hy|Hy]; try done.
  exfalso. apply (feq_not_flt (key x) (key y)); [|done].
  eapply feq_trans; [exact Hx|]. by apply feq_sym.
Qed.

Lemma sorted_reverse_stable (c : float) l :
  filter (λ y, feq (key y) c) (sorted_reverse key l)
  = filter (λ y, feq (key y) c) l.
Proof.
  induction l as [|x l IH]; simpl; [done|].
  rewrite insert_desc_stable, !filter_cons, IH. done.
Qed.

(** A list that is already in descending order is left as it is. *)
Lemma sorted_reverse_id l : StronglySorted desc l → sorted_reverse key l = l.
Proof.
  induction 1 as [|x l Hl IH Hx]; simpl; [done|].
  rewrite IH. destruct l as [|y l]; simpl; [done|].
  apply Forall_cons in Hx as [Hy _]. unfold Py.desc, flt in Hy.
  by destruct (key x <? key y).
Qed.

(** A permutation in descending order that keeps the order within every
    class of equal keys is the only one. *)
Lemma stable_sorted_unique l l' :
  Forall (λ y, is_number (key y)) l →
  l ≡ₚ l' →
  StronglySorted desc l → StronglySorted desc l' →
  (∀ c, filter (λ y, feq (key y) c) l = filter (λ y, feq (key y) c) l') →
  l = l'.
Proof.
  intros Hnum Hp Hs. revert l' Hp.
  induction Hs as [|x l Hl IH Hx]; intros l' Hp Hs' Hst.
  - by apply Permutation_nil_l in Hp.
  - apply Forall_cons in Hnum as [Hnx Hnum].
    destruct l' as [|x' l'].
    { by apply Permutation_nil_r in Hp. }
    apply StronglySorted_inv in Hs' as [Hl' Hx'].
    assert (is_number (key x')) as Hnx'.
    { assert (x' ∈ x :: l) as Hin by (rewrite Hp; left).
      apply elem_of_cons in Hin as [->|Hin]; [done|].
      by eapply Forall_forall in Hnum. }
    assert (feq (key x) (key x')) as Heq.
    { apply float_trichotomy; [done|done| |].
      - assert (x' ∈ x :: l) as Hin by (rewrite Hp; left).
        apply elem_of_cons in Hin as [->|Hin]; [apply flt_irrefl|].
        by eapply Forall_forall in Hx.
      - assert (x ∈ x' :: l') as Hin by (rewrite <-Hp; left).
        apply elem_of_cons in Hin as [->|Hin]; [apply flt_irrefl|].
        by eapply Forall_forall in Hx'. }
    assert (x = x') as <-.
    { specialize (Hst (key x')). rewrite !filter_cons in Hst.
      rewrite decide_True in Hst by done.
      rewrite (decide_True (P := feq (key x') (key x'))) in Hst by done.
      congruence. }
    f_equal. apply IH; [done|by eapply Permutation_cons_inv|done|].
    intros c. specialize (Hst c). rewrite !filter_cons in Hst.
    destruct (decide (feq (key x) c)); congruence.
Qed.

End sort_facts.

(** Sorting commutes with a map that respects the keys. *)
Lemma insert_desc_fmap {A B} (f : A → B) (key : A → float)
    (key' : B → float) x l :
  key x = key' (f x) → Forall (λ y, key y = key' (f y)) l →
  f <$> insert_desc key x l = insert_desc key' (f x) (f <$> l).
Proof.
  intros Hx. induction 1 as [|y l Hy Hl IH]; simpl; [done|].
  rewrite <-Hx, <-Hy. destruct (key x <? key y); simpl; [|done].
  f_equal. exact IH.
Qed.

Lemma sorted_reverse_fmap {A B} (f : A → B) (key : A → float)
    (key' : B → float) l :
  Forall (λ y, key y = key' (f y)) l →
  f <$> sorted_reverse key l = sorted_reverse key' (f <$> l).
Proof.
  induction 1 as [|x l Hx Hl IH]; [done|].
  change (f <$> insert_desc key x (sorted_reverse key l)
          = insert_desc key' (f x) (sorted_reverse key' (f <$> l))).
  rewrite <-IH. apply insert_desc_fmap; [done|].
  apply Forall_forall. intros y Hy%sorted_reverse_elem.
  by eapply Forall_forall in Hl.
Qed.

Lemma sorted_reverse_wf {V} (key : string * V → float) (d : dict V) :
  dict_wf d → dict_wf (sorted_reverse key d).
Proof. unfold dict_wf. intros Hwf. by rewrite sorted_reverse_perm. Qed.

Lemma dict_get_perm {V} (d d' : dict V) k :
  dict_wf d → d ≡ₚ d' → dict_get k d' = dict_get k d.
Proof.
  intros Hwf Hp.
  assert (dict_wf d') as Hwf' by (unfold dict_wf; by rewrite <-Hp).
  destruct (dict_get k d) as [v|] eqn:Hg.
  - apply dict_get_elem_wf; [done|]. rewrite <-Hp. by apply dict_get_Some_elem.
  - apply dict_get_None. rewrite <-Hp. by apply dict_get_None.
Qed.

(** ** Loops that update a dictionary key by key *)

Section dict_loops.
Context {I W : Type} (key : I → string) (g : option W → I → W).

Local Abbreviation upd_step := (upd_step key g).

Lemma foldl_upd_get items (acc : dict W) id :
  NoDup (key <$> items) →
  dict_get id (foldl upd_step acc items)
  = match list_find (λ it, key it = id) items with
    | Some p => Some (g (dict_get id acc) p.2)
    | None => dict_get id acc
    end.
Proof.
  revert acc. induction items as [|it items IH]; intros acc Hnd; [done|].
  rewrite fmap_cons in Hnd. apply NoDup_cons in Hnd as [Hit Hnd].
  cbn [foldl list_find]. rewrite IH by done.
  assert (dict_get id (Py.upd_step key g acc it)
          = if decide (key it = id)
            then Some (g (dict_get id acc) it) else dict_get id acc) as ->.
  { unfold Py.upd_step. rewrite dict_get_set. by case_decide; subst. }
  destruct (decide (key it = id)) as [<-|Hne]; simpl.
  - destruct (list_find _ items) as [[n it']|] eqn:Hf; [|done].
    apply list_find_Some in Hf as (Hin & Heq & _).
    exfalso. apply Hit. rewrite <-Heq.
    apply list_elem_of_fmap. exists it'. split; [done|].
    by eapply list_elem_of_lookup_2.
  - by destruct (list_find _ items) as [[n it']|].
Qed.

Lemma foldl_upd_keys items (acc : dict W) id :
  id ∈ (foldl upd_step acc items).*1 ↔ id ∈ acc.*1 ∨ id ∈ key <$> items.
Proof.
  revert acc. induction items as [|it items IH]; intros acc.
  - simpl. rewrite elem_of_nil. naive_solver.
  - cbn [foldl]. rewrite IH.
    assert (id ∈ (Py.upd_step key g acc it).*1 ↔ id = key it ∨ id ∈ acc.*1)
      as -> by apply dict_set_elem_keys.
    rewrite fmap_cons, elem_of_cons. naive_solver.
Qed.

Lemma foldl_upd_wf items (acc : dict W) :
  dict_wf acc → dict_wf (foldl upd_step acc items).
Proof.
  revert acc. induction items as [|it items IH]; intros acc Hwf; simpl;
    [done|].
  apply IH. by apply dict_set_wf.
Qed.

End dict_loops.

(** A loop that sets each key of a duplicate-free list once builds the
    dictionary in the order of the list. *)
Lemma foldl_set_fresh {W} (f : string → W) (ids : list string) (acc : dict W) :
  NoDup (acc.*1 ++ ids) →
  foldl (λ a id, dict_set id (f id) a) acc ids
  = acc ++ map (λ id, (id, f id)) ids.
Proof.
  revert acc. induction ids as [|id ids IH]; intros acc Hnd; simpl.
  - by rewrite app_nil_r.
  - assert (id ∉ acc.*1) as Hid.
    { apply NoDup_app in Hnd as (_ & Hd & _). intros Hin.
      apply (Hd _ Hin). left. }
    rewrite dict_set_absent by done. rewrite IH.
    + by rewrite <-app_assoc.
    + rewrite fmap_app. simpl. by rewrite <-app_assoc.
Qed.

Lemma dict_get_tabulate {W} (f : string → W) (ids : list string) id :
  dict_get id (map (λ id, (id, f id)) ids)
  = if decide (id ∈ ids) then Some (f id) else None.
Proof.
  induction ids as [|i ids IH]; cbn [map dict_get].
  - destruct (decide (id ∈ [])) as [H|]; [by apply elem_of_nil in H|done].
  - rewrite IH.
    destruct (decide (id ∈ i :: ids)) as [Hin|Hnin],
      (decide (i = id)) as [Heq|Hne].
    + by subst.
    + apply elem_of_cons in Hin as [->|Hin]; [done|]. by rewrite decide_True.
    + exfalso. apply Hnin. subst. left.
    + rewrite decide_False; [done|]. intros ?. apply Hnin. by right.
Qed.

Lemma tabulate_keys {W} (f : string → W) (ids : list string) :
  (map (λ id, (id, f id)) ids).*1 = ids.
Proof. induction ids as [|i ids IH]; simpl; [done|]. by f_equal. Qed.

Lemma foldl_pair {A B X} (f : A → X → A) (g : B → X → B) (xs : list X) a b :
  foldl (λ (acc : A * B) x, (f acc.1 x, g acc.2 x)) (a, b) xs
  = (foldl f a xs, foldl g b xs).
Proof. revert a b. induction xs as [|x xs IH]; intros a b; simpl; [done|]. apply IH. Qed.

Lemma dict_get_list_find {V} (d : dict V) id :
  dict_get id d = (λ p, p.2.2) <$> list_find (λ it : string * V, it.1 = id) d.
Proof.
  induction d as [|[k v] d IH]; [done|].
  cbn [dict_get list_find]. simpl. case_decide; [done|].
  rewrite IH. by destruct (list_find _ d) as [[? [? ?]]|].
Qed.

Lemma enumerate_from_snd {A} (i : Z) (xs : list A) : (enumerate_from i xs).*2 = xs.
Proof. revert i. induction xs as [|x xs IH]; intros i; simpl; [done|]. by rewrite IH. Qed.

Lemma list_find_enumerate_from (i : Z) (keys : list string) id :
  list_find (λ p : Z * string, p.2 = id) (enumerate_from i keys)
  = (λ p, (p.1, ((i + Z.of_nat p.1)%Z, p.2)))
      <$> list_find (λ k, k = id) keys.
Proof.
  revert i. induction keys as [|k keys IH]; intros i; [done|].
  cbn [enumerate_from list_find]. simpl. case_decide.
  - simpl. do 3 f_equal. lia.
  - rewrite IH. destruct (list_find _ keys) as [[n k']|]; simpl; [|done].
    do 3 f_equal. lia.
Qed.

(** ** Loops in the exception monad *)

Lemma foldM_pure {A B} (f : B → A → res B) (g : B → A → B) (xs : list A)
    (acc : B) :
  (∀ b x, x ∈ xs → f b x = Ok (g b x)) →
  foldM f acc xs = Ok (foldl g acc xs).
Proof.
  revert acc. induction xs as [|x xs IH]; intros acc H; [done|].
  cbn [foldM foldl]. rewrite (H acc x) by left. simpl.
  apply IH. intros b y Hy. apply H. by right.
Qed.

Lemma foldM_invariant {A B} (Inv : B → Prop) (f : B → A → res B)
    (xs : list A) (b0 b : B) :
  (∀ b a b', a ∈ xs → Inv b → f b a = Ok b' → Inv b') →
  Inv b0 → foldM f b0 xs = Ok b → Inv b.
Proof.
  revert b0. induction xs as [|x xs IH]; intros b0 Hstep H0; simpl.
  - by intros [= <-].
  - destruct (f b0 x) as [b1|e] eqn:Hf; simpl; [|done].
    apply IH.
    + intros ?????. eapply Hstep; [by right|done..].
    + eapply Hstep; [left|done..].
Qed.

Lemma mapM_Ok_Forall2 {A B} (f : A → res B) (xs : list A) (ys : list B) :
  mapM f xs = Ok ys ↔ Forall2 (λ x y, f x = Ok y) xs ys.
Proof.
  revert ys. induction xs as [|x xs IH]; intros ys; simpl.
  - split; [intros [= <-]; constructor|by intros ->%Forall2_nil_inv_l].
  - destruct (f x) as [y|e] eqn:Hf; simpl.
    + destruct (mapM f xs) as [ys'|e] eqn:Hm; simpl.
      * split.
        -- intros [= <-]. constructor; [done|]. by apply IH.
        -- intros (y' & ys'' & Hy & Hys & ->)%Forall2_cons_inv_l.
           apply IH in Hys. congruence.
      * split; [done|].
        intros (y' & ys'' & Hy & Hys & ->)%Forall2_cons_inv_l.
        apply IH in Hys. done.
    + split; [done|].
      intros (y' & ys'' & Hy & Hys & ->)%Forall2_cons_inv_l. congruence.
Qed.

Lemma mapM_total {A B} (f : A → res B) (xs : list A) :
  Forall (λ x, is_ok (f x)) xs → ∃ ys, mapM f xs = Ok ys.
Proof.
  induction 1 as [|x xs Hx _ [ys IH]]; simpl; [by eexists|].
  destruct (f x) as [y|e]; [|done]. simpl. rewrite IH. simpl. by eexists.
Qed.

(** A loop that stores one computed value per key of a duplicate-free
    list builds the dictionary in the order of the list. *)
Lemma foldM_set_fresh {V W} (g : string * V → res W) (l : list (string * V))
    (acc : dict W) :
  NoDup (acc.*1 ++ l.*1) →
  foldM (λ final item, tr ← g item; Ok (dict_set item.1 tr final)) acc l
  = vs ← mapM g l; Ok (acc ++ zip l.*1 vs).
Proof.
  revert acc. induction l as [|item l IH]; intros acc Hnd; simpl.
  - by rewrite app_nil_r.
  - destruct (g item) as [tr|e]; simpl; [|done].
    assert (item.1 ∉ acc.*1) as Hid.
    { apply NoDup_app in Hnd as (_ & Hd & _). intros Hin.
      apply (Hd _ Hin). left. }
    rewrite dict_set_absent by done. rewrite IH.
    + destruct (mapM g l) as [vs|e]; simpl; [|done]. by rewrite <-app_assoc.
    + rewrite fmap_app. simpl. by rewrite <-app_assoc.
Qed.

(** ** Conversions of ints *)

Lemma float_of_int_ok (n : Z) :
  is_ok (float_of_int n) → float_of_int n = Ok (nearest_float n).
Proof.
  unfold float_of_int. by destruct (binary_normalize prec emax n 0 false).
Qed.

Lemma float_div_int_ok (x : float) (n : Z) :
  n ≠ 0%Z → is_ok (float_of_int n) →
  float_div_int x n = Ok (x / nearest_float n).
Proof.
  intros Hn Hok. unfold float_div_int. rewrite decide_False by done.
  by rewrite float_of_int_ok.
Qed.

Lemma enumerate_from_elem {A} (i : Z) (xs : list A) (p : Z * A) :
  p ∈ enumerate_from i xs →
  ∃ n : nat, (n < length xs)%nat ∧ p.1 = (i + Z.of_nat n)%Z.
Proof.
  revert i. induction xs as [|x xs IH]; intros i; simpl.
  - by intros ?%elem_of_nil.
  - intros [->|Hin]%elem_of_cons.
    + exists 0%nat. simpl. split; lia.
    + apply IH in Hin as (n & Hn & ->). exists (S n). split; lia.
Qed.

(** ** Nested accumulation loops: for every set, for every item of the
    set, [acc[key] += val] *)

Lemma sum_over_ext {S} (f g : S → option float) (sets : list S) :
  (∀ s, f s = g s) → FusionSpec.sum_over f sets = FusionSpec.sum_over g sets.
Proof.
  intros Hfg. unfold FusionSpec.sum_over. generalize 0.
  induction sets as [|s sets IH]; intros a; [done|].
  cbn [foldl]. rewrite Hfg. apply IH.
Qed.

Lemma sum_over_none {S} (f : S → option float) (sets : list S) :
  Forall (λ s, f s = None) sets → FusionSpec.sum_over f sets = 0.
Proof.
  unfold FusionSpec.sum_over. generalize 0.
  induction 1 as [|s sets Hs _ IH]; [done|].
  cbn [foldl]. by rewrite Hs.
Qed.

Section accumulate.
Context {S I : Type} (items : S → list I) (key : I → string).
Local Abbreviation fnd := (found items key).
Local Abbreviation cbody := (count_body items key).

Section floats.
Context (val : I → float).
Local Abbreviation body := (acc_body items key val).
Local Abbreviation entry := (acc_entry items key val).

Lemma acc_body_get (acc : dict float) (s : S) id :
  NoDup (key <$> items s) →
  dict_get id (body acc s) = entry id (dict_get id acc) s.
Proof.
  intros Hs. unfold acc_body, acc_entry, found.
  rewrite foldl_upd_get by done.
  by destruct (list_find _ (items s)) as [[n it]|].
Qed.

Lemma acc_loop_get (sets : list S) (acc : dict float) id :
  Forall (λ s, NoDup (key <$> items s)) sets →
  dict_get id (foldl body acc sets) = foldl (entry id) (dict_get id acc) sets.
Proof.
  intros Hwf. revert acc.
  induction Hwf as [|s sets Hs Hsets IH]; intros acc; [done|].
  cbn [foldl]. by rewrite IH, acc_body_get.
Qed.

(** The entry of an id is the float sum, in the order of the sets, of
    what the sets contribute. *)
Lemma acc_entry_sum (sets : list S) (o : option float) id :
  default 0 (foldl (entry id) o sets)
  = foldl (λ a s, match val <$> fnd id s with
                  | Some c => a + c
                  | None => a
                  end) (default 0 o) sets.
Proof.
  revert o. induction sets as [|s sets IH]; intros o; [done|].
  cbn [foldl]. rewrite IH. f_equal. unfold acc_entry.
  by destruct (found items key id s).
Qed.

Lemma acc_loop_sum (sets : list S) id :
  Forall (λ s, NoDup (key <$> items s)) sets →
  default 0 (dict_get id (foldl body [] sets))
  = FusionSpec.sum_over (λ s, val <$> fnd id s) sets.
Proof. intros Hwf. by rewrite acc_loop_get, acc_entry_sum. Qed.

Lemma acc_loop_keys (sets : list S) (acc : dict float) id :
  id ∈ (foldl body acc sets).*1
  ↔ id ∈ acc.*1 ∨ Exists (λ s, id ∈ key <$> items s) sets.
Proof.
  revert acc. induction sets as [|s sets IH]; intros acc.
  - simpl. rewrite Exists_nil. naive_solver.
  - cbn [foldl]. rewrite IH, Exists_cons.
    assert (id ∈ (body acc s).*1 ↔ id ∈ acc.*1 ∨ id ∈ key <$> items s)
      as -> by apply foldl_upd_keys.
    naive_solver.
Qed.

Lemma acc_loop_wf (sets : list S) (acc : dict float) :
  dict_wf acc → dict_wf (foldl body acc sets).
Proof.
  revert acc. induction sets as [|s sets IH]; intros acc Hwf;
    [done|].
  cbn [foldl]. apply IH. by apply foldl_upd_wf.
Qed.
End floats.

Lemma count_body_get (acc : dict Z) (s : S) id :
  NoDup (key <$> items s) →
  default 0%Z (dict_get id (cbody acc s))
  = (default 0 (dict_get id acc)
     + if decide (id ∈ key <$> items s) then 1 else 0)%Z.
Proof.
  intros Hs. unfold count_body. rewrite foldl_upd_get by done.
  destruct (list_find _ (items s)) as [[n it]|] eqn:Hf; simpl.
  - apply list_find_Some in Hf as (Hin & Heq & _).
    rewrite decide_True; [done|].
    apply list_elem_of_fmap. exists it. split; [done|].
    by eapply list_elem_of_lookup_2.
  - rewrite decide_False; [lia|].
    intros (it & -> & Hin)%list_elem_of_fmap.
    eapply list_find_None in Hf. eapply Forall_forall in Hf; [|done]. done.
Qed.

Lemma count_loop_get (sets : list S) (acc : dict Z) id :
  Forall (λ s, NoDup (key <$> items s)) sets →
  default 0%Z (dict_get id (foldl cbody acc sets))
  = (default 0 (dict_get id acc)
     + Z.of_nat (length (filter (λ s, id ∈ key <$> items s) sets)))%Z.
Proof.
  intros Hwf. revert acc.
  induction Hwf as [|s sets Hs Hsets IH]; intros acc.
  - simpl. lia.
  - cbn [foldl]. rewrite IH, count_body_get by done.
    rewrite filter_cons. case_decide; simpl; lia.
Qed.

End accumulate.

(** ** The fusion engine *)

Section fusion_facts.
Variable self : RRFFusion.t.
Implicit Types (sets : list ResultSet) (id : string).

Local Abbreviation k := (RRFFusion._k self).
Local Abbreviation alpha := (RRFFusion._alpha self).
Local Abbreviation in_some_set := FusionSpec.in_some_set.

Lemma sets_wf_enumerate sets :
  Forall dict_wf sets →
  Forall (λ s : ResultSet, NoDup ((enumerate (dict_keys s)).*2)) sets.
Proof.
  intros H. eapply Forall_impl; [exact H|]. intros s Hs. unfold enumerate.
  by rewrite enumerate_from_snd.
Qed.

(** When every [k + rank + 1] converts, no step of the RRF loops raises. *)
Lemma rrf_loops sets :
  (1 ≤ k)%Z → FusionSpec.convertible k sets →
  RRFFusion.reciprocal_rank_fusion self sets
  = Ok (foldl (acc_body (λ s : ResultSet, enumerate (dict_keys s)) snd
                 (λ p, 1 / nearest_float (k + p.1 + 1))) [] sets).
Proof.
  intros Hk Hconv. unfold RRFFusion.reciprocal_rank_fusion.
  apply foldM_pure. intros acc s Hs.
  unfold acc_body. apply foldM_pure. intros fused p Hp.
  eapply Forall_forall in Hconv; [|exact Hs].
  unfold enumerate in Hp.
  apply enumerate_from_elem in Hp as (n & Hn & Hp1).
  unfold dict_keys in Hn. rewrite length_fmap in Hn.
  rewrite float_div_int_ok; [done|lia|].
  rewrite Hp1, Z.add_0_l. by apply Hconv.
Qed.

Lemma rrf_contribution id (s : ResultSet) :
  (λ p : Z * string, 1 / nearest_float (k + p.1 + 1))
    <$> found (λ s : ResultSet, enumerate (dict_keys s)) snd id s
  = FusionSpec.reciprocal k <$> FusionSpec.rank_of id s.
Proof.
  unfold found, FusionSpec.rank_of, enumerate, FusionSpec.reciprocal.
  rewrite list_find_enumerate_from.
  by destruct (list_find _ (dict_keys s)) as [[n k']|].
Qed.

(** The table of RRF scores: one entry for every id of the sets, with
    the RRF formula. *)
Lemma reciprocal_rank_fusion_table sets :
  (1 ≤ k)%Z → FusionSpec.convertible k sets → Forall dict_wf sets →
  ∃ rrf_scores,
    RRFFusion.reciprocal_rank_fusion self sets = Ok rrf_scores
    ∧ dict_wf rrf_scores
    ∧ (∀ id, id ∈ dict_keys rrf_scores ↔ in_some_set id sets)
    ∧ (∀ id, default 0 (dict_get id rrf_scores) = FusionSpec.rrf k sets id).
Proof.
  intros Hk Hconv Hwf. eexists. split; [by apply rrf_loops|].
  split_and!.
  - apply acc_loop_wf. constructor.
  - intros id. unfold dict_keys. rewrite acc_loop_keys, elem_of_nil.
    unfold FusionSpec.in_some_set.
    split; [intros [[]|H]|intros H; right];
      (eapply Exists_impl; [exact H|]); intros s; simpl;
      unfold enumerate, dict_keys; by rewrite enumerate_from_snd.
  - intros id. rewrite acc_loop_sum by by apply sets_wf_enumerate.
    unfold FusionSpec.rrf. apply sum_over_ext. intros s.
    apply rrf_contribution.
Qed.

Lemma comb_mnz_pass_unfold sets :
  RRFFusion.comb_mnz_pass sets
  = (foldl (acc_body (λ s : ResultSet, s) fst (λ it, score it.2)) [] sets,
     foldl (count_body (λ s : ResultSet, s) fst) [] sets).
Proof.
  unfold RRFFusion.comb_mnz_pass.
  generalize (@nil (string * float)) (@nil (string * Z)).
  induction sets as [|s sets IH]; intros a b; [done|].
  cbn [foldl].
  rewrite (foldl_pair
             (upd_step fst (λ o (it : string * CanonicalRecord),
                              default 0 o + score it.2))
             (upd_step fst (λ o (_ : string * CanonicalRecord),
                              default 0 o + 1)%Z)).
  apply IH.
Qed.

Lemma sum_contribution id (s : ResultSet) :
  (λ it : string * CanonicalRecord, score it.2)
    <$> found (λ s : ResultSet, s) fst id s
  = score <$> dict_get id s.
Proof.
  unfold found. rewrite dict_get_list_find.
  by destruct (list_find _ s) as [[n [k' r]]|].
Qed.

Lemma comb_mnz_sum_keys sets id :
  id ∈ (RRFFusion.comb_mnz_pass sets).1.*1 ↔ in_some_set id sets.
Proof.
  rewrite comb_mnz_pass_unfold. cbn [fst]. rewrite acc_loop_keys, elem_of_nil.
  unfold FusionSpec.in_some_set, dict_keys. naive_solver.
Qed.

Lemma comb_mnz_sum_wf sets : dict_wf (RRFFusion.comb_mnz_pass sets).1.
Proof. rewrite comb_mnz_pass_unfold. apply acc_loop_wf. constructor. Qed.

Lemma comb_mnz_fusion_tabulate sets :
  Forall dict_wf sets →
  RRFFusion.comb_mnz_fusion sets
  = map (λ id, (id, FusionSpec.comb_mnz sets id))
      (RRFFusion.comb_mnz_pass sets).1.*1.
Proof.
  intros Hwf. unfold RRFFusion.comb_mnz_fusion.
  pose proof (comb_mnz_sum_wf sets) as Hsum. revert Hsum.
  rewrite comb_mnz_pass_unfold. cbn [fst]. intros Hsum.
  rewrite dict_of_items_wf.
  - apply map_ext. intros id. f_equal. unfold FusionSpec.comb_mnz.
    rewrite acc_loop_sum, count_loop_get by done.
    simpl. f_equal. apply sum_over_ext. intros s. apply sum_contribution.
  - unfold dict_wf. by rewrite tabulate_keys.
Qed.

Lemma comb_mnz_fusion_keys sets id :
  Forall dict_wf sets →
  id ∈ (RRFFusion.comb_mnz_fusion sets).*1 ↔ in_some_set id sets.
Proof.
  intros Hwf. rewrite comb_mnz_fusion_tabulate, tabulate_keys by done.
  apply comb_mnz_sum_keys.
Qed.

(** The table of CombMNZ scores holds, for every id, the CombMNZ
    formula. *)
Lemma comb_mnz_fusion_get sets id :
  Forall dict_wf sets →
  dict_get id (RRFFusion.comb_mnz_fusion sets)
  = if decide (in_some_set id sets)
    then Some (FusionSpec.comb_mnz sets id) else None.
Proof.
  intros Hwf. rewrite comb_mnz_fusion_tabulate, dict_get_tabulate by done.
  pose proof (comb_mnz_sum_keys sets id).
  repeat case_decide; naive_solver.
Qed.

Lemma comb_mnz_default sets id :
  Forall dict_wf sets →
  default 0 (dict_get id (RRFFusion.comb_mnz_fusion sets))
  = FusionSpec.comb_mnz sets id.
Proof.
  intros Hwf. rewrite comb_mnz_fusion_get by done. case_decide as Hex; [done|].
  simpl. unfold FusionSpec.comb_mnz.
  assert (Forall (λ s : ResultSet, id ∉ dict_keys s) sets) as Hno.
  { apply Forall_forall. intros s Hs Hin. apply Hex.
    apply Exists_exists. by exists s. }
  rewrite sum_over_none.
  - replace (filter (λ s : ResultSet, id ∈ dict_keys s) sets)
      with (@nil ResultSet); [done|].
    symmetry. clear Hex Hwf. induction Hno as [|s sets Hs _ IH]; [done|].
    rewrite filter_cons, decide_False by done. exact IH.
  - eapply Forall_impl; [exact Hno|]. intros s Hs. simpl.
    apply (dict_get_None id s) in Hs. by rewrite Hs.
Qed.

(** [calc_final_scores]: the blend of the two tables over the union of
    their ids. *)
Lemma calc_final_scores_table sets :
  (1 ≤ k)%Z → FusionSpec.convertible k sets → Forall dict_wf sets →
  ∃ final_scores,
    RRFFusion.calc_final_scores self sets = Ok final_scores
    ∧ dict_wf final_scores
    ∧ ∀ id, dict_get id final_scores
            = if decide (in_some_set id sets)
              then Some (FusionSpec.final alpha k sets id) else None.
Proof.
  intros Hk Hconv Hwf.
  destruct (reciprocal_rank_fusion_table sets Hk Hconv Hwf)
    as (rrf_scores & Hrrf & Hrwf & Hrkeys & Hrget).
  unfold RRFFusion.calc_final_scores. rewrite Hrrf. simpl.
  eexists. split; [done|].
  rewrite (foldl_set_fresh
             (λ doc_id,
                alpha * default 0 (dict_get doc_id rrf_scores)
                + (1 - alpha) * default 0 (dict_get doc_id
                                  (RRFFusion.comb_mnz_fusion sets))))
    by (simpl; apply NoDup_remove_dups).
  simpl. split.
  - unfold dict_wf. rewrite tabulate_keys. apply NoDup_remove_dups.
  - intros id. rewrite dict_get_tabulate. unfold RRFFusion.key_union.
    pose proof (Hrkeys id) as Hr.
    pose proof (comb_mnz_fusion_keys sets id Hwf) as Hm.
    unfold dict_keys in *.
    rewrite Hrget, comb_mnz_default by done.
    unfold FusionSpec.final.
    repeat case_decide; try done;
      rewrite elem_of_remove_dups, elem_of_app in *; naive_solver.
Qed.

Lemma merge_loop_get sets (acc : ResultSet) id :
  Forall dict_wf sets →
  dict_get id (foldl dict_update acc sets)
  = foldl (λ o s, match dict_get id s with Some r => Some r | None => o end)
      (dict_get id acc) sets.
Proof.
  intros Hwf. revert acc.
  induction Hwf as [|s sets Hs _ IH]; intros acc; [done|].
  cbn [foldl]. rewrite IH. by rewrite dict_update_get.
Qed.

Lemma merge_results_get sets id :
  Forall dict_wf sets →
  dict_get id (RRFFusion.merge_results sets) = FusionSpec.last_write id sets.
Proof. intros Hwf. unfold RRFFusion.merge_results. by rewrite merge_loop_get. Qed.

Lemma merge_loop_wf sets (acc : ResultSet) :
  dict_wf acc → dict_wf (foldl dict_update acc sets).
Proof.
  revert acc. induction sets as [|s sets IH]; intros acc Hacc; [done|].
  cbn [foldl]. apply IH. by apply dict_update_wf.
Qed.

Lemma merge_results_wf sets : dict_wf (RRFFusion.merge_results sets).
Proof. apply merge_loop_wf. constructor. Qed.

Lemma merge_loop_keys sets (acc : ResultSet) id :
  id ∈ (foldl dict_update acc sets).*1 ↔ id ∈ acc.*1 ∨ in_some_set id sets.
Proof.
  unfold FusionSpec.in_some_set. revert acc.
  induction sets as [|s sets IH]; intros acc.
  - simpl. rewrite Exists_nil. naive_solver.
  - cbn [foldl]. rewrite IH, dict_update_keys, Exists_cons.
    unfold dict_keys. naive_solver.
Qed.

Lemma merge_results_keys sets id :
  id ∈ dict_keys (RRFFusion.merge_results sets) ↔ in_some_set id sets.
Proof.
  unfold RRFFusion.merge_results, dict_keys. rewrite merge_loop_keys.
  rewrite elem_of_nil. naive_solver.
Qed.

End fusion_facts.

Lemma dict_update_key_order {V} (d d' : dict V) :
  (dict_update d d').*1
  = foldl (λ seen x, if decide (x ∈ seen) then seen else seen ++ [x])
      d.*1 d'.*1.
Proof.
  unfold dict_update. revert d.
  induction d' as [|[k v] d' IH]; intros d; [done|].
  cbn [foldl fmap list_fmap fst snd]. rewrite IH, dict_set_keys. done.
Qed.

Lemma merge_loop_key_order (sets : list ResultSet) (acc : ResultSet) :
  (foldl dict_update acc sets).*1
  = foldl (λ seen x, if decide (x ∈ seen) then seen else seen ++ [x])
      acc.*1 (concat (dict_keys <$> sets)).
Proof.
  revert acc. induction sets as [|s sets IH]; intros acc; [done|].
  cbn [foldl fmap list_fmap concat]. rewrite foldl_app, IH.
  by rewrite dict_update_key_order.
Qed.

(** The merged mapping lists the ids in the order in which the sets first
    show them. *)
Lemma merge_results_first_seen (sets : list ResultSet) :
  dict_keys (RRFFusion.merge_results sets) = FusionSpec.first_seen sets.
Proof. apply (merge_loop_key_order sets []). Qed.

Lemma first_seen_elem (sets : list ResultSet) (id : string) :
  id ∈ FusionSpec.first_seen sets ↔ FusionSpec.in_some_set id sets.
Proof. rewrite <-merge_results_first_seen. apply merge_results_keys. Qed.

Lemma dict_alter_map {V} (f : V → V) k (d : dict V) :
  dict_wf d →
  match dict_get k d with Some r => dict_set k (f r) d | None => d end
  = map (λ kv, if decide (kv.1 = k) then (kv.1, f kv.2) else kv) d.
Proof.
  unfold dict_wf. induction d as [|[k1 v1] d IH]; [done|].
  rewrite fmap_cons. intros [Hk1 Hnd]%NoDup_cons.
  cbn [dict_get dict_set map fst snd]. specialize (IH Hnd).
  destruct (decide (k1 = k)) as [->|Hne].
  - f_equal. clear IH. simpl in Hk1.
    induction d as [|[k2 v2] d IH]; [done|].
    rewrite fmap_cons, not_elem_of_cons in Hk1. destruct Hk1 as [Hne Hk].
    apply NoDup_cons in Hnd as [_ Hnd].
    cbn [map fst]. rewrite decide_False by (by intros ->). f_equal. by apply IH.
  - destruct (dict_get k d) as [r|]; by f_equal.
Qed.

Lemma dict_get_fmap_values {V W} (h : string → V → W) (d : dict V) id :
  dict_get id (map (λ kv, (kv.1, h kv.1 kv.2)) d) = h id <$> dict_get id d.
Proof.
  induction d as [|[k1 v1] d IH]; [done|].
  cbn [map dict_get fst snd]. by case_decide; subst.
Qed.

Lemma fmap_values_keys {V W} (h : string → V → W) (d : dict V) :
  (map (λ kv, (kv.1, h kv.1 kv.2)) d).*1 = d.*1.
Proof. induction d as [|[k1 v1] d IH]; [done|]. simpl. by f_equal. Qed.

Lemma overwrite_scores_map (final_scores : dict float) (merged : ResultSet) :
  dict_wf final_scores → dict_wf merged →
  RRFFusion.overwrite_scores final_scores merged
  = map (λ kv, (kv.1, rescore final_scores kv.1 kv.2)) merged.
Proof.
  unfold RRFFusion.overwrite_scores, dict_wf. intros Hf. revert merged.
  induction final_scores as [|[id1 s1] rest IH]; intros merged Hm.
  - simpl. unfold rescore. simpl. induction merged as [|[? ?] ? IHm]; [done|].
    simpl. f_equal. apply IHm. by apply NoDup_cons in Hm as [_ ?].
  - rewrite fmap_cons in Hf. apply NoDup_cons in Hf as [Hid1 Hrest].
    cbn [foldl fst snd].
    rewrite (dict_alter_map (with_score s1)) by done.
    rewrite IH; [|done|].
    + rewrite map_map. apply map_ext. intros [id r]. unfold rescore.
      cbn [fst snd dict_get].
      destruct (decide (id = id1)) as [->|Hne]; cbn [fst snd].
      * rewrite decide_True by done.
        apply (dict_get_None id1 rest) in Hid1. by rewrite Hid1.
      * rewrite decide_False by done. done.
    + unfold dict_wf. rewrite <-list_fmap_compose.
      erewrite list_fmap_ext; [exact Hm|].
      intros i [id r] _. simpl. by case_decide.
Qed.

(** The order in which the final scores are visited (the iteration order
    of a Python set) does not matter. *)
Lemma overwrite_scores_perm (final1 final2 : dict float)
    (merged : ResultSet) :
  dict_wf final1 → final1 ≡ₚ final2 → dict_wf merged →
  RRFFusion.overwrite_scores final1 merged
  = RRFFusion.overwrite_scores final2 merged.
Proof.
  intros Hwf1 Hp Hm.
  assert (dict_wf final2) as Hwf2 by (unfold dict_wf; by rewrite <-Hp).
  rewrite !overwrite_scores_map by done.
  apply map_ext. intros [id r]. unfold rescore. cbn [fst snd].
  by rewrite (dict_get_perm final1 final2).
Qed.

Section fuse_facts.
Variable self : RRFFusion.t.
Implicit Types (sets : list ResultSet) (id : string).

Local Abbreviation k := (RRFFusion._k self).
Local Abbreviation alpha := (RRFFusion._alpha self).
Local Abbreviation key := (λ x : string * CanonicalRecord, score x.2).

(** [fuse] on sets that have a float for every rank: the merged records,
    rescored, in descending order. *)
Lemma fuse_unfold sets :
  (1 ≤ k)%Z → FusionSpec.convertible k sets → Forall dict_wf sets →
  RRFFusion.fuse self sets
  = Ok (sorted_reverse key
          (map (λ kv, (kv.1, with_score
                               (FusionSpec.final alpha k sets kv.1) kv.2))
             (RRFFusion.merge_results sets))).
Proof.
  intros Hk Hconv Hwf. destruct sets as [|s sets]; [done|].
  destruct (calc_final_scores_table self _ Hk Hconv Hwf)
    as (final_scores & Hcalc & Hfwf & Hfget).
  unfold RRFFusion.fuse. rewrite Hcalc. simpl. f_equal.
  rewrite overwrite_scores_map by (done || apply merge_results_wf).
  rewrite dict_of_items_wf.
  - f_equal. apply map_ext_in. intros [id r] Hin. cbn [fst snd].
    f_equal. unfold rescore. rewrite Hfget, decide_True; [done|].
    apply merge_results_keys. apply list_elem_of_fmap.
    exists (id, r). split; [done|]. by apply list_elem_of_In.
  - apply sorted_reverse_wf. unfold dict_wf.
    rewrite (fmap_values_keys (rescore final_scores)).
    apply merge_results_wf.
Qed.

(** The ids of the fused mapping: the ids in first-seen order, sorted by
    final score. *)
Lemma fuse_keys sets out :
  (1 ≤ k)%Z → FusionSpec.convertible k sets → Forall dict_wf sets →
  RRFFusion.fuse self sets = Ok out →
  dict_keys out
  = sorted_reverse (FusionSpec.final alpha k sets)
      (FusionSpec.first_seen sets).
Proof.
  intros Hk Hconv Hwf. rewrite fuse_unfold by done. intros [= <-].
  unfold dict_keys.
  rewrite (sorted_reverse_fmap fst _ (FusionSpec.final alpha k sets)).
  - rewrite (fmap_values_keys
               (λ id, with_score (FusionSpec.final alpha k sets id))).
    by rewrite <-merge_results_first_seen.
  - apply Forall_forall. intros [id r] Hin.
    apply list_elem_of_fmap in Hin as ([id' r'] & [= -> ->] & Hin). done.
Qed.

(** The records of the fused mapping. *)
Lemma fuse_get sets out id :
  (1 ≤ k)%Z → FusionSpec.convertible k sets → Forall dict_wf sets →
  RRFFusion.fuse self sets = Ok out →
  dict_wf out
  ∧ dict_get id out
    = with_score (FusionSpec.final alpha k sets id)
        <$> FusionSpec.last_write id sets.
Proof.
  intros Hk Hconv Hwf. rewrite fuse_unfold by done. intros [= <-].
  assert (dict_wf
            (map (λ kv : string * CanonicalRecord,
                    (kv.1, with_score (FusionSpec.final alpha k sets kv.1)
                             kv.2))
               (RRFFusion.merge_results sets))) as Hmwf.
  { unfold dict_wf.
    rewrite (fmap_values_keys
               (λ id, with_score (FusionSpec.final alpha k sets id))).
    apply merge_results_wf. }
  split; [by apply sorted_reverse_wf|].
  rewrite (dict_get_perm _ _ _ Hmwf)
    by (symmetry; apply sorted_reverse_perm).
  rewrite (dict_get_fmap_values
             (λ id, with_score (FusionSpec.final alpha k sets id))).
  by rewrite merge_results_get.
Qed.

End fuse_facts.

(** ** Rankings *)

Lemma filter_ext_elem {A} (P Q : A → Prop) `{∀ x, Decision (P x)}
    `{∀ x, Decision (Q x)} (l : list A) :
  (∀ x, x ∈ l → P x ↔ Q x) → filter P l = filter Q l.
Proof.
  induction l as [|x l IH]; intros Hpq; [done|].
  rewrite !filter_cons. rewrite IH by (intros y Hy; apply Hpq; by right).
  pose proof (Hpq x ltac:(left)).
  destruct (decide (P x)), (decide (Q x)); naive_solver.
Qed.

Lemma sorted_reverse_is_ranking (score_of : string → float)
    (ids : list string) :
  Forall (λ id, is_number (score_of id)) ids →
  FusionSpec.is_ranking score_of ids (sorted_reverse score_of ids).
Proof.
  intros Hnum. split_and!.
  - apply sorted_reverse_perm.
  - by apply sorted_reverse_sorted.
  - intros c. apply sorted_reverse_stable.
Qed.

(** A ranking by a score is a ranking by every score that equals it
    ([==]) on the ids. *)
Lemma is_ranking_feq (f g : string → float) (ids l : list string) :
  (∀ id, id ∈ ids → feq (f id) (g id)) →
  FusionSpec.is_ranking f ids l → FusionSpec.is_ranking g ids l.
Proof.
  intros Hfg (Hp & Hs & Hst).
  assert (∀ id, id ∈ l → feq (f id) (g id)) as Hfg'.
  { intros id Hid. apply Hfg. by rewrite <-Hp. }
  split_and!; [done| |].
  - clear Hst Hp Hfg. induction Hs as [|x l Hl IH Hx]; [constructor|].
    constructor.
    + apply IH. intros id Hid. apply Hfg'. by right.
    + apply Forall_forall. intros y Hy.
      eapply Forall_forall in Hx; [|exact Hy].
      unfold flt in *.
      rewrite <-(feq_flt_l (f x) (g x)) by (apply Hfg'; left).
      rewrite <-(feq_flt_r (f x) (f y) (g y)) by (apply Hfg'; by right).
      exact Hx.
  - intros c.
    rewrite <-(filter_ext_elem (λ x, feq (f x) c) (λ x, feq (g x) c) l),
      <-(filter_ext_elem (λ x, feq (f x) c) (λ x, feq (g x) c) ids);
      [apply Hst| |].
    + intros x Hx. unfold feq. by rewrite (feq_feq_l _ _ c (Hfg x Hx)).
    + intros x Hx. unfold feq. by rewrite (feq_feq_l _ _ c (Hfg' x Hx)).
Qed.

(** There is one ranking only. *)
Lemma is_ranking_unique (score_of : string → float)
    (ids l l' : list string) :
  Forall (λ id, is_number (score_of id)) ids →
  FusionSpec.is_ranking score_of ids l →
  FusionSpec.is_ranking score_of ids l' →
  l = l'.
Proof.
  intros Hnum (Hp & Hs & Hst) (Hp' & Hs' & Hst').
  apply (stable_sorted_unique score_of); [|by rewrite Hp, Hp'|done|done|].
  - apply Forall_forall. intros x Hx. rewrite Hp in Hx.
    by eapply Forall_forall in Hnum.
  - intros c. by rewrite Hst, Hst'.
Qed.

(** ** The fusion engine: what [fuse] returns *)

(** C2. For an engine that the constructor accepts ([k >= 1]), sets that
    are dicts, and ranks that have a float ([1.0 / (k + rank + 1)] does
    not raise), in the float arithmetic of the code: the RRF table holds,
    for every id of the sets, the sum of [1/(k + rank + 1)] over the
    sets; the CombMNZ table holds (sum of the scores) * (number of sets
    with the id); [calc_final_scores] holds, over the ids of either table,
    [alpha * rrf + (1 - alpha) * combMNZ] with 0 for an id a table lacks;
    [fuse] returns a dict whose ids are the ids of the sets, the record of
    an id being the record of the last set that has it, with the score
    field replaced by the final score and the other fields unchanged; the
    returned mapping is in descending order of score when no score is NaN;
    and [fuse([])] is empty. *)
Theorem fuse_correct (self : RRFFusion.t) (sets : list ResultSet) :
  (1 ≤ RRFFusion._k self)%Z →
  Forall dict_wf sets →
  FusionSpec.convertible (RRFFusion._k self) sets →
  let k := RRFFusion._k self in
  let alpha := RRFFusion._alpha self in
  let mnz := RRFFusion.comb_mnz_fusion sets in
  ∃ rrf final_scores out,
    RRFFusion.reciprocal_rank_fusion self sets = Ok rrf
    ∧ RRFFusion.calc_final_scores self sets = Ok final_scores
    ∧ RRFFusion.fuse self sets = Ok out
    ∧ (∀ id, dict_get id rrf
             = if decide (FusionSpec.in_some_set id sets)
               then Some (FusionSpec.rrf k sets id) else None)
    ∧ (∀ id, dict_get id mnz
             = if decide (FusionSpec.in_some_set id sets)
               then Some (FusionSpec.comb_mnz sets id) else None)
    ∧ (∀ id, dict_get id final_scores
             = if decide (id ∈ dict_keys rrf ∨ id ∈ dict_keys mnz)
               then Some (alpha * default 0 (dict_get id rrf)
                          + (1 - alpha) * default 0 (dict_get id mnz))
               else None)
    ∧ dict_wf out
    ∧ (∀ id, id ∈ dict_keys out ↔ FusionSpec.in_some_set id sets)
    ∧ (∀ id, match FusionSpec.last_write id sets with
             | Some r =>
                 ∃ r', dict_get id out = Some r'
                       ∧ FusionSpec.rescored
                           (FusionSpec.final alpha k sets id) r r'
             | None => dict_get id out = None
             end)
    ∧ (Forall (λ x : string * CanonicalRecord, is_number (score x.2)) out →
       StronglySorted (desc (λ x : string * CanonicalRecord, score x.2)) out)
    ∧ RRFFusion.fuse self [] = Ok [].
Proof.
  intros Hk Hwf Hconv k alpha mnz.
  destruct (reciprocal_rank_fusion_table self sets Hk Hconv Hwf)
    as (rrf & Hrrf & Hrwf & Hrkeys & Hrget).
  destruct (calc_final_scores_table self sets Hk Hconv Hwf)
    as (final_scores & Hcalc & Hfwf & Hfget).
  pose proof (fuse_unfold self sets Hk Hconv Hwf) as Hfuse.
  eexists rrf, final_scores, _. split_and!; try done.
  - intros id. specialize (Hrkeys id). specialize (Hrget id).
    unfold dict_keys in Hrkeys. rewrite <-dict_get_is_Some in Hrkeys.
    case_decide as Hin.
    + apply Hrkeys in Hin as [x Hx]. rewrite Hx in Hrget |- *.
      simpl in Hrget. by rewrite Hrget.
    + destruct (dict_get id rrf) eqn:Hg; [|done].
      exfalso. apply Hin, Hrkeys. by eexists.
  - intros id. by apply comb_mnz_fusion_get.
  - intros id. rewrite Hfget.
    pose proof (Hrkeys id). pose proof (comb_mnz_fusion_keys sets id Hwf).
    unfold FusionSpec.final, dict_keys in *.
    rewrite Hrget. subst mnz. rewrite comb_mnz_default by done.
    repeat case_decide; naive_solver.
  - by apply (fuse_get self sets _ "" Hk Hconv Hwf).
  - intros id.
    destruct (fuse_get self sets _ id Hk Hconv Hwf Hfuse) as [Hwfo Hget].
    unfold dict_keys. rewrite <-dict_get_is_Some, Hget.
    rewrite <-merge_results_keys. unfold dict_keys.
    rewrite <-dict_get_is_Some, merge_results_get by done.
    by rewrite fmap_is_Some.
  - intros id.
    destruct (fuse_get self sets _ id Hk Hconv Hwf Hfuse) as [_ Hget].
    rewrite Hget. destruct (FusionSpec.last_write id sets) as [r|]; [|done].
    eexists. split; [done|]. by repeat split.
  - intros Hnum. apply sorted_reverse_sorted.
    apply Forall_forall. intros x Hx.
    eapply Forall_forall in Hnum; [exact Hnum|].
    by apply sorted_reverse_elem.
Qed.

Lemma sample_sets_convertible :
  FusionSpec.convertible 60 [sample_set1; sample_set2].
Proof.
  unfold FusionSpec.convertible.
  apply Forall_cons; split; [|apply Forall_cons; split; [|constructor]];
    intros rank Hr; simpl in Hr;
    do 3 (destruct rank as [|rank]; [vm_compute; exact I|]); lia.
Qed.

Lemma sample_sets_wf : Forall dict_wf [sample_set1; sample_set2].
Proof.
  repeat constructor; apply (bool_decide_unpack _); vm_compute; reflexivity.
Qed.

Lemma fuse_correct_witness :
  (1 ≤ RRFFusion._k (RRFFusion.mk 60 0.1))%Z
  ∧ Forall dict_wf [sample_set1; sample_set2]
  ∧ FusionSpec.convertible (RRFFusion._k (RRFFusion.mk 60 0.1))
      [sample_set1; sample_set2]
  ∧ ∃ out,
      RRFFusion.fuse (RRFFusion.mk 60 0.1) [sample_set1; sample_set2]
      = Ok out
      ∧ dict_keys out = ["L01/V1/1"; "L01/V1/2"; "L01/V2/3"]
      ∧ score <$> dict_get "L01/V1/1" out = Some 2.5232266458495967
      ∧ video_id <$> dict_get "L01/V2/3" out = Some "V2".
Proof.
  assert (1 ≤ RRFFusion._k (RRFFusion.mk 60 0.1))%Z as Hk by (simpl; lia).
  split_and!; [exact Hk|exact sample_sets_wf|exact sample_sets_convertible|].
  destruct (fuse_correct (RRFFusion.mk 60 0.1) [sample_set1; sample_set2]
              Hk sample_sets_wf sample_sets_convertible)
    as (rrf & final_scores & out & _ & _ & Hfuse & _).
  exists out. split; [exact Hfuse|].
  vm_compute in Hfuse. injection Hfuse as <-.
  split_and!; reflexivity.
Defined.

(** An engine that the constructor accepts and on which [fuse] raises:
    [k = 2^1024] is an int, [k >= 1], and [1.0 / (k + 0 + 1)] cannot
    convert its divisor. *)
Lemma fuse_overflow_counterexample :
  RRFFusion.init huge_k 0.1 = Ok (RRFFusion.mk huge_k 0.1)
  ∧ Forall dict_wf [sample_set1]
  ∧ RRFFusion.fuse (RRFFusion.mk huge_k 0.1) [sample_set1]
    = Raise OverflowError.
Proof.
  split_and!.
  - vm_compute. reflexivity.
  - repeat constructor; apply (bool_decide_unpack _); vm_compute; reflexivity.
  - vm_compute. reflexivity.
Qed.

(** ** The fusion engine: the extremes of [alpha] *)

Lemma final_alpha_one (k : Z) (sets : list ResultSet) (id : string) :
  is_number (FusionSpec.rrf k sets id) →
  finite (FusionSpec.comb_mnz sets id) →
  feq (FusionSpec.final 1 k sets id) (FusionSpec.rrf k sets id).
Proof.
  intros Hr Hm. unfold FusionSpec.final.
  change (1 - 1) with 0. rewrite mul_one_l.
  apply add_zero_r; [done|]. by apply zero_mul_finite.
Qed.

Lemma final_alpha_zero (k : Z) (sets : list ResultSet) (id : string) :
  finite (FusionSpec.rrf k sets id) →
  is_number (FusionSpec.comb_mnz sets id) →
  feq (FusionSpec.final 0 k sets id) (FusionSpec.comb_mnz sets id).
Proof.
  intros Hr Hm. unfold FusionSpec.final.
  change (1 - 0) with 1. rewrite mul_one_l.
  apply add_zero_l; [done|]. by apply zero_mul_finite.
Qed.

(** The fused ranking is the ranking by every score that equals ([==])
    the final score on the ids of the sets. *)
Lemma fuse_ranking (self : RRFFusion.t) (sets : list ResultSet)
    (score_of : string → float) :
  (1 ≤ RRFFusion._k self)%Z →
  FusionSpec.convertible (RRFFusion._k self) sets →
  Forall dict_wf sets →
  (∀ id, id ∈ FusionSpec.first_seen sets →
         feq (FusionSpec.final (RRFFusion._alpha self) (RRFFusion._k self)
                sets id)
           (score_of id)) →
  ∃ out,
    RRFFusion.fuse self sets = Ok out
    ∧ FusionSpec.is_ranking score_of (FusionSpec.first_seen sets)
        (dict_keys out)
    ∧ ∀ l, FusionSpec.is_ranking score_of (FusionSpec.first_seen sets) l →
           l = dict_keys out.
Proof.
  intros Hk Hconv Hwf Hsc. eexists. split; [by apply fuse_unfold|].
  assert (FusionSpec.is_ranking score_of (FusionSpec.first_seen sets)
            (dict_keys
               (sorted_reverse (λ x : string * CanonicalRecord, score x.2)
                  (map (λ kv : string * CanonicalRecord,
                          (kv.1,
                           with_score
                             (FusionSpec.final (RRFFusion._alpha self)
                                (RRFFusion._k self) sets kv.1) kv.2))
                     (RRFFusion.merge_results sets))))) as Hrank.
  { rewrite (fuse_keys self sets _ Hk Hconv Hwf
               (fuse_unfold self sets Hk Hconv Hwf)).
    eapply is_ranking_feq; [exact Hsc|].
    apply sorted_reverse_is_ranking.
    apply Forall_forall. intros id Hid.
    eapply feq_is_number_l. by apply Hsc. }
  split; [exact Hrank|].
  intros l Hl. eapply is_ranking_unique; [|exact Hl|exact Hrank].
  apply Forall_forall. intros id Hid.
  eapply feq_is_number_l, feq_sym. by apply Hsc.
Qed.

(** C6. For an engine that the constructor accepts, sets that are dicts
    and ranks that have a float, when the RRF and the CombMNZ scores of
    the ids are finite: with [alpha = 1] the final scores equal ([==]) the
    RRF scores and the fused ranking is the ranking by RRF score (ids of
    equal score in first-seen order), the only one there is; with
    [alpha = 0] likewise for the CombMNZ scores. *)
Theorem alpha_extremes (k : Z) (sets : list ResultSet) :
  (1 ≤ k)%Z →
  Forall dict_wf sets →
  FusionSpec.convertible k sets →
  Forall (λ id, finite (FusionSpec.rrf k sets id)
                ∧ finite (FusionSpec.comb_mnz sets id))
    (FusionSpec.first_seen sets) →
  let ids := FusionSpec.first_seen sets in
  (∀ id, id ∈ ids →
         feq (FusionSpec.final 1 k sets id) (FusionSpec.rrf k sets id))
  ∧ (∃ out,
       RRFFusion.fuse (RRFFusion.mk k 1) sets = Ok out
       ∧ FusionSpec.is_ranking (FusionSpec.rrf k sets) ids (dict_keys out)
       ∧ ∀ l, FusionSpec.is_ranking (FusionSpec.rrf k sets) ids l →
              l = dict_keys out)
  ∧ (∀ id, id ∈ ids →
           feq (FusionSpec.final 0 k sets id) (FusionSpec.comb_mnz sets id))
  ∧ (∃ out,
       RRFFusion.fuse (RRFFusion.mk k 0) sets = Ok out
       ∧ FusionSpec.is_ranking (FusionSpec.comb_mnz sets) ids (dict_keys out)
       ∧ ∀ l, FusionSpec.is_ranking (FusionSpec.comb_mnz sets) ids l →
              l = dict_keys out).
Proof.
  intros Hk Hwf Hconv Hfin ids.
  assert (∀ id, id ∈ ids →
                feq (FusionSpec.final 1 k sets id) (FusionSpec.rrf k sets id))
    as Hone.
  { intros id Hid. eapply Forall_forall in Hfin as [Hr Hm]; [|exact Hid].
    apply final_alpha_one; [by apply finite_is_number|done]. }
  assert (∀ id, id ∈ ids →
                feq (FusionSpec.final 0 k sets id)
                  (FusionSpec.comb_mnz sets id))
    as Hzero.
  { intros id Hid. eapply Forall_forall in Hfin as [Hr Hm]; [|exact Hid].
    apply final_alpha_zero; [done|by apply finite_is_number]. }
  split_and!; [exact Hone| |exact Hzero|].
  - by apply (fuse_ranking (RRFFusion.mk k 1)).
  - by apply (fuse_ranking (RRFFusion.mk k 0)).
Qed.

Lemma alpha_extremes_witness :
  (1 ≤ 60)%Z
  ∧ Forall dict_wf [sample_set1; sample_set2]
  ∧ FusionSpec.convertible 60 [sample_set1; sample_set2]
  ∧ Forall (λ id, finite (FusionSpec.rrf 60 [sample_set1; sample_set2] id)
                  ∧ finite (FusionSpec.comb_mnz [sample_set1; sample_set2] id))
      (FusionSpec.first_seen [sample_set1; sample_set2])
  ∧ (∃ out,
       RRFFusion.fuse (RRFFusion.mk 60 1) [sample_set1; sample_set2] = Ok out
       ∧ dict_keys out = ["L01/V1/2"; "L01/V1/1"; "L01/V2/3"])
  ∧ (∃ out,
       RRFFusion.fuse (RRFFusion.mk 60 0) [sample_set1; sample_set2] = Ok out
       ∧ dict_keys out = ["L01/V1/1"; "L01/V1/2"; "L01/V2/3"]).
Proof.
  assert (1 ≤ 60)%Z as Hk by lia.
  assert (Forall (λ id, finite (FusionSpec.rrf 60 [sample_set1; sample_set2] id)
                  ∧ finite (FusionSpec.comb_mnz [sample_set1; sample_set2] id))
            (FusionSpec.first_seen [sample_set1; sample_set2])) as Hfin.
  { apply (bool_decide_unpack _). vm_compute. reflexivity. }
  split_and!; [exact Hk|exact sample_sets_wf|exact sample_sets_convertible
               |exact Hfin| |].
  - destruct (alpha_extremes 60 [sample_set1; sample_set2] Hk sample_sets_wf
                sample_sets_convertible Hfin)
      as (_ & (out & Hfuse & _) & _).
    exists out. split; [exact Hfuse|].
    vm_compute in Hfuse. injection Hfuse as <-. reflexivity.
  - destruct (alpha_extremes 60 [sample_set1; sample_set2] Hk sample_sets_wf
                sample_sets_convertible Hfin)
      as (_ & _ & _ & (out & Hfuse & _)).
    exists out. split; [exact Hfuse|].
    vm_compute in Hfuse. injection Hfuse as <-. reflexivity.
Defined.

(** Two sets on which the fused ranking with [alpha = 1] is not the RRF
    ranking: the scores 1.7e308 of the second id add up to an infinity,
    its final score [rrf + 0 * inf] is NaN, which [<] places nowhere, and
    it stays behind the first id although its RRF score is the greater
    one. (For the two records of this answer Python's sort gives the
    same order: it compares the two keys once, with [<].) *)
Lemma alpha_one_counterexample :
  RRFFusion.init 60 1 = Ok (RRFFusion.mk 60 1)
  ∧ Forall dict_wf [overflow_set1; overflow_set2]
  ∧ FusionSpec.convertible 60 [overflow_set1; overflow_set2]
  ∧ (∃ out,
       RRFFusion.fuse (RRFFusion.mk 60 1) [overflow_set1; overflow_set2]
       = Ok out
       ∧ dict_keys out = ["L01/V1/b"; "L01/V1/a"])
  ∧ flt (FusionSpec.rrf 60 [overflow_set1; overflow_set2] "L01/V1/b")
      (FusionSpec.rrf 60 [overflow_set1; overflow_set2] "L01/V1/a")
  ∧ ¬ FusionSpec.is_ranking (FusionSpec.rrf 60 [overflow_set1; overflow_set2])
        (FusionSpec.first_seen [overflow_set1; overflow_set2])
        ["L01/V1/b"; "L01/V1/a"].
Proof.
  assert (flt (FusionSpec.rrf 60 [overflow_set1; overflow_set2] "L01/V1/b")
            (FusionSpec.rrf 60 [overflow_set1; overflow_set2] "L01/V1/a"))
    as Hlt by (vm_compute; reflexivity).
  split_and!.
  - vm_compute. reflexivity.
  - repeat constructor; apply (bool_decide_unpack _); vm_compute; reflexivity.
  - unfold FusionSpec.convertible.
    apply Forall_cons; split; [|apply Forall_cons; split; [|constructor]];
      intros rank Hr; simpl in Hr;
      do 2 (destruct rank as [|rank]; [vm_compute; exact I|]); lia.
  - eexists. split; [vm_compute; reflexivity|]. reflexivity.
  - exact Hlt.
  - intros (_ & Hs & _). apply StronglySorted_inv in Hs as [_ Hs].
    apply Forall_cons in Hs as [Hs _]. exact (Hs Hlt).
Qed.

(** ** The cluster projector *)

Lemma mapM_pure {A B} (f : A → res B) (g : A → B) (xs : list A) :
  Forall (λ x, f x = Ok (g x)) xs → mapM f xs = Ok (map g xs).
Proof.
  induction 1 as [|x xs Hx _ IH]; [done|].
  cbn [mapM map]. rewrite Hx, IH. done.
Qed.

Lemma dict_set_Forall {V} (P : string * V → Prop) k v (d : dict V) :
  Forall P d → P (k, v) → Forall P (dict_set k v d).
Proof.
  intros Hd Hkv. induction Hd as [|[k1 v1] d Hx Hd IH]; simpl.
  - by constructor.
  - case_decide; subst; constructor; done.
Qed.

Section projector_facts.
Implicit Types (groups : dict (list Image.t * string))
  (item : string * CanonicalRecord) (rs : ResultSet).

Lemma video_group_step_cases groups item :
  video_group_step groups item
  = match dict_get (video_id item.2) groups with
    | Some (images, u) =>
        dict_set (video_id item.2) (images ++ [image_of_item item], u) groups
    | None =>
        groups ++ [(video_id item.2, ([image_of_item item], url item.2))]
    end.
Proof.
  unfold video_group_step, dict_mem.
  destruct (dict_get (video_id item.2) groups) as [[images u]|] eqn:Hg.
  - rewrite bool_decide_eq_true_2 by by eexists. by rewrite Hg.
  - rewrite bool_decide_eq_false_2 by (by intros [? ?]).
    rewrite dict_get_set, decide_True by done.
    apply dict_get_None in Hg.
    rewrite (dict_set_absent _ _ groups) by done.
    induction groups as [|[k1 v1] groups IH]; simpl.
    + by rewrite decide_True.
    + simpl in Hg. apply not_elem_of_cons in Hg as [Hne Hg].
      rewrite decide_False by done. f_equal. by apply IH.
Qed.

Lemma video_group_step_keys groups item :
  (video_group_step groups item).*1
  = if decide (video_id item.2 ∈ groups.*1) then groups.*1
    else groups.*1 ++ [video_id item.2].
Proof.
  rewrite video_group_step_cases.
  destruct (dict_get (video_id item.2) groups) as [[images u]|] eqn:Hg.
  - assert (video_id item.2 ∈ groups.*1) as Hin
      by (apply dict_get_is_Some; by eexists).
    rewrite decide_True by done. by apply dict_set_present_keys.
  - apply dict_get_None in Hg. rewrite decide_False by done.
    by rewrite fmap_app.
Qed.



Lemma video_groups_loop_wf rs groups :
  dict_wf groups → dict_wf (foldl video_group_step groups rs).
Proof.
  revert groups. induction rs as [|item rs IH]; intros groups Hwf; [done|].
  cbn [foldl]. apply IH. unfold dict_wf. rewrite video_group_step_keys.
  case_decide; [done|]. apply NoDup_app. split_and!; [done| |apply NoDup_singleton].
  intros x Hx ->%list_elem_of_singleton. done.
Qed.

Lemma dict_set_images_perm (k : string) (imgs : list Image.t) (u : string)
    (x : Image.t) (groups : dict (list Image.t * string)) :
  dict_get k groups = Some (imgs, u) →
  mjoin ((λ g : string * (list Image.t * string), g.2.1)
           <$> dict_set k (imgs ++ [x], u) groups)
  ≡ₚ mjoin ((λ g : string * (list Image.t * string), g.2.1) <$> groups)
     ++ [x].
Proof.
  induction groups as [|[k1 [i1 u1]] groups IH]; [done|].
  cbn [dict_get dict_set]. case_decide as Hk.
  - intros [= -> ->]. cbn [fmap list_fmap mjoin list_join fst snd].
    rewrite <-!app_assoc. apply Permutation_app_head, Permutation_app_comm.
  - intros Hg. cbn [fmap list_fmap mjoin list_join fst snd].
    rewrite <-app_assoc. apply Permutation_app_head. by apply IH.
Qed.

Lemma video_group_step_perm (groups : dict (list Image.t * string))
    (item : string * CanonicalRecord) :
  mjoin ((λ g : string * (list Image.t * string), g.2.1)
           <$> video_group_step groups item)
  ≡ₚ mjoin ((λ g : string * (list Image.t * string), g.2.1) <$> groups)
     ++ [image_of_item item].
Proof.
  rewrite video_group_step_cases.
  destruct (dict_get (video_id item.2) groups) as [[images u]|] eqn:Hg.
  - by apply dict_set_images_perm.
  - rewrite fmap_app, join_app. done.
Qed.

Lemma video_group_step_nonempty (groups : dict (list Image.t * string))
    (item : string * CanonicalRecord) :
  Forall (λ g : string * (list Image.t * string), g.2.1 ≠ []) groups →
  Forall (λ g : string * (list Image.t * string), g.2.1 ≠ [])
    (video_group_step groups item).
Proof.
  intros Hne. rewrite video_group_step_cases.
  destruct (dict_get (video_id item.2) groups) as [[images u]|] eqn:Hg.
  - apply dict_set_Forall; [done|]. simpl. by destruct images.
  - apply Forall_app. split; [done|]. by apply Forall_singleton.
Qed.

Lemma video_groups_loop_nonempty (rs : ResultSet)
    (groups : dict (list Image.t * string)) :
  Forall (λ g : string * (list Image.t * string), g.2.1 ≠ []) groups →
  Forall (λ g : string * (list Image.t * string), g.2.1 ≠ [])
    (foldl video_group_step groups rs).
Proof.
  revert groups. induction rs as [|item rs IH]; intros groups Hne; [done|].
  cbn [foldl]. apply IH. by apply video_group_step_nonempty.
Qed.

Lemma video_groups_loop_perm (rs : ResultSet)
    (groups : dict (list Image.t * string)) :
  mjoin ((λ g : string * (list Image.t * string), g.2.1)
           <$> foldl video_group_step groups rs)
  ≡ₚ mjoin ((λ g : string * (list Image.t * string), g.2.1) <$> groups)
     ++ (image_of_item <$> rs).
Proof.
  revert groups. induction rs as [|item rs IH]; intros groups.
  - cbn [foldl fmap list_fmap]. by rewrite app_nil_r.
  - cbn [foldl]. rewrite IH, video_group_step_perm, fmap_cons.
    by rewrite <-app_assoc.
Qed.

Lemma video_groups_partition (rs : ResultSet) :
  dict_wf (video_groups rs)
  ∧ Forall (λ g : string * (list Image.t * string), g.2.1 ≠ [])
      (video_groups rs)
  ∧ mjoin ((λ g : string * (list Image.t * string), g.2.1)
             <$> video_groups rs)
    ≡ₚ image_of_item <$> rs.
Proof.
  unfold video_groups. split_and!.
  - apply video_groups_loop_wf. constructor.
  - apply video_groups_loop_nonempty. constructor.
  - by rewrite video_groups_loop_perm.
Qed.


Lemma foldl_fmap_scores (images : list Image.t) (a : float) :
  foldl (λ acc s, acc + s) a (Image.score <$> images)
  = foldl (λ acc img, acc + Image.score img) a images.
Proof.
  revert a. induction images as [|img images IH]; intros a; [done|].
  cbn [fmap list_fmap foldl]. apply IH.
Qed.

(** The mean that the code computes for a group that is not empty. *)
Lemma average_score_mean (m : option Mode) name images u :
  images ≠ [] →
  average_score images
  = Ok (ClusterSpec.mean_score (Cluster.mk m name images u)).
Proof.
  intros Hne. unfold average_score, ClusterSpec.mean_score, float_div_len.
  cbn [Cluster.image_list]. rewrite foldl_fmap_scores.
  by destruct images.
Qed.

(** In VIDEO mode the clusters are those of the grouping. *)
Lemma video_clusters_video rs :
  _create_video_clusters rs (Some VIDEO)
  = Ok (cluster_of_group (Some VIDEO) <$> video_groups rs).
Proof. unfold _create_video_clusters. by rewrite decide_True. Qed.

(** In every mode but VIDEO the clusters are those of the grouping,
    sorted stably by mean score, descending; no mean divides by zero. *)
Lemma video_clusters_sorted rs (m : option Mode) :
  m ≠ Some VIDEO →
  _create_video_clusters rs m
  = Ok (sorted_reverse ClusterSpec.mean_score
          (cluster_of_group m <$> video_groups rs)).
Proof.
  intros Hm. unfold _create_video_clusters.
  rewrite decide_False by done.
  rewrite (mapM_pure _
             (λ g : string * (list Image.t * string),
                (g.1, (ClusterSpec.mean_score (cluster_of_group m g), g.2)))).
  - simpl. f_equal.
    rewrite (sorted_reverse_fmap _ _ ClusterSpec.mean_score).
    + f_equal. rewrite <-!list_fmap_compose. apply list_fmap_ext.
      by intros i [v [images u]] _.
    + apply Forall_forall. intros x Hx.
      apply list_elem_of_fmap in Hx as ([v [images u]] & -> & _). done.
  - destruct (video_groups_partition rs) as (_ & Hne & _).
    eapply Forall_impl; [exact Hne|]. intros [v [images u]] Himg.
    cbn [fst snd] in *.
    by rewrite (average_score_mean m v images u).
Qed.

Lemma video_clusters_total rs (m : option Mode) :
  ∃ clusters,
    _create_video_clusters rs m = Ok clusters
    ∧ clusters ≡ₚ cluster_of_group m <$> video_groups rs.
Proof.
  destruct (decide (m = Some VIDEO)) as [->|Hm].
  - eexists. split; [apply video_clusters_video|done].
  - eexists. split; [by apply video_clusters_sorted|].
    apply sorted_reverse_perm.
Qed.

End projector_facts.



(** ** Temporal correlation *)

Section temporal_facts.
Import TemporalSpec.
Variables (video : string) (delta : CanonicalRecord → float).

Local Abbreviation step ti := (select_step video delta ti).

Lemma select_step_tracker ti cands st item st' :
  item ∈ cands → tracker_ok cands st →
  step ti st item = Ok st' → tracker_ok cands st'.
Proof.
  intros Hin Hst. unfold select_step. destruct item as [cid cr].
  destruct (split3 cid) as [[cv cf]|e]; simpl; [|done].
  case_decide; [|by intros [= <-]].
  destruct (within_interval (delta cr) ti) as [ok|e]; simpl; [|done].
  destruct (ok && (st.2 <? score cr)) eqn:Hb; intros [= <-]; [|done].
  apply andb_true_iff in Hb as [_ Hlt].
  unfold tracker_ok in *. simpl. split_and!; [done| |done].
  destruct st as [[c|] t]; simpl in *.
  - destruct Hst as (_ & Hpos & ->). by eapply flt_trans.
  - by subst t.
Qed.

Lemma select_candidate_tracker ti cands sel :
  select_candidate video delta ti (VRecords cands) = Ok sel →
  ∀ c, sel = Some c → c ∈ cands ∧ flt 0 (score c.2).
Proof.
  unfold select_candidate.
  destruct (foldM _ _ cands) as [st|e] eqn:Hloop; simpl; [|done].
  intros [= <-] c Hc.
  apply (foldM_invariant (tracker_ok cands)) in Hloop.
  - unfold tracker_ok in Hloop. rewrite Hc in Hloop.
    by destruct Hloop as (? & ? & _).
  - intros ?????. by eapply select_step_tracker.
  - done.
Qed.

Section choice.
Variable P : candidate → Prop.
Hypothesis P_positive : ∀ x, P x → flt 0 (score x.2).

Lemma is_choice_snoc_new pre sel c :
  is_choice P pre sel → P c → flt (tracker_of sel) (score c.2) →
  is_choice P (pre ++ [c]) (Some c).
Proof.
  intros Hch Hc Hlt. exists pre, []. split_and!; [done..| |constructor].
  apply Forall_forall. intros x Hx HPx.
  destruct sel as [s|]; simpl in *.
  - destruct Hch as (l1 & l2 & -> & Hs & H1 & H2).
    apply elem_of_app in Hx as [Hx|Hx];
      [|apply elem_of_cons in Hx as [Hx|Hx]].
    + eapply flt_trans; [|exact Hlt].
      eapply Forall_forall in H1; [by apply H1|done].
    + by subst x.
    + eapply Forall_forall in H2; [|exact Hx].
      destruct (flt_negative_transitive _ (score x.2) _
                  (flt_is_number_r _ _ (P_positive x HPx)) Hlt); [|done].
      by destruct (H2 HPx).
  - by destruct (Hch x Hx).
Qed.

Lemma is_choice_snoc_keep pre sel c :
  is_choice P pre sel → ¬ (P c ∧ flt (tracker_of sel) (score c.2)) →
  is_choice P (pre ++ [c]) sel.
Proof.
  intros Hch Hc. destruct sel as [s|]; simpl in *.
  - destruct Hch as (l1 & l2 & -> & Hs & H1 & H2).
    exists l1, (l2 ++ [c]). split_and!; [by rewrite <-app_assoc|done..|].
    apply Forall_app. split; [done|]. apply Forall_singleton.
    intros HPc Hlt. by apply Hc.
  - intros x Hx. apply elem_of_app in Hx as [Hx|Hx]; [by apply Hch|].
    apply list_elem_of_singleton in Hx as ->.
    intros HPc. apply Hc. split; [done|]. by apply P_positive.
Qed.
End choice.

Lemma within_interval_eval (d : float) (ti : Z) :
  within_interval d (Some ti)
  = Ok (bool_decide (fle 0 d ∧ float_le_int d ti = true)).
Proof.
  unfold within_interval. destruct (decide (fle 0 d)) as [H0|H0].
  - pose proof H0 as H0'. unfold fle in H0'. rewrite H0'. f_equal.
    destruct (float_le_int d ti) eqn:Hle.
    + symmetry. by apply bool_decide_eq_true.
    + symmetry. apply bool_decide_eq_false. by intros [_ ?].
  - pose proof H0 as H0'. unfold fle in H0'.
    apply not_true_is_false in H0'. rewrite H0'. f_equal.
    symmetry. apply bool_decide_eq_false. by intros [? _].
Qed.

Lemma select_step_eval (ti : Z) st (c : candidate) :
  video_of c.1 = Some (video_id c.2) →
  step (Some ti) st c
  = Ok (if bool_decide (in_window video delta ti c) && (st.2 <? score c.2)
        then (Some c, score c.2) else st).
Proof.
  destruct c as [cid cr]. unfold video_of, select_step. cbn [fst snd].
  destruct (split3 cid) as [[cv cf]|e]; [|done]. intros [= ->].
  cbn [mbind res_bind bind]. rewrite within_interval_eval.
  cbn [mbind res_bind bind].
  assert (in_window video delta ti (cid, cr)
          ↔ video_id cr = video
            ∧ fle 0 (delta cr) ∧ float_le_int (delta cr) ti = true) as Hiff
    by (unfold in_window; simpl; reflexivity).
  rewrite (bool_decide_ext _ _ Hiff). clear Hiff.
  case_decide as Hv.
  - destruct (decide (fle 0 (delta cr) ∧ float_le_int (delta cr) ti = true))
      as [Hw|Hw].
    + rewrite (bool_decide_eq_true_2 (fle _ _ ∧ _)) by done.
      rewrite (bool_decide_eq_true_2 (video_id cr = video ∧ _)) by done.
      simpl. by destruct (st.2 <? score cr).
    + rewrite (bool_decide_eq_false_2 (fle _ _ ∧ _)) by done.
      rewrite (bool_decide_eq_false_2 (video_id cr = video ∧ _))
        by naive_solver. done.
  - rewrite (bool_decide_eq_false_2 (video_id cr = video ∧ _)); [done|].
    by intros [? _].
Qed.

(** The loop selects the best candidate of positive score in the
    window, the first one among equals. *)
Lemma select_loop_choice (ti : Z) (d pre : list candidate) sel :
  ids_wf d →
  positive_choice video delta ti pre sel →
  ∃ sel', foldM (step (Some ti)) (sel, tracker_of sel) d
          = Ok (sel', tracker_of sel')
          ∧ positive_choice video delta ti (pre ++ d) sel'.
Proof.
  intros Hwf. revert pre sel.
  induction Hwf as [|c d Hc _ IH]; intros pre sel Hch.
  - exists sel. by rewrite app_nil_r.
  - cbn [foldM]. rewrite select_step_eval by done. simpl.
    replace (pre ++ c :: d) with ((pre ++ [c]) ++ d)
      by by rewrite <-app_assoc.
    destruct (bool_decide (in_window video delta ti c)
              && (tracker_of sel <? score c.2)) eqn:Hb.
    + apply andb_true_iff in Hb as [Hw%bool_decide_eq_true Hlt].
      assert (flt 0 (score c.2)) as Hpos.
      { destruct sel as [s|]; simpl in Hlt; [|done].
        destruct Hch as (l1 & l2 & _ & [_ Hs] & _).
        by eapply flt_trans. }
      apply (IH (pre ++ [c]) (Some c)).
      apply (is_choice_snoc_new
               (λ c, in_window video delta ti c ∧ flt 0 (score c.2)))
        with sel; [by intros ? [_ ?]|done|done|done].
    + apply (IH (pre ++ [c]) sel).
      apply (is_choice_snoc_keep
               (λ c, in_window video delta ti c ∧ flt 0 (score c.2)));
        [by intros ? [_ ?]|done|].
      intros [[Hw _] Hlt]. apply andb_false_iff in Hb
        as [Hb%bool_decide_eq_false|Hb]; [done|].
      unfold flt in Hlt. congruence.
Qed.

Lemma select_candidate_choice (ti : Z) (d : list candidate) :
  ids_wf d →
  ∃ sel, select_candidate video delta (Some ti) (VRecords d) = Ok sel
         ∧ positive_choice video delta ti d sel.
Proof.
  intros Hwf. unfold select_candidate.
  destruct (select_loop_choice ti d [] None Hwf) as (sel & Hloop & Hch).
  { by intros c ?%elem_of_nil. }
  simpl in Hloop. rewrite Hloop. simpl. by exists sel.
Qed.

End temporal_facts.

Section correlation_facts.
Import TemporalSpec.

Lemma correlate_one_total (before after : list candidate) (ti : Z)
    (now_id : string) (R : CanonicalRecord) :
  video_of now_id = Some (video_id R) → ids_wf before → ids_wf after →
  ∃ tr, correlate_one (VRecords before) (VRecords after) (Some ti) now_id R
        = Ok tr
        ∧ record_for positive_choice before after ti now_id R tr.
Proof.
  unfold correlate_one, record_for, video_of. intros Hid Hb Ha.
  destruct (split3 now_id) as [[video frame]|e]; [|done].
  injection Hid as ->. cbn [mbind res_bind bind].
  destruct (select_candidate_choice (video_id R)
              (λ c, time_in_seconds R - time_in_seconds c) ti before Hb)
    as (sb & -> & Hsb).
  destruct (select_candidate_choice (video_id R)
              (λ c, time_in_seconds c - time_in_seconds R) ti after Ha)
    as (sa & -> & Hsa).
  simpl. eexists. split; [done|].
  exists sb, sa. split_and!; [done..|].
  unfold entry_of.
  by destruct sb as [[bid b]|], sa as [[aid a]|].
Qed.

(** The sets the service builds from the answers of the back ends have
    ids that name the video of their record. *)
Lemma _format_milvus_result_ids_wf (cfg : Config) (hits : list MilvusHit)
    (d : ResultSet) :
  _format_milvus_result cfg hits = Ok d → ids_wf d ∧ dict_wf d.
Proof.
  unfold _format_milvus_result.
  refine (foldM_invariant (λ d : ResultSet, ids_wf d ∧ dict_wf d)
            _ hits [] d _ _); [|split; constructor].
  cbn beta. intros acc [[[id sc] u] t] acc' _ [Hids Hwf].
  destruct (split3 id) as [[v f]|e] eqn:Hs; [|done].
  cbn [mbind res_bind bind]. intros [= <-]. split.
  - apply dict_set_Forall; [done|]. unfold video_of. simpl. by rewrite Hs.
  - by apply dict_set_wf.
Qed.

Lemma apply_filters_ids_wf (cfg : Config)
    (elastic : ElasticPayload → ApiOutcome ElasticHit)
    (current : Results) (filters : Filters) (top_k : option Z)
    (d : ResultSet) :
  apply_filters cfg elastic current filters top_k = Ok d →
  ids_wf d ∧ dict_wf d.
Proof.
  unfold apply_filters.
  destruct (elastic _) as [hits| |];
    [|intros [= <-]; split; constructor..].
  refine (foldM_invariant (λ d : ResultSet, ids_wf d ∧ dict_wf d)
            _ hits [] d _ _); [|split; constructor].
  cbn beta. intros acc hit acc' _ [Hids Hwf].
  destruct (split3 (hit_id hit)) as [[v f]|e] eqn:Hs; [|done].
  cbn [mbind res_bind bind].
  destruct (Results_prior_score (hit_id hit) current) as [prior|e]; [|done].
  cbn [mbind res_bind bind]. intros [= <-]. split.
  - apply dict_set_Forall; [done|]. unfold video_of. simpl. by rewrite Hs.
  - by apply dict_set_wf.
Qed.

Lemma Forall2_zip_elem {A B} (g : string * A → res B)
    (l : list (string * A)) (vs : list B) (x : string * A) :
  Forall2 (λ x y, g x = Ok y) l vs → x ∈ l →
  ∃ y, g x = Ok y ∧ (x.1, y) ∈ zip l.*1 vs.
Proof.
  induction 1 as [|x' y' l vs Hxy _ IH]; [by intros ?%elem_of_nil|].
  intros [->|Hin]%elem_of_cons.
  - exists y'. split; [done|]. left.
  - destruct (IH Hin) as (y & ? & ?). exists y. split; [done|]. by right.
Qed.

End correlation_facts.

(** C1, as amended. With a time interval given, on result sets whose ids
    "prefix/videoId/frameId" name the video of their record, the temporal
    correlation returns a mapping over the now ids, in descending order of
    combined score when no combined score is NaN, and for every now record
    R: the before candidate is the one of maximum score (the first
    encountered among equals) among the before records of R's video with
    [0 <= R.time - c.time <= time_interval] (the difference as the floats
    give it) and a score above 0, or nothing if there is none; the after
    candidate likewise with [0 <= c.time - R.time <= time_interval]; and
    the combined score is R's score, plus the score of the selected
    before candidate if there is one, plus the score of the selected after
    candidate if there is one. *)
Theorem temporal_correlation_correct
    (now before after : ResultSet) (time_interval : Z) :
  dict_wf now →
  TemporalSpec.ids_wf now → TemporalSpec.ids_wf before →
  TemporalSpec.ids_wf after →
  ∃ out,
    temporal_correlation (VRecords now) (VRecords before) (VRecords after)
      (Some time_interval) = Ok out
    ∧ TemporalSpec.correlated TemporalSpec.positive_choice
        now before after time_interval out.
Proof.
  intros Hwf Hnow Hb Ha. unfold temporal_correlation.
  rewrite (foldM_set_fresh
             (λ item, correlate_one (VRecords before) (VRecords after)
                        (Some time_interval) item.1 item.2)) by done.
  destruct (mapM_total
              (λ item : string * CanonicalRecord,
                 correlate_one (VRecords before) (VRecords after)
                   (Some time_interval) item.1 item.2) now) as [vs Hvs].
  { eapply Forall_impl; [exact Hnow|]. intros [id R] Hid. simpl.
    destruct (correlate_one_total before after time_interval id R Hid Hb Ha)
      as (tr & -> & _). done. }
  rewrite Hvs. simpl. apply mapM_Ok_Forall2 in Hvs.
  assert ((zip now.*1 vs).*1 = now.*1) as Hkeys.
  { apply fst_zip. apply Forall2_length in Hvs.
    rewrite length_fmap. lia. }
  assert (dict_wf (zip now.*1 vs)) as Hwf0.
  { unfold dict_wf. by rewrite Hkeys. }
  eexists. split; [done|].
  rewrite dict_of_items_wf by by apply sorted_reverse_wf.
  split_and!.
  - unfold dict_keys. by rewrite sorted_reverse_perm, Hkeys.
  - intros Hnum. apply sorted_reverse_sorted.
    apply Forall_forall. intros x Hx.
    eapply Forall_forall in Hnum; [exact Hnum|].
    by apply sorted_reverse_elem.
  - intros id R Hin.
    destruct (Forall2_zip_elem _ _ _ _ Hvs Hin) as (tr & Htr & Hz).
    simpl in Htr, Hz. exists tr. split.
    + rewrite (dict_get_perm (zip now.*1 vs));
        [by apply dict_get_elem_wf|done|].
      symmetry. apply sorted_reverse_perm.
    + eapply Forall_forall in Hnow; [|exact Hin].
      destruct (correlate_one_total before after time_interval id R Hnow Hb Ha)
        as (tr' & Htr' & Hrec). congruence.
Qed.

Lemma temporal_correlation_correct_witness :
  dict_wf TemporalSpec.now_sample
  ∧ TemporalSpec.ids_wf TemporalSpec.now_sample
  ∧ TemporalSpec.ids_wf TemporalSpec.before_sample
  ∧ TemporalSpec.ids_wf TemporalSpec.after_sample
  ∧ ∃ out,
      temporal_correlation (VRecords TemporalSpec.now_sample)
        (VRecords TemporalSpec.before_sample)
        (VRecords TemporalSpec.after_sample) (Some 60%Z)
      = Ok out
      ∧ TemporalSpec.correlated TemporalSpec.positive_choice
          TemporalSpec.now_sample TemporalSpec.before_sample
          TemporalSpec.after_sample 60 out
      ∧ out
        = [("L01/V1/30",
            TemporalRecord.mk
              (Entry.mk "L01/V1/30" 30 0.4 "http://video")
              (Some (Entry.mk "L01/V1/25" 25 0.9 "http://video"))
              (Some (Entry.mk "L01/V1/40" 40 0.2 "http://video"))
              1.5);
           ("L01/V2/50",
            TemporalRecord.mk
              (Entry.mk "L01/V2/50" 50 0.6 "http://video")
              None None 0.6)].
Proof.
  assert (dict_wf TemporalSpec.now_sample) as H1
    by (apply (bool_decide_unpack _); vm_compute; reflexivity).
  assert (TemporalSpec.ids_wf TemporalSpec.now_sample) as H2
    by (repeat constructor).
  assert (TemporalSpec.ids_wf TemporalSpec.before_sample) as H3
    by (repeat constructor).
  assert (TemporalSpec.ids_wf TemporalSpec.after_sample) as H4
    by (repeat constructor).
  split_and!; [exact H1|exact H2|exact H3|exact H4|].
  destruct (temporal_correlation_correct TemporalSpec.now_sample
              TemporalSpec.before_sample TemporalSpec.after_sample 60
              H1 H2 H3 H4) as (out & Hout & Hcorr).
  exists out. split_and!; [exact Hout|exact Hcorr|].
  vm_compute in Hout. injection Hout as <-. reflexivity.
Defined.

(** C1 as it is worded fails: the only before candidate lies in the
    window of the now record and so is the best one, yet the code selects
    nothing, because its score is not above 0. *)
Lemma temporal_selection_counterexample :
  ∃ out,
    temporal_correlation (VRecords TemporalSpec.now_example)
      (VRecords TemporalSpec.before_example) (VRecords []) (Some 60%Z)
    = Ok out
    ∧ ¬ TemporalSpec.correlated TemporalSpec.stated_choice
          TemporalSpec.now_example TemporalSpec.before_example [] 60 out.
Proof.
  eexists. split; [vm_compute; reflexivity|].
  intros (_ & _ & Hrec).
  destruct (Hrec "L01/V1/30" (sample_record "V1" 30 0.4))
    as (tr & Hget & sb & sa & Hsb & _ & Htr); [left|].
  destruct sb as [c|].
  - subst tr. vm_compute in Hget. discriminate Hget.
  - apply (Hsb ("L01/V1/25", sample_record "V1" 25 (-0.5))); [left|].
    apply (bool_decide_unpack _). vm_compute. reflexivity.
Qed.

(** C9. A candidate whose score is not above 0 is never selected, also
    when it is the only candidate of the video inside the window: a
    selected before or after entry has a positive score, a set of
    candidates without a positive score gives no match, and then the
    combined score is the score of the now record alone. *)
Theorem nonpositive_never_selected
    (before after : ResultSet) (time_interval : option Z)
    (now_id : string) (R : CanonicalRecord) (tr : TemporalRecord.t) :
  correlate_one (VRecords before) (VRecords after) time_interval now_id R
  = Ok tr →
  (∀ e, TemporalRecord.before tr = Some e → flt 0 (Entry.score e))
  ∧ (∀ e, TemporalRecord.after tr = Some e → flt 0 (Entry.score e))
  ∧ (Forall (λ c, fle (score c.2) 0) before → TemporalRecord.before tr = None)
  ∧ (Forall (λ c, fle (score c.2) 0) after → TemporalRecord.after tr = None)
  ∧ (Forall (λ c, fle (score c.2) 0) before →
     Forall (λ c, fle (score c.2) 0) after →
     TemporalRecord.score tr = score R).
Proof.
  unfold correlate_one.
  destruct (split3 now_id) as [[video frame]|e]; [|done].
  cbn [mbind res_bind bind].
  destruct (select_candidate video _ time_interval (VRecords before))
    as [sb|e] eqn:Hsb; [|done].
  cbn [mbind res_bind bind].
  destruct (select_candidate video _ time_interval (VRecords after))
    as [sa|e] eqn:Hsa; [|done].
  cbn [mbind res_bind bind]. intros [= <-]. cbn [TemporalRecord.before
    TemporalRecord.after TemporalRecord.score].
  pose proof (select_candidate_tracker _ _ _ _ _ Hsb) as Hb.
  pose proof (select_candidate_tracker _ _ _ _ _ Hsa) as Ha.
  assert (Forall (λ c, fle (score c.2) 0) before → sb = None) as Hnb.
  { intros Hall. destruct sb as [c|]; [|done].
    destruct (Hb c eq_refl) as [Hin Hpos].
    eapply Forall_forall in Hall; [|exact Hin].
    by apply fle_not_flt in Hall. }
  assert (Forall (λ c, fle (score c.2) 0) after → sa = None) as Hna.
  { intros Hall. destruct sa as [c|]; [|done].
    destruct (Ha c eq_refl) as [Hin Hpos].
    eapply Forall_forall in Hall; [|exact Hin].
    by apply fle_not_flt in Hall. }
  split_and!.
  - intros e. destruct sb as [[bid b]|]; [|done]. intros [= <-].
    by destruct (Hb _ eq_refl).
  - intros e. destruct sa as [[aid a]|]; [|done]. intros [= <-].
    by destruct (Ha _ eq_refl).
  - intros Hall. by rewrite Hnb.
  - intros Hall. by rewrite Hna.
  - intros H1 H2. by rewrite Hnb, Hna.
Qed.

Lemma nonpositive_never_selected_witness :
  correlate_one (VRecords TemporalSpec.before_example) (VRecords [])
    (Some 60%Z) "L01/V1/30" (sample_record "V1" 30 0.4)
  = Ok (TemporalRecord.mk
          (Entry.mk "L01/V1/30" 30 0.4 "http://video")
          None None 0.4)
  ∧ (Forall (λ c : string * CanonicalRecord, fle (score c.2) 0)
       TemporalSpec.before_example →
     TemporalRecord.before
       (TemporalRecord.mk
          (Entry.mk "L01/V1/30" 30 0.4 "http://video")
          None None 0.4) = None).
Proof.
  assert (correlate_one (VRecords TemporalSpec.before_example) (VRecords [])
            (Some 60%Z) "L01/V1/30" (sample_record "V1" 30 0.4)
          = Ok (TemporalRecord.mk
                  (Entry.mk "L01/V1/30" 30 0.4 "http://video")
                  None None 0.4)) as H by (vm_compute; reflexivity).
  split; [exact H|].
  apply (nonpositive_never_selected TemporalSpec.before_example [] (Some 60%Z)
           "L01/V1/30" (sample_record "V1" 30 0.4) _ H).
Defined.

(** ** The orchestrator *)

(** C8. Restoring a state whose handle the cache does not know (the
    lookup returns nothing, the handle being unknown or expired) answers
    with status "success", no clusters and the handle that was supplied;
    it raises nothing and leaves the world as it is. *)
Theorem restore_unknown_handle (cfg : Config) (mode : Mode)
    (state_id : string) (w : World) :
  get_cached_result (Some state_id) w = (Ok None, w) →
  restore_chat cfg mode state_id w
  = (Ok (mkResponse "success" (Some mode) [] (Some state_id) []), w).
Proof.
  intros Hget. unfold restore_chat, mbind, Svc_bind.
  by rewrite Hget.
Qed.

Lemma restore_unknown_handle_witness :
  get_cached_result (Some "0x0123456789ab") empty_world
  = (Ok None, empty_world)
  ∧ restore_chat sample_config VIDEO "0x0123456789ab" empty_world
    = (Ok (mkResponse "success" (Some VIDEO) [] (Some "0x0123456789ab") []),
       empty_world).
Proof.
  assert (get_cached_result (Some "0x0123456789ab") empty_world
          = (Ok None, empty_world)) as H by reflexivity.
  split; [exact H|].
  apply (restore_unknown_handle sample_config VIDEO "0x0123456789ab"
           empty_world H).
Defined.

Section filter_facts.
Variable cfg : Config.
Variable elastic : ElasticPayload → ApiOutcome ElasticHit.
Import SessionSpec.

Lemma filter_chat_unfold (request : ChatFilter) (w : World) :
  filter_chat cfg elastic request w
  = match apply_filters cfg elastic (prior_results request w)
            (cf_filters request) (cf_top_k request) with
    | Raise e => (Raise e, w)
    | Ok result_dict =>
        match process_results cfg (RRecords result_dict)
                (cf_mode request) false with
        | Raise e => (Raise e, w)
        | Ok clusters =>
            (Ok (success (cf_mode request) (handle_drawn w (drawn w))
                   clusters []),
             stored_under_next
               (mkCached (prior_temporal request w) (RRecords result_dict)
                  None) w)
        end
    end.
Proof.
  unfold filter_chat, mbind, Svc_bind, get_cached_result, lift,
    prior_results, prior_temporal, stored_under_next, cache_result,
    _generate_state_id, mret, Svc_ret.
  cbn [fst snd].
  destruct (if redis_up w then redis w !! cache_key (cf_state_id request)
            else None) as [c|];
    destruct (apply_filters _ _ _ _ _) as [result_dict|e]; try done;
    destruct (process_results _ _ _ _) as [clusters|e]; try done;
    cbn [redis_up redis entropy drawn]; by destruct (redis_up w).
Qed.



End filter_facts.





Section translation_facts.
Variable cfg : Config.
Variable milvus : MilvusPayload → ApiOutcome MilvusHit.
Variable elastic : ElasticPayload → ApiOutcome ElasticHit.
Variable translator : string → option string.
Hypothesis endpoint_set : is_Some (translation_endpoint cfg).

Lemma _translate_text_total text :
  is_ok (_translate_text cfg translator text).
Proof.
  unfold _translate_text. destruct endpoint_set as [ep ->].
  by destruct (translator text).
Qed.

Lemma _translate_text_fallback text :
  translator text = None → _translate_text cfg translator text = Ok text.
Proof.
  intros Hfail. unfold _translate_text.
  destruct endpoint_set as [ep ->]. by rewrite Hfail.
Qed.

Lemma text_search_translation_failure request w e :
  translator (st_text request) = None →
  (text_search cfg milvus translator request w).1 = Raise e →
  (text_search cfg milvus translator (without_translation request) w).1
  = Raise e.
Proof.
  intros Hfail. destruct request as [text mode coll sid topk tm].
  destruct tm; [|done]. simpl in Hfail.
  unfold text_search, without_translation. cbn [st_text st_mode st_collection
    st_state_id st_top_k st_translate_mode].
  rewrite (_translate_text_fallback text Hfail).
  unfold _ensemble_text_search. cbn [st_text st_mode st_collection
    st_state_id st_top_k st_translate_mode].
  destruct (is_blank text); [done|].
  unfold mbind, Svc_bind, lift, mret, Svc_ret.
  repeat (match goal with
          | |- context [match ?x with _ => _ end] => destruct x
          end; cbn [fst snd]; try done).
Qed.

Lemma translate_event_fallback (ev : option TemporalEvent) :
  Forall (λ t, translator t = None) (event_texts ev) →
  ∃ ts, translate_event cfg translator ev = Ok (ev, ts).
Proof.
  intros Hfail. unfold translate_event, event_texts in *.
  destruct ev as [[text image filters]|]; [|by eexists].
  cbn [ev_text ev_image ev_filters] in *.
  destruct (falsy text) eqn:Hf; [by eexists|].
  apply Forall_cons in Hfail as [Hfail _].
  rewrite _translate_text_fallback by done.
  cbn [mbind res_bind bind].
  destruct text as [t|]; [|done]. by eexists.
Qed.

Lemma temporal_search_translation_failure request w e :
  Forall (λ t, translator t = None) (temporal_texts request) →
  (visual_temporal_search cfg milvus elastic translator request w).1
  = Raise e →
  (visual_temporal_search cfg milvus elastic translator
     (without_translation_temporal request) w).1 = Raise e.
Proof.
  intros Hfail. destruct request as [coll now before after ti tm].
  destruct tm; [|done].
  unfold temporal_texts in Hfail.
  cbn [tp_now tp_before tp_after] in Hfail.
  apply Forall_app in Hfail as [Hnow Hfail].
  apply Forall_app in Hfail as [Hbefore Hafter].
  unfold visual_temporal_search, without_translation_temporal.
  cbn [tp_collection tp_now tp_before tp_after tp_time_interval
    tp_translate_mode].
  destruct (translate_event_fallback now Hnow) as [t1 ->].
  destruct (translate_event_fallback before Hbefore) as [t2 ->].
  destruct (translate_event_fallback after Hafter) as [t3 ->].
  cbn [mbind res_bind bind].
  destruct now as [now|]; [|done].
  unfold mbind, Svc_bind, lift, mret, Svc_ret, cache_result,
    _generate_state_id, get_cached_result.
  cbn [redis_up redis entropy drawn].
  destruct (redis_up w);
    repeat (match goal with
            | |- context [match ?x with _ => _ end] => destruct x
            end; cbn [fst snd]; try done).
Qed.

End translation_facts.

(** C7, as amended. In a service that has its translation endpoint
    configured, the translation step never raises, and when the
    translation back end fails on a text (unreachable, error status or
    unreadable answer) it returns the text unchanged; a text search whose
    translation fails, and a temporal search the translation of whose
    texts fails, raises only what the same search without translation
    raises, so the failure of the translation is never the error of a
    search. *)
Theorem translation_failure_recovered (cfg : Config)
    (milvus : MilvusPayload → ApiOutcome MilvusHit)
    (elastic : ElasticPayload → ApiOutcome ElasticHit)
    (translator : string → option string) :
  is_Some (translation_endpoint cfg) →
  (∀ text, is_ok (_translate_text cfg translator text))
  ∧ (∀ text, translator text = None →
             _translate_text cfg translator text = Ok text)
  ∧ (∀ request w e,
       translator (st_text request) = None →
       (text_search cfg milvus translator request w).1 = Raise e →
       (text_search cfg milvus translator (without_translation request) w).1
       = Raise e)
  ∧ (∀ request w e,
       Forall (λ t, translator t = None) (temporal_texts request) →
       (visual_temporal_search cfg milvus elastic translator request w).1
       = Raise e →
       (visual_temporal_search cfg milvus elastic translator
          (without_translation_temporal request) w).1 = Raise e).
Proof.
  intros Hep. split_and!.
  - intros text. by apply _translate_text_total.
  - intros text. by apply _translate_text_fallback.
  - intros request w e. by apply text_search_translation_failure.
  - intros request w e. by apply temporal_search_translation_failure.
Qed.

Lemma translation_failure_recovered_witness :
  is_Some (translation_endpoint sample_config)
  ∧ translator_down (st_text translated_search_request) = None
  ∧ _translate_text sample_config translator_down
      (st_text translated_search_request)
    = Ok (st_text translated_search_request)
  ∧ is_ok (text_search sample_config milvus_sample translator_down
             translated_search_request empty_world).1.
Proof.
  assert (is_Some (translation_endpoint sample_config)) as H
    by (by eexists).
  assert (translator_down (st_text translated_search_request) = None) as Hd
    by reflexivity.
  split_and!; [exact H|exact Hd| |exact I].
  exact (proj1 (proj2 (translation_failure_recovered sample_config
                         milvus_sample elastic_down translator_down H))
           (st_text translated_search_request) Hd).
Defined.

(** C7 as it is worded fails: in a service started without
    [TRANSLATION_ENDPOINT] the assertion that stands before the [try]
    block of [_translate_text] raises, and a text search that asks for
    translation ends with that error, while the same search without
    translation answers. *)
Lemma translation_assert_counterexample :
  translator_down (st_text translated_search_request) = None
  ∧ _translate_text no_endpoint_config translator_down
      (st_text translated_search_request)
    = Raise AssertionError
  ∧ (text_search no_endpoint_config milvus_sample translator_down
       translated_search_request empty_world).1
    = Raise AssertionError
  ∧ is_ok (text_search no_endpoint_config milvus_sample translator_down
             (without_translation translated_search_request) empty_world).1.
Proof. split_and!; [reflexivity|reflexivity|reflexivity|exact I]. Qed.

(** ** Stores go under generated handles only *)

Section fresh_writes_facts.
Import SessionSpec.

Lemma fresh_writes_refl w : fresh_writes w w.
Proof. by split_and!. Qed.

Lemma fresh_writes_trans w1 w2 w3 :
  fresh_writes w1 w2 → fresh_writes w2 w3 → fresh_writes w1 w3.
Proof.
  intros (He1 & Hu1 & Hd1 & Hk1) (He2 & Hu2 & Hd2 & Hk2).
  split_and!; [congruence|congruence|lia|].
  intros key Hkey. rewrite Hk2, Hk1; [done|..].
  - intros i Hi. apply Hkey. lia.
  - intros i Hi. unfold handle_drawn. rewrite He1.
    apply Hkey. lia.
Qed.

Lemma FW_ret {A} (a : A) : FreshWrites (mret a).
Proof. intros w. apply fresh_writes_refl. Qed.

Lemma FW_lift {A} (r : res A) : FreshWrites (lift r).
Proof. intros w. apply fresh_writes_refl. Qed.

Lemma FW_get state_id : FreshWrites (get_cached_result state_id).
Proof. intros w. apply fresh_writes_refl. Qed.

Lemma FW_bind {A B} (m : Svc A) (f : A → Svc B) :
  FreshWrites m → (∀ a, FreshWrites (f a)) → FreshWrites (m ≫= f).
Proof.
  intros Hm Hf w. unfold mbind, Svc_bind. specialize (Hm w).
  destruct (m w) as [[a|e] w1]; [|done].
  eapply fresh_writes_trans; [exact Hm|apply Hf].
Qed.

Lemma FW_gen : FreshWrites _generate_state_id.
Proof.
  intros w. unfold _generate_state_id, fresh_writes. simpl.
  split_and!; [done|done|lia|done].
Qed.

(** The one place where the cache is written: the handle is drawn and
    the state goes under it. *)
Lemma FW_gen_cache {B} (value : string → Cached) (rest : string → Svc B) :
  (∀ new, FreshWrites (rest new)) →
  FreshWrites (new_state_id ← _generate_state_id;
               _ ← cache_result new_state_id (value new_state_id);
               rest new_state_id).
Proof.
  intros Hrest w.
  unfold mbind, Svc_bind, _generate_state_id, cache_result.
  cbn [redis_up redis entropy drawn].
  set (new := String.append "0x" (token_hex 6 (entropy w (drawn w)))).
  assert (fresh_writes w
            (mkWorld (redis_up w)
               (if redis_up w
                then <[cache_key (Some new) := value new]> (redis w)
                else redis w) (entropy w) (S (drawn w)))) as Hstore.
  { split_and!; [done|done|simpl; lia|]. intros key Hkey. simpl.
    destruct (redis_up w); [|done].
    apply lookup_insert_ne. intros <-.
    apply (Hkey (drawn w)); [simpl; lia|done]. }
  destruct (redis_up w) eqn:Hup.
  - eapply fresh_writes_trans; [exact Hstore|]. apply Hrest.
  - eapply fresh_writes_trans; [exact Hstore|].
    specialize (Hrest new
                  (mkWorld (redis_up w) (redis w) (entropy w) (S (drawn w)))).
    by rewrite Hup in *.
Qed.

End fresh_writes_facts.

(** Decompose an operation into its steps. *)
Ltac fresh_writes_steps :=
  repeat first
    [ apply FW_ret
    | apply FW_lift
    | apply FW_get
    | apply FW_gen
    | apply FW_gen_cache; intros
    | apply FW_bind; [|intros]
    | match goal with
      | |- SessionSpec.FreshWrites (match ?x with _ => _ end) => destruct x
      | |- SessionSpec.FreshWrites (let _ := _ in _) => cbv zeta
      end ].

Section operations_fresh.
Variable cfg : Config.
Variable milvus : MilvusPayload → ApiOutcome MilvusHit.
Variable elastic : ElasticPayload → ApiOutcome ElasticHit.
Variable translator : string → option string.
Import SessionSpec.

Lemma text_search_fresh request :
  FreshWrites (text_search cfg milvus translator request).
Proof. unfold text_search. fresh_writes_steps. Qed.

Lemma visual_search_fresh collection mode text base64_images :
  FreshWrites (visual_search cfg milvus collection mode text base64_images).
Proof. unfold visual_search. fresh_writes_steps. Qed.

Lemma relevance_feedback_fresh request :
  FreshWrites (relevance_feedback cfg milvus request).
Proof. unfold relevance_feedback. fresh_writes_steps. Qed.

Lemma visual_temporal_search_fresh request :
  FreshWrites (visual_temporal_search cfg milvus elastic translator request).
Proof. unfold visual_temporal_search. fresh_writes_steps. Qed.

Lemma change_clustering_mode_fresh state_id new_mode :
  FreshWrites (change_clustering_mode cfg state_id new_mode).
Proof. unfold change_clustering_mode. fresh_writes_steps. Qed.

Lemma filter_chat_fresh request : FreshWrites (filter_chat cfg elastic request).
Proof. unfold filter_chat. fresh_writes_steps. Qed.

Lemma restore_chat_fresh mode state_id :
  FreshWrites (restore_chat cfg mode state_id).
Proof. unfold restore_chat. fresh_writes_steps. Qed.

End operations_fresh.

(** C3, as amended. Whatever an operation stores goes under a state
    handle that [_generate_state_id] draws during that operation, never
    under a key taken from the request: the operation leaves the random
    source as it is, only reads it further, and the state stored under any
    key other than the handles drawn during the operation is unchanged.
    (Nothing checks that a drawn handle is unused.) *)
Theorem stores_under_generated_handles (cfg : Config)
    (milvus : MilvusPayload → ApiOutcome MilvusHit)
    (elastic : ElasticPayload → ApiOutcome ElasticHit)
    (translator : string → option string)
    (op : Operation) (w : World) :
  let w' := world_after cfg milvus elastic translator op w in
  entropy w' = entropy w
  ∧ redis_up w' = redis_up w
  ∧ (drawn w ≤ drawn w')%nat
  ∧ ∀ key,
      (∀ i, (drawn w ≤ i < drawn w')%nat →
            key ≠ cache_key (Some (SessionSpec.handle_drawn w i))) →
      redis w' !! key = redis w !! key.
Proof.
  destruct op; simpl.
  - apply text_search_fresh.
  - apply visual_search_fresh.
  - apply relevance_feedback_fresh.
  - apply visual_temporal_search_fresh.
  - apply change_clustering_mode_fresh.
  - apply filter_chat_fresh.
  - apply restore_chat_fresh.
Qed.

Lemma stores_under_generated_handles_witness :
  let op := VisualSearch None MOMENT (Some "a") [] in
  let w' :=
    world_after sample_config milvus_sample elastic_down translator_down op
      empty_world in
  (∀ i, (drawn empty_world ≤ i < drawn w')%nat →
        "search_0xffffffffffff"
        ≠ cache_key (Some (SessionSpec.handle_drawn empty_world i)))
  ∧ redis w' !! "search_0xffffffffffff"
    = redis empty_world !! "search_0xffffffffffff".
Proof.
  intros op w'.
  assert (∀ i, (drawn empty_world ≤ i < drawn w')%nat →
               "search_0xffffffffffff"
               ≠ cache_key (Some (SessionSpec.handle_drawn empty_world i)))
    as H by (intros i _; vm_compute; discriminate).
  split; [exact H|].
  exact (proj2 (proj2 (proj2 (stores_under_generated_handles sample_config
                                milvus_sample elastic_down translator_down
                                op empty_world)))
           "search_0xffffffffffff" H).
Defined.

(** C3 as it is worded fails when the random source repeats itself: two
    searches draw the same handle, and the state that the first search
    stored under the handle it issued is overwritten by the second. *)
Lemma issued_handle_overwritten_counterexample :
  ∃ resp1 w1 resp2 w2 h c1 c2,
    visual_search sample_config milvus_sample None MOMENT (Some "a") []
      empty_world = (Ok resp1, w1)
    ∧ state_id resp1 = Some h
    ∧ redis w1 !! cache_key (Some h) = Some c1
    ∧ visual_search sample_config milvus_sample None MOMENT (Some "b") [] w1
      = (Ok resp2, w2)
    ∧ redis w2 !! cache_key (Some h) = Some c2
    ∧ c1 ≠ c2.
Proof.
  do 7 eexists. split_and!.
  - reflexivity.
  - reflexivity.
  - apply lookup_insert_eq.
  - reflexivity.
  - apply lookup_insert_eq.
  - intros [=].
Qed.


(** ** Worked examples of the design document *)

(** CombMNZ: a document with scores 0.8 and 0.6 in two sets gets
    (0.8 + 0.6) * 2, which is the float 2.8. *)
Example comb_mnz_literal :
  dict_get "L01/V1/1" (RRFFusion.comb_mnz_fusion [sample_set1; sample_set2])
  = Some 2.8.
Proof. reflexivity. Qed.

(** RRF with k = 60: rank 0 in the first set and rank 2 in the second give
    1/61 + 1/63. *)
Example rrf_literal :
  ∃ rrf_scores,
    RRFFusion.reciprocal_rank_fusion (RRFFusion.mk 60 0.1)
      [sample_set1; sample_set2] = Ok rrf_scores
    ∧ dict_get "L01/V1/1" rrf_scores = Some (1 / 61 + 1 / 63).
Proof. eexists. split; [vm_compute; reflexivity|reflexivity]. Qed.

(** Temporal: now at 30 s (V1, 0.4), before candidates at 10 s (0.5) and
    25 s (0.9), interval 60: the candidate at 25 s is selected and the
    combined score is 1.3. *)
Example temporal_literal :
  ∃ tr,
    temporal_correlation
      (VRecords [("L01/V1/30", sample_record "V1" 30 0.4)])
      (VRecords [("L01/V1/10", sample_record "V1" 10 0.5);
                 ("L01/V1/25", sample_record "V1" 25 0.9)])
      (VRecords []) (Some 60%Z)
    = Ok [("L01/V1/30", tr)]
    ∧ Entry.id <$> TemporalRecord.before tr = Some "L01/V1/25"
    ∧ TemporalRecord.after tr = None
    ∧ TemporalRecord.score tr = 1.3.
Proof.
  eexists. split; [vm_compute; reflexivity|].
  split_and!; reflexivity.
Qed.

(** A time interval of 0 asks for equal timestamps; and the difference
    that is compared with the interval is the rounded one:
    61 - 0.9999999999999999 is the float 60. *)
Example zero_interval_literal :
  within_interval (30 - 30) (Some 0%Z) = Ok true
  ∧ within_interval (30 - 29) (Some 0%Z) = Ok false
  ∧ within_interval (61 - 0.9999999999999999) (Some 60%Z) = Ok true.
Proof. split_and!; reflexivity. Qed.

(** A state handle is "0x" followed by twelve hexadecimal digits. *)
Example state_id_literal :
  SessionSpec.handle 20015998343868%N = "0x123456789abc".
Proof. reflexivity. Qed.

(** * Further properties of the code *)

(** ** The fusion engine: parameters *)

(** The constructor accepts exactly [k >= 1] and [0 <= alpha <= 1], and
    raises [ValueError] otherwise (also on an [alpha] that is NaN); the
    engine of the service, built with the defaults, is accepted. *)
Theorem init_validates (k : Z) (alpha : float) :
  ((1 ≤ k)%Z ∧ fle 0 alpha ∧ fle alpha 1 →
   RRFFusion.init k alpha = Ok (RRFFusion.mk k alpha))
  ∧ (¬ ((1 ≤ k)%Z ∧ fle 0 alpha ∧ fle alpha 1) →
     RRFFusion.init k alpha = Raise ValueError)
  ∧ RRFFusion.init RRFFusion.default_k RRFFusion.default_alpha = Ok fusion.
Proof.
  unfold RRFFusion.init, RRFFusion.set_k, RRFFusion.set_alpha, fle.
  split_and!.
  - intros (Hk & H0 & H1). rewrite decide_False by lia.
    cbn [mbind res_bind bind RRFFusion._k RRFFusion._alpha].
    by rewrite H0, H1.
  - intros Hn. destruct (decide (k < 1)%Z) as [Hk|Hk]; [done|].
    cbn [mbind res_bind bind RRFFusion._k RRFFusion._alpha].
    destruct (0 <=? alpha) eqn:H0; [|done].
    destruct (alpha <=? 1) eqn:H1; [|done].
    exfalso. apply Hn. split_and!; [lia|done..].
  - reflexivity.
Qed.

Lemma init_validates_witness :
  ((1 ≤ 20)%Z ∧ fle 0 0.5 ∧ fle 0.5 1)
  ∧ RRFFusion.init 20 0.5 = Ok (RRFFusion.mk 20 0.5).
Proof.
  assert ((1 ≤ 20)%Z ∧ fle 0 0.5 ∧ fle 0.5 1) as H by (split_and!; done).
  split; [exact H|].
  exact (proj1 (init_validates 20 0.5) H).
Defined.

(** ** The fusion engine: ties *)




(** ** Formatting the answer of the vector back end *)

Lemma split3_raises (s : string) (e : exn) :
  split3 s = Raise e → e = ValueError.
Proof.
  unfold split3.
  destruct (split "/" s) as [|a [|b [|c [|??]]]]; by intros [= <-].
Qed.

Lemma format_loop_facts (cfg : Config) (hits : list MilvusHit)
    (acc d : ResultSet) :
  foldM
    (λ result_dict (result : MilvusHit),
       let '(id, sc, u, t) := result in
       '(video_id, frame_id) ← split3 id;
       Ok (dict_set id (mkRecord sc u (KEYFRAMES_DIR cfg) video_id frame_id t)
             result_dict))
    acc hits = Ok d →
  Forall (λ h : MilvusHit, is_ok (split3 h.1.1.1)) hits
  ∧ d.*1
    = foldl (λ seen x, if decide (x ∈ seen) then seen else seen ++ [x])
        acc.*1 ((λ h : MilvusHit, h.1.1.1) <$> hits)
  ∧ ∀ id r, dict_get id d = Some r →
      dict_get id acc = Some r
      ∨ (split3 id = Ok (video_id r, frame_id r)
         ∧ path r = KEYFRAMES_DIR cfg
         ∧ (id, score r, url r, time_in_seconds r) ∈ hits).
Proof.
  revert acc. induction hits as [|[[[hid sc] u] t] hits IH]; intros acc.
  - intros [= <-]. split_and!; [constructor|done|by left].
  - cbn [foldM]. destruct (split3 hid) as [[v f]|e] eqn:Hs; [|done].
    cbn [mbind res_bind bind]. intros Hloop.
    destruct (IH _ Hloop) as (Hvalid & Hkeys & Hrec). split_and!.
    + constructor; [simpl; by rewrite Hs|done].
    + rewrite Hkeys, dict_set_keys. done.
    + intros id r Hget. destruct (Hrec id r Hget) as [Hacc|(? & ? & ?)].
      * rewrite dict_get_set in Hacc. case_decide as Hid; [|by left].
        injection Hacc as <-. subst id. right. split_and!; [done|done|left].
      * right. split_and!; [done|done|by right].
Qed.

(** [_format_milvus_result] raises, and then [ValueError], exactly when
    an id of the answer does not have three parts; otherwise it returns a
    mapping with one record per distinct id, in the order in which the ids
    first occur, each record carrying the video and frame parts of its id,
    the key-frame directory as path, and the score, url and time of a hit
    with that id. *)
Theorem format_milvus_result_correct (cfg : Config) (hits : list MilvusHit) :
  (Forall (λ h : MilvusHit, is_ok (split3 h.1.1.1)) hits
   ↔ is_ok (_format_milvus_result cfg hits))
  ∧ (∀ e, _format_milvus_result cfg hits = Raise e → e = ValueError)
  ∧ ∀ d, _format_milvus_result cfg hits = Ok d →
      dict_wf d
      ∧ dict_keys d
        = ClusterSpec.first_encounter ((λ h : MilvusHit, h.1.1.1) <$> hits)
      ∧ ∀ id r, dict_get id d = Some r →
          split3 id = Ok (video_id r, frame_id r)
          ∧ path r = KEYFRAMES_DIR cfg
          ∧ (id, score r, url r, time_in_seconds r) ∈ hits.
Proof.
  split_and!.
  - split.
    + intros Hall. unfold _format_milvus_result.
      generalize (@nil (string * CanonicalRecord)).
      induction Hall as [|[[[hid sc] u] t] hits Hh _ IH]; intros acc; [done|].
      cbn [foldM]. simpl in Hh.
      destruct (split3 hid) as [[v f]|e]; [|done].
      cbn [mbind res_bind bind]. apply IH.
    + destruct (_format_milvus_result cfg hits) as [d|e] eqn:Hf; [|done].
      intros _. by destruct (format_loop_facts cfg hits [] d Hf).
  - unfold _format_milvus_result. generalize (@nil (string * CanonicalRecord)).
    induction hits as [|[[[hid sc] u] t] hits IH]; intros acc e; [done|].
    cbn [foldM]. destruct (split3 hid) as [[v f]|e'] eqn:Hs.
    + cbn [mbind res_bind bind]. apply IH.
    + cbn [mbind res_bind bind]. intros [= <-]. by eapply split3_raises.
  - intros d Hf.
    destruct (format_loop_facts cfg hits [] d Hf) as (_ & Hkeys & Hrec).
    split_and!.
    + by destruct (_format_milvus_result_ids_wf cfg hits d Hf).
    + exact Hkeys.
    + intros id r Hget. by destruct (Hrec id r Hget) as [?|?].
Qed.

(** ** The text search proper *)

(** [_text_search] raises [ValueError] on a blank query and
    [APIRequestError] when the request fails, and nothing else: an answer
    that cannot be read, and also an answer with a single id that does not
    have three parts, gives the empty result set. *)
Theorem text_search_errors (cfg : Config)
    (milvus : MilvusPayload → ApiOutcome MilvusHit)
    (collection : option string) (text : string) (top_k : option Z) :
  let payload := mkMilvusPayload collection top_k (Some [text]) None None None in
  (∀ e, _text_search cfg milvus collection text top_k = Raise e →
        (e = ValueError ∧ is_blank text = true)
        ∨ (e = APIRequestError ∧ is_blank text = false
           ∧ milvus payload = ApiRequestFailed))
  ∧ (is_blank text = true →
     _text_search cfg milvus collection text top_k = Raise ValueError)
  ∧ (is_blank text = false → milvus payload = ApiMalformed →
     _text_search cfg milvus collection text top_k = Ok [])
  ∧ (∀ hits, is_blank text = false → milvus payload = ApiOk hits →
       ¬ Forall (λ h : MilvusHit, is_ok (split3 h.1.1.1)) hits →
       _text_search cfg milvus collection text top_k = Ok []).
Proof.
  intros payload. unfold _text_search, milvus_search. fold payload.
  split_and!.
  - intros e. destruct (is_blank text); [intros [= <-]; by left|].
    destruct (milvus payload) as [hits| |]; [|intros [= <-]; by right|done].
    by destruct (_format_milvus_result cfg hits).
  - by intros ->.
  - by intros -> ->.
  - intros hits -> -> Hbad.
    destruct (_format_milvus_result cfg hits) as [d|e] eqn:Hf; [|done].
    exfalso. apply Hbad.
    by destruct (format_loop_facts cfg hits [] d Hf).
Qed.

(** ** Video clusters partition the result set *)

(** In every mode, [_create_video_clusters] raises nothing (the mean of
    a cluster never divides by zero, no cluster being empty), and the
    clusters it builds have pairwise different names, every one carries
    the mode that was asked for, and together their images are exactly
    the images of the records: no record is lost and none is shown
    twice. *)
Theorem video_clusters_partition (rs : ResultSet) (mode : option Mode) :
  ∃ clusters,
    _create_video_clusters rs mode = Ok clusters
    ∧ NoDup (Cluster.cluster_name <$> clusters)
    ∧ Forall (λ c, Cluster.image_list c ≠ []) clusters
    ∧ Forall (λ c, Cluster.mode c = mode) clusters
    ∧ mjoin (Cluster.image_list <$> clusters) ≡ₚ image_of_item <$> rs.
Proof.
  destruct (video_groups_partition rs) as (Hwf & Hne & Hperm).
  destruct (video_clusters_total rs mode) as (clusters & Hcl_eq & Hcl).
  exists clusters. split; [done|]. split_and!.
  - rewrite Hcl, <-list_fmap_compose. exact Hwf.
  - rewrite Hcl. apply Forall_fmap. exact Hne.
  - rewrite Hcl. apply Forall_fmap, Forall_forall. done.
  - rewrite Hcl, <-list_fmap_compose. exact Hperm.
Qed.

(** ** The temporal projection and the dispatch of [process_results] *)

(** [_create_temporal_clusters] raises, and then [ValueError], exactly
    when a key of the mapping does not have three parts. Otherwise it gives
    one cluster per temporal record, in the order of the mapping: the
    cluster is named by the whole id of the now frame, has mode VIDEO and the
    url of the now frame, and shows the now frame first, then the before
    frame and the after frame where there is one; every image carries the
    combined score of the record and the key-frame directory as path. *)
Theorem temporal_clusters_correct (cfg : Config)
    (d : dict TemporalRecord.t) :
  (is_ok (_create_temporal_clusters cfg d)
   ↔ Forall (λ x : string * TemporalRecord.t, is_ok (split3 x.1)) d)
  ∧ (∀ e, _create_temporal_clusters cfg d = Raise e → e = ValueError)
  ∧ ∀ cs, _create_temporal_clusters cfg d = Ok cs →
      Forall2
        (λ (x : string * TemporalRecord.t) (c : Cluster.t),
           Cluster.cluster_name c = x.1
           ∧ Cluster.mode c = Some VIDEO
           ∧ Cluster.url c = Entry.url (TemporalRecord.now x.2)
           ∧ Image.id <$> Cluster.image_list c
             = Entry.id <$>
                 ([TemporalRecord.now x.2]
                  ++ option_list (TemporalRecord.before x.2)
                  ++ option_list (TemporalRecord.after x.2))
           ∧ Forall (λ img, Image.score img = TemporalRecord.score x.2
                            ∧ Image.path img = KEYFRAMES_DIR cfg)
               (Cluster.image_list c))
        d cs.
Proof.
  unfold _create_temporal_clusters. split_and!.
  - split.
    + induction d as [|[id result] d IH]; [constructor|].
      cbn [mapM]. destruct (split3 id) as [[v f]|e] eqn:Hs; [|done].
      cbn [mbind res_bind bind]. intros Hok. constructor.
      * simpl. by rewrite Hs.
      * apply IH. by destruct (mapM _ d).
    + intros Hall. induction Hall as [|[id result] d Hx _ IH]; [done|].
      cbn [mapM]. cbn [fst] in Hx.
      destruct (split3 id) as [[v f]|e]; [|done].
      cbn [mbind res_bind bind]. by destruct (mapM _ d).
  - intros e. induction d as [|[id result] d IH]; [done|].
    cbn [mapM]. destruct (split3 id) as [[v f]|e'] eqn:Hs.
    + cbn [mbind res_bind bind]. destruct (mapM _ d) as [cs|e'']; [done|].
      cbn [mbind res_bind bind]. intros [= <-]. by apply IH.
    + cbn [mbind res_bind bind]. intros [= <-].
      by apply (split3_raises id).
  - intros cs Hcs. apply mapM_Ok_Forall2 in Hcs.
    eapply Forall2_impl; [exact Hcs|]. intros [id result] c. cbn beta iota.
    destruct (split3 id) as [[v f]|e]; [|done].
    cbn [mbind res_bind bind]. intros [= <-]. cbn.
    split_and!; [done..| |].
    + by destruct (TemporalRecord.before result), (TemporalRecord.after result).
    + destruct (TemporalRecord.before result), (TemporalRecord.after result);
        repeat constructor.
Qed.


(** ** Changing the clustering mode *)

(** [change_clustering_mode] raises [ValueError] on an empty handle and
    on a handle of which the cache gives no state, and an error of the
    projection is passed on; in each case the world is left as it is. When
    it answers, the handle is the next one drawn, the clusters are what
    [process_results] makes of the stored results in the new mode with the
    stored temporal flag, a copy of the state is stored under the new
    handle, and restoring that handle in the same mode gives the same
    clusters. *)
Theorem change_mode_then_restore (cfg : Config) (state_id : string)
    (new_mode : Mode) (w : World) :
  (state_id = "" ∨ (get_cached_result (Some state_id) w).1 = Ok None →
   change_clustering_mode cfg state_id new_mode w = (Raise ValueError, w))
  ∧ (∀ e w', change_clustering_mode cfg state_id new_mode w = (Raise e, w') →
       w' = w)
  ∧ ∀ new_id clusters w',
      change_clustering_mode cfg state_id new_mode w
      = (Ok (new_id, clusters), w') →
      new_id = SessionSpec.handle_drawn w (drawn w)
      ∧ (∃ c, redis w !! cache_key (Some state_id) = Some c
              ∧ redis w' !! cache_key (Some new_id) = Some c
              ∧ process_results cfg (results c) (Some new_mode) (temporal c)
                = Ok clusters)
      ∧ restore_chat cfg new_mode new_id w'
        = (Ok (success (Some new_mode) new_id clusters []), w').
Proof.
  unfold change_clustering_mode, restore_chat, mbind, Svc_bind,
    get_cached_result, lift, cache_result, _generate_state_id, mret, Svc_ret,
    SessionSpec.handle_drawn, SessionSpec.handle.
  cbn [fst snd].
  split_and!.
  - intros [->|Hnone]; [done|]. case_decide; [done|].
    injection Hnone as Hnone. by rewrite Hnone.
  - intros e w'. case_decide; [by intros [= _ <-]|].
    destruct (redis_up w) eqn:Hup; [|by intros [= _ <-]].
    destruct (redis w !! cache_key (Some state_id)) as [c|];
      [|by intros [= _ <-]].
    destruct (process_results cfg (results c) (Some new_mode) (temporal c));
      [|by intros [= _ <-]].
    cbn [redis_up redis entropy drawn]. by rewrite Hup.
  - intros new_id clusters w'. case_decide; [done|].
    destruct (redis_up w) eqn:Hup; [|done].
    destruct (redis w !! cache_key (Some state_id)) as [c|] eqn:Hc; [|done].
    destruct (process_results cfg (results c) (Some new_mode) (temporal c))
      as [cs|e] eqn:Hp; [|done].
    cbn [redis_up redis entropy drawn]. rewrite Hup.
    intros [= <- <- <-]. cbn [redis_up redis entropy drawn].
    set (new := String.append "0x" (token_hex 6 (entropy w (drawn w)))).
    assert (<[cache_key (Some new) := c]> (redis w) !! cache_key (Some new)
            = Some c) as Hnew by apply lookup_insert_eq.
    split_and!; [done|by exists c|].
    rewrite Hnew, Hp. done.
Qed.

(** ** The shape of the stored states is kept *)

Section shape_facts.

Lemma KS_ret {A} (a : A) : KeepsShapes (λ _, True) (mret a).
Proof. by intros w Hw. Qed.

Lemma KS_lift {A} (r : res A) : KeepsShapes (λ _, True) (lift r).
Proof. by intros w Hw. Qed.

Lemma KS_gen : KeepsShapes (λ _, True) _generate_state_id.
Proof. by intros w Hw. Qed.

Lemma KS_cache (state_id : string) (value : Cached) :
  state_shape_ok value →
  KeepsShapes (λ _, True) (cache_result state_id value).
Proof.
  intros Hvalue w Hw. split; [|done]. unfold cache_result.
  destruct (redis_up w); [|done]. intros key c. cbn [snd redis].
  destruct (decide (key = cache_key (Some state_id))) as [->|Hne].
  - rewrite lookup_insert_eq. by intros [= <-].
  - rewrite lookup_insert_ne by done. apply Hw.
Qed.

Lemma KS_bind {A B} (Q : B → Prop) (m : Svc A) (f : A → Svc B) :
  KeepsShapes (λ _, True) m → (∀ a, KeepsShapes Q (f a)) →
  KeepsShapes Q (m ≫= f).
Proof.
  intros Hm Hf w Hw. unfold mbind, Svc_bind.
  destruct (Hm w Hw) as [Hw1 _].
  destruct (m w) as [[a|e] w1]; [by apply Hf|]. by split.
Qed.

Lemma KS_bind_get {B} (Q : B → Prop) (state_id : option string)
    (f : option Cached → Svc B) :
  (∀ o, (∀ c, o = Some c → state_shape_ok c) → KeepsShapes Q (f o)) →
  KeepsShapes Q (get_cached_result state_id ≫= f).
Proof.
  intros Hf w Hw. unfold mbind, Svc_bind, get_cached_result.
  apply Hf; [|done]. intros c. destruct (redis_up w); [|done]. apply Hw.
Qed.

End shape_facts.

(** Decompose an operation into its steps; a state that is stored is
    either one that was read or one that is built on the spot. *)
Ltac shape_step :=
  lazymatch goal with
  | |- KeepsShapes _ (mret _) => apply KS_ret
  | |- KeepsShapes _ (lift _) => apply KS_lift
  | |- KeepsShapes _ _generate_state_id => apply KS_gen
  | |- KeepsShapes _ (cache_result _ _) =>
      apply KS_cache;
      first [ solve [eauto]
            | unfold state_shape_ok; cbn [temporal results translated_texts];
              solve [ intros [? [=]] | intros _; split; [done|by eexists] ] ]
  | |- KeepsShapes _ (get_cached_result _ ≫= _) =>
      apply KS_bind_get; intros ? ?
  | |- KeepsShapes _ (_ ≫= _) => apply KS_bind; [|intros]
  | |- KeepsShapes _ (match ?x with _ => _ end) => destruct x
  | |- KeepsShapes _ (let _ := _ in _) => cbv zeta
  end.

Ltac shape_steps := repeat shape_step.

Section operations_shapes.
Variable cfg : Config.
Variable milvus : MilvusPayload → ApiOutcome MilvusHit.
Variable elastic : ElasticPayload → ApiOutcome ElasticHit.
Variable translator : string → option string.

Lemma text_search_shapes request :
  KeepsShapes (λ _, True) (text_search cfg milvus translator request).
Proof. unfold text_search. shape_steps. Qed.

Lemma visual_search_shapes collection mode text base64_images :
  KeepsShapes (λ _, True)
    (visual_search cfg milvus collection mode text base64_images).
Proof. unfold visual_search. shape_steps. Qed.

Lemma relevance_feedback_shapes request :
  KeepsShapes (λ _, True) (relevance_feedback cfg milvus request).
Proof. unfold relevance_feedback. shape_steps. Qed.

Lemma visual_temporal_search_shapes request :
  KeepsShapes (λ _, True)
    (visual_temporal_search cfg milvus elastic translator request).
Proof. unfold visual_temporal_search. shape_steps. Qed.

Lemma change_clustering_mode_shapes state_id new_mode :
  KeepsShapes (λ _, True) (change_clustering_mode cfg state_id new_mode).
Proof. unfold change_clustering_mode. shape_steps. Qed.

Lemma filter_chat_shapes request :
  KeepsShapes (λ _, True) (filter_chat cfg elastic request).
Proof. unfold filter_chat. shape_steps. Qed.

Lemma restore_chat_shapes mode state_id :
  KeepsShapes (λ _, True) (restore_chat cfg mode state_id).
Proof. unfold restore_chat. shape_steps. Qed.

End operations_shapes.

Lemma empty_world_shapes : cache_shapes_ok empty_world.
Proof. intros key c. unfold empty_world. cbn [redis]. by rewrite lookup_empty. Qed.

(** Only a temporal search stores translated texts with a state, and
    it stores them with the temporal flag set and with temporal records as
    results; a mode change copies a state as it is, and every other
    operation stores a state without translated texts. So if every stored
    state that has translated texts has the temporal flag and temporal
    records as results, this is still so after any operation, whether it
    answers or raises. *)
Theorem operations_keep_shapes (cfg : Config)
    (milvus : MilvusPayload → ApiOutcome MilvusHit)
    (elastic : ElasticPayload → ApiOutcome ElasticHit)
    (translator : string → option string)
    (op : Operation) (w : World) :
  cache_shapes_ok w →
  cache_shapes_ok (world_after cfg milvus elastic translator op w).
Proof.
  intros Hw. destruct op; simpl.
  - by apply text_search_shapes.
  - by apply visual_search_shapes.
  - by apply relevance_feedback_shapes.
  - by apply visual_temporal_search_shapes.
  - by apply change_clustering_mode_shapes.
  - by apply filter_chat_shapes.
  - by apply restore_chat_shapes.
Qed.

Lemma sample_translated_world_shapes : cache_shapes_ok sample_translated_world.
Proof.
  apply (visual_temporal_search_shapes sample_config milvus_sample
           elastic_down translator_a sample_translated_request
           counting_world).
  intros key c. unfold counting_world. cbn [redis]. by rewrite lookup_empty.
Qed.

Lemma operations_keep_shapes_witness :
  cache_shapes_ok sample_translated_world
  ∧ (∃ c, redis sample_translated_world !! cache_key (Some "0x000000000001")
          = Some c
          ∧ translated_texts c = Some ["a"]
          ∧ temporal c = true)
  ∧ cache_shapes_ok
      (world_after sample_config milvus_sample elastic_down translator_a
         (ChangeClusteringMode "0x000000000001" MOMENT)
         sample_translated_world)
  ∧ ∃ c, redis
           (world_after sample_config milvus_sample elastic_down
              translator_a (ChangeClusteringMode "0x000000000001" MOMENT)
              sample_translated_world)
         !! cache_key (Some "0x000000000002") = Some c
         ∧ translated_texts c = Some ["a"].
Proof.
  split_and!.
  - exact sample_translated_world_shapes.
  - eexists. split; [vm_compute; reflexivity|]. split; reflexivity.
  - exact (operations_keep_shapes sample_config milvus_sample elastic_down
             translator_a (ChangeClusteringMode "0x000000000001" MOMENT)
             sample_translated_world sample_translated_world_shapes).
  - eexists. split; [vm_compute; reflexivity|]. reflexivity.
Defined.

(** ** A text search that names a stored state *)

(** Plain records read without the temporal flag never raise. *)
Lemma process_results_records_total (cfg : Config) (d : ResultSet)
    (mode : option Mode) :
  ∃ clusters, process_results cfg (RRecords d) mode false = Ok clusters.
Proof.
  unfold process_results. destruct (Results_is_empty _); [by eexists|].
  case_decide; [by eexists|].
  destruct (video_clusters_total d mode) as (cs & -> & _). by eexists.
Qed.

Lemma sample_stored_world_get :
  get_cached_result (Some "0x000000000000") sample_stored_world
  = (Ok (Some sample_stored_state), sample_stored_world).
Proof.
  unfold get_cached_result.
  change (redis_up sample_stored_world) with true. cbn iota.
  do 2 f_equal.
Qed.

(** A text search that names a state the cache knows does not search:
    it answers from the stored state. As the states are stored, that
    answer is an error in all cases but one: [KeyError] is raised, the
    world being left as it is, unless the state is that of a temporal
    search that found nothing; then the answer has no clusters, the handle
    of the request and the translated texts of the temporal search. *)
Theorem text_search_resume (cfg : Config)
    (milvus : MilvusPayload → ApiOutcome MilvusHit)
    (translator : string → option string)
    (request : SearchText) (w : World) (id : string) (c : Cached) :
  cache_shapes_ok w →
  is_blank (st_text request) = false →
  st_state_id request = Some id → id ≠ "" →
  get_cached_result (Some id) w = (Ok (Some c), w) →
  (∀ ts, results c = RTemporal [] → translated_texts c = Some ts →
     text_search cfg milvus translator request w
     = (Ok (success (Some (st_mode request)) id [] ts), w))
  ∧ (¬ (results c = RTemporal [] ∧ is_Some (translated_texts c)) →
     text_search cfg milvus translator request w = (Raise KeyError, w)).
Proof.
  intros Hw Hblank Hid Hne Hget.
  assert (state_shape_ok c) as Hc.
  { unfold get_cached_result in Hget. injection Hget as Hget.
    destruct (redis_up w); [|done]. by apply (Hw _ _ Hget). }
  assert (text_search cfg milvus translator request w
          = (from_cache cfg c (st_mode request) false id, w)) as ->.
  { unfold text_search. rewrite Hblank, Hid. cbn [falsy].
    rewrite bool_decide_eq_false_2 by done.
    unfold mbind at 1, Svc_bind at 1. unfold mret at 1, Svc_ret at 1.
    cbn [default from_option]. change (Datatypes.id id) with id.
    unfold mbind at 1, Svc_bind at 1. by rewrite Hget. }
  unfold from_cache, state_shape_ok, get_translated_texts in *.
  split.
  - intros ts Hr Ht. by rewrite Hr, Ht.
  - intros Hnot. destruct (translated_texts c) as [ts|].
    + destruct Hc as [_ [d Hd]]; [done|]. rewrite Hd in *.
      destruct d as [|x d]; [|done]. destruct Hnot. by split.
    + destruct (results c) as [|d|[|x d]]; try done.
      by destruct (process_results_records_total cfg d
                     (Some (st_mode request))) as [cs ->].
Qed.

Lemma text_search_resume_witness :
  get_cached_result (Some "0x000000000000") sample_stored_world
  = (Ok (Some sample_stored_state), sample_stored_world)
  ∧ text_search sample_config milvus_sample translator_down
      sample_resume_request sample_stored_world
    = (Raise KeyError, sample_stored_world).
Proof.
  split; [exact sample_stored_world_get|].
  refine (proj2 (text_search_resume sample_config milvus_sample
                   translator_down sample_resume_request sample_stored_world
                   "0x000000000000" sample_stored_state _ _ _ _
                   sample_stored_world_get) _).
  - exact (proj1 (visual_search_shapes sample_config milvus_sample None
                    MOMENT (Some "a") [] empty_world empty_world_shapes)).
  - reflexivity.
  - reflexivity.
  - discriminate.
  - intros [[=] _].
Defined.

(** ** Filtering a temporal state *)

(** [filter_chat] keeps the temporal flag of the prior state but stores
    plain records. So when a filter on a state of a temporal search finds
    something, the state it stores cannot be read back: restoring the
    handle it answers with, and changing the clustering mode of that
    handle, raise [KeyError]. *)
Theorem filter_temporal_then_restore (cfg : Config)
    (elastic : ElasticPayload → ApiOutcome ElasticHit)
    (request : ChatFilter) (w w' : World) (resp : GeneralResponse)
    (mode : Mode) :
  SessionSpec.prior_temporal request w = true →
  filter_chat cfg elastic request w = (Ok resp, w') →
  resp_results resp ≠ [] →
  ∃ h, state_id resp = Some h
       ∧ restore_chat cfg mode h w' = (Raise KeyError, w')
       ∧ change_clustering_mode cfg h mode w' = (Raise KeyError, w').
Proof.
  intros Htemporal. rewrite filter_chat_unfold.
  destruct (apply_filters cfg elastic (SessionSpec.prior_results request w)
              (cf_filters request) (cf_top_k request))
    as [result_dict|e] eqn:Hfilter; [|done].
  destruct (process_results cfg (RRecords result_dict) (cf_mode request) false)
    as [clusters|e] eqn:Hclusters; [|done].
  intros [= <- <-]. cbn [resp_results state_id success]. intros Hne.
  assert (redis_up w = true) as Hup.
  { unfold SessionSpec.prior_temporal in Htemporal.
    by destruct (redis_up w). }
  destruct result_dict as [|x result_dict].
  { by injection Hclusters as <-. }
  assert (is_ok (split3 x.1)) as Hx.
  { destruct (apply_filters_ids_wf _ _ _ _ _ _ Hfilter) as [Hids _].
    apply Forall_inv in Hids. unfold TemporalSpec.video_of in Hids.
    by destruct (split3 x.1) as [[??]|?]. }
  assert (process_results cfg (RRecords (x :: result_dict)) (Some mode) true
          = Raise KeyError) as Hread.
  { destruct x as [id r]. unfold process_results. cbn.
    cbn [fst] in Hx. by destruct (split3 id) as [[??]|?]. }
  set (h := SessionSpec.handle_drawn w (drawn w)).
  set (c := mkCached (SessionSpec.prior_temporal request w)
              (RRecords (x :: result_dict)) None).
  assert (redis (SessionSpec.stored_under_next c w) !! cache_key (Some h)
          = Some c) as Hget.
  { unfold SessionSpec.stored_under_next. cbn [redis]. rewrite Hup.
    apply lookup_insert_eq. }
  assert (redis_up (SessionSpec.stored_under_next c w) = true) as Hup'
    by done.
  exists h. split_and!; [done| |].
  - unfold restore_chat, mbind, Svc_bind, get_cached_result, lift.
    rewrite Hup', Hget. subst c. cbn [results temporal].
    by rewrite Htemporal, Hread.
  - unfold change_clustering_mode. rewrite decide_False by done.
    unfold mbind, Svc_bind, get_cached_result, lift.
    rewrite Hup', Hget. subst c. cbn [results temporal].
    by rewrite Htemporal, Hread.
Qed.

Lemma filter_temporal_then_restore_witness :
  SessionSpec.prior_temporal sample_temporal_filter sample_temporal_world
  = true
  ∧ ∃ resp w',
      filter_chat sample_config elastic_one_hit sample_temporal_filter
        sample_temporal_world = (Ok resp, w')
      ∧ ∃ h, state_id resp = Some h
             ∧ restore_chat sample_config VIDEO h w' = (Raise KeyError, w')
             ∧ change_clustering_mode sample_config h VIDEO w'
               = (Raise KeyError, w').
Proof.
  assert (SessionSpec.prior_temporal sample_temporal_filter
            sample_temporal_world = true) as H1 by (vm_compute; reflexivity).
  split; [exact H1|].
  eexists _, _. split; [vm_compute; reflexivity|].
  refine (filter_temporal_then_restore sample_config elastic_one_hit
            sample_temporal_filter sample_temporal_world _ _ VIDEO H1 _ _).
  - vm_compute. reflexivity.
  - discriminate.
Defined.

(** ** Errors of the lexical filter *)

Lemma filter_loop_raises (cfg : Config) (current : Results)
    (hits : list ElasticHit) (acc : ResultSet) (e : exn) :
  foldM
    (λ result_dict (result : ElasticHit),
       let id := hit_id result in
       '(video_id, frame_id) ← split3 id;
       prior ← Results_prior_score id current;
       Ok (dict_set id
             (mkRecord (hit_score result + prior) (hit_url result)
                (KEYFRAMES_DIR cfg) video_id frame_id
                (hit_time_in_seconds result))
             result_dict))
    acc hits = Raise e →
  (e = ValueError ∧ Exists (λ h, ¬ is_ok (split3 (hit_id h))) hits)
  ∨ (e = AttributeError ∧ current = RList ∧ hits ≠ []).
Proof.
  revert acc. induction hits as [|hit hits IH]; intros acc; [done|].
  cbn [foldM]. cbv zeta.
  destruct (split3 (hit_id hit)) as [[v f]|e'] eqn:Hs.
  - cbn [mbind res_bind bind].
    destruct current as [|d|d]; cbn [Results_prior_score mbind res_bind bind].
    + intros [= <-]. right. by split_and!.
    + intros Hloop. destruct (IH _ Hloop) as [[-> Hex]|[_ [[=] _]]].
      left. split; [done|]. by right.
    + intros Hloop. destruct (IH _ Hloop) as [[-> Hex]|[_ [[=] _]]].
      left. split; [done|]. by right.
  - cbn [mbind res_bind bind]. intros [= <-]. left.
    split; [by apply (split3_raises (hit_id hit))|].
    left. cbn beta. rewrite Hs. intros Hok. exact Hok.
Qed.

Lemma filter_loop_ok (cfg : Config) (current : Results)
    (hits : list ElasticHit) (acc : ResultSet) :
  current ≠ RList →
  Forall (λ h, is_ok (split3 (hit_id h))) hits →
  is_ok
    (foldM
       (λ result_dict (result : ElasticHit),
          let id := hit_id result in
          '(video_id, frame_id) ← split3 id;
          prior ← Results_prior_score id current;
          Ok (dict_set id
                (mkRecord (hit_score result + prior) (hit_url result)
                   (KEYFRAMES_DIR cfg) video_id frame_id
                   (hit_time_in_seconds result))
                result_dict))
       acc hits).
Proof.
  intros Hcur Hall. revert acc.
  induction Hall as [|hit hits Hhit _ IH]; intros acc; [done|].
  cbn [foldM]. cbv zeta.
  destruct (split3 (hit_id hit)) as [[v f]|e']; [|done].
  cbn [mbind res_bind bind].
  destruct current as [|d|d]; [done|..];
    cbn [Results_prior_score mbind res_bind bind]; apply IH.
Qed.

(** [apply_filters] raises only on an answer of the lexical back end
    that has hits: [ValueError] when the id of a hit does not have three
    parts, and [AttributeError] when the prior results are the list that a
    visual search without a query stores (a list has no [get]). A failure
    of the request is not an error of [apply_filters]. With prior results
    that are a mapping and ids of three parts it always answers. *)
Theorem apply_filters_errors (cfg : Config)
    (elastic : ElasticPayload → ApiOutcome ElasticHit)
    (current : Results) (filters : Filters) (top_k : option Z) :
  let payload := apply_filters_payload cfg current filters top_k in
  (∀ e, apply_filters cfg elastic current filters top_k = Raise e →
     ∃ hits, elastic payload = ApiOk hits
             ∧ ((e = ValueError
                 ∧ Exists (λ h, ¬ is_ok (split3 (hit_id h))) hits)
                ∨ (e = AttributeError ∧ current = RList ∧ hits ≠ [])))
  ∧ (∀ hits, elastic payload = ApiOk hits → current ≠ RList →
       Forall (λ h, is_ok (split3 (hit_id h))) hits →
       is_ok (apply_filters cfg elastic current filters top_k))
  ∧ (∀ hit hits, elastic payload = ApiOk (hit :: hits) → current = RList →
       is_ok (split3 (hit_id hit)) →
       apply_filters cfg elastic current filters top_k
       = Raise AttributeError).
Proof.
  intros payload. unfold apply_filters. fold payload. split_and!.
  - intros e. destruct (elastic payload) as [hits| |]; [|done..].
    intros Hloop. exists hits. split; [done|].
    by apply (filter_loop_raises cfg current hits [] e).
  - intros hits -> Hcur Hall. by apply filter_loop_ok.
  - intros hit hits -> -> Hhit. cbn [foldM]. cbv zeta.
    by destruct (split3 (hit_id hit)) as [[v f]|e'].
Qed.

(** ** A visual search without a query *)




(** ** Reading back what a search stored *)

Section restore_facts.
Variable cfg : Config.

Lemma restore_of_stored (mode : Mode) (h : string) (c : Cached)
    (clusters : list Cluster.t) (w : World) :
  redis_up w = true →
  redis w !! cache_key (Some h) = Some c →
  process_results cfg (results c) (Some mode) (temporal c) = Ok clusters →
  restore_chat cfg mode h w = (Ok (success (Some mode) h clusters []), w).
Proof.
  intros Hup Hget Hp.
  unfold restore_chat, mbind, Svc_bind, get_cached_result, lift, mret,
    Svc_ret.
  by rewrite Hup, Hget, Hp.
Qed.

(** The common end of a search: draw a handle, store the state, project
    and answer. *)
Lemma store_and_answer (value : Cached) (mode : option Mode)
    (pr : res (list Cluster.t)) (translated : list string)
    (w w' : World) (resp : GeneralResponse) :
  redis_up w = true →
  (new_state_id ← _generate_state_id;
   _ ← cache_result new_state_id value;
   clusters ← lift pr;
   mret (success mode new_state_id clusters translated)) w = (Ok resp, w') →
  ∃ h clusters,
    pr = Ok clusters ∧ resp = success mode h clusters translated
    ∧ redis_up w' = true ∧ redis w' !! cache_key (Some h) = Some value.
Proof.
  intros Hup.
  unfold mbind, Svc_bind, _generate_state_id, cache_result, lift, mret,
    Svc_ret.
  cbn [redis_up redis entropy drawn]. rewrite Hup.
  destruct pr as [clusters|e]; [|done]. intros [= <- <-].
  eexists _, clusters. split_and!; [done..|]. apply lookup_insert_eq.
Qed.

Lemma generated_or_given (given : option string) (w : World) :
  ∃ sid w1,
    (if falsy given then _generate_state_id
     else mret (default "" given)) w = (Ok sid, w1)
    ∧ redis_up w1 = redis_up w ∧ redis w1 = redis w.
Proof.
  destruct (falsy given); by eexists _, _.
Qed.

End restore_facts.

(** What a search answers can be read back. While the cache is
    reachable and its states have the shape in which the operations store
    them, restoring the handle that a text search or a visual search
    answers with, in the mode of the search, gives the clusters of that
    answer; and restoring the handle of a temporal search gives the
    clusters of its answer in every mode. *)
Theorem search_then_restore (cfg : Config)
    (milvus : MilvusPayload → ApiOutcome MilvusHit)
    (elastic : ElasticPayload → ApiOutcome ElasticHit)
    (translator : string → option string) (w : World) :
  cache_shapes_ok w → redis_up w = true →
  (∀ request resp w',
     text_search cfg milvus translator request w = (Ok resp, w') →
     ∃ h, state_id resp = Some h
          ∧ restore_chat cfg (st_mode request) h w'
            = (Ok (success (Some (st_mode request)) h (resp_results resp) []),
               w'))
  ∧ (∀ collection mode text base64_images resp w',
       visual_search cfg milvus collection mode text base64_images w
       = (Ok resp, w') →
       ∃ h, state_id resp = Some h
            ∧ restore_chat cfg mode h w'
              = (Ok (success (Some mode) h (resp_results resp) []), w'))
  ∧ (∀ request mode resp w',
       visual_temporal_search cfg milvus elastic translator request w
       = (Ok resp, w') →
       ∃ h, state_id resp = Some h
            ∧ restore_chat cfg mode h w'
              = (Ok (success (Some mode) h (resp_results resp) []), w')).
Proof.
  intros Hw Hup. split_and!.
  - intros request resp w'. unfold text_search.
    destruct (is_blank (st_text request)); [done|].
    unfold mbind at 1, Svc_bind at 1.
    destruct (generated_or_given (st_state_id request) w)
      as (sid & w1 & -> & Hup1 & Hredis1).
    unfold mbind at 1, Svc_bind at 1, get_cached_result at 1.
    rewrite Hup1, Hup, Hredis1.
    destruct (redis w !! cache_key (Some sid)) as [c|] eqn:Hc.
    + unfold lift, from_cache.
      destruct (process_results cfg (results c) (Some (st_mode request)) false)
        as [clusters|e] eqn:Hp; [|done].
      cbn [mbind res_bind bind]. unfold get_translated_texts.
      destruct (translated_texts c) as [ts|] eqn:Hts; [|done].
      cbn [mbind res_bind bind]. intros [= <- <-].
      exists sid. split; [done|]. cbn [resp_results success].
      apply (restore_of_stored cfg _ _ c); [congruence..|].
      destruct (Hw _ _ Hc) as [Ht [d Hd]]; [by rewrite Hts|].
      rewrite Hd, Ht in *. destruct d as [|x d]; [|done].
      by injection Hp as <-.
    + unfold mbind at 1, Svc_bind at 1.
      destruct ((if st_translate_mode request
                 then lift (_translate_text cfg translator (st_text request))
                 else mret (st_text request)) w1) as [[text|e] w2] eqn:Htr;
        [|done].
      assert (w2 = w1) as ->.
      { destruct (st_translate_mode request); by injection Htr. }
      cbv zeta. cbn [st_collection st_text st_top_k st_mode].
      unfold mbind at 1, Svc_bind at 1, lift at 1.
      match goal with
      | |- context [if decide (st_collection request = Some "ensemble")
                    then ?a else ?b] =>
          destruct (if decide (st_collection request = Some "ensemble")
                    then a else b) as [rd|e]; [|done]
      end.
      intros Hrun.
      destruct (store_and_answer _ _ _ _ _ _ _ (eq_trans Hup1 Hup) Hrun)
        as (h & clusters & Hp & -> & Hup' & Hget).
      exists h. split; [done|]. cbn [resp_results success].
      by apply (restore_of_stored cfg _ _ _ _ _ Hup' Hget).
  - intros collection mode text base64_images resp w'. unfold visual_search.
    unfold mbind at 1, Svc_bind at 1, lift at 1.
    match goal with
    | |- context [if decide (collection = Some "ensemble")
                  then ?a else ?b] =>
        destruct (if decide (collection = Some "ensemble")
                  then a else b) as [rd|e]; [|done]
    end.
    intros Hrun.
    destruct (store_and_answer _ _ _ _ _ _ _ Hup Hrun)
      as (h & clusters & Hp & -> & Hup' & Hget).
    exists h. split; [done|]. cbn [resp_results success].
    by apply (restore_of_stored cfg _ _ _ _ _ Hup' Hget).
  - intros request mode resp w'. unfold visual_temporal_search.
    destruct (tp_now request) as [now_event|] eqn:Hnow; [|done].
    unfold mbind at 1, Svc_bind at 1, _generate_state_id at 1.
    unfold mbind at 1, Svc_bind at 1, get_cached_result at 1.
    cbn [redis_up redis entropy drawn]. rewrite Hup.
    set (sid := String.append "0x" (token_hex 6 (entropy w (drawn w)))).
    destruct (redis w !! cache_key (Some sid)) as [c|] eqn:Hc.
    + unfold lift, from_cache.
      destruct (process_results cfg (results c) (Some VIDEO) true)
        as [clusters|e] eqn:Hp; [|done].
      cbn [mbind res_bind bind]. unfold get_translated_texts.
      destruct (translated_texts c) as [ts|] eqn:Hts; [|done].
      cbn [mbind res_bind bind]. intros [= <- <-].
      exists sid. split; [done|]. cbn [resp_results success].
      apply (restore_of_stored cfg _ _ c); [done..|].
      destruct (Hw _ _ Hc) as [Ht [d Hd]]; [by rewrite Hts|].
      rewrite Hd, Ht in *. unfold process_results in *.
      by destruct (Results_is_empty (RTemporal d)).
    + unfold mbind at 1, Svc_bind at 1, lift at 1.
      match goal with
      | |- context [if tp_translate_mode request then ?a else ?b] =>
          destruct (if tp_translate_mode request then a else b)
            as [[[[now before] after] translated]|e]; [|done]
      end.
      unfold mbind at 1, Svc_bind at 1, lift at 1.
      destruct (search_optional_event cfg milvus elastic
                  (tp_collection request) now) as [now_d|e]; [|done].
      unfold mbind at 1, Svc_bind at 1, lift at 1.
      destruct (search_optional_event cfg milvus elastic
                  (tp_collection request) before) as [before_d|e]; [|done].
      unfold mbind at 1, Svc_bind at 1, lift at 1.
      destruct (search_optional_event cfg milvus elastic
                  (tp_collection request) after) as [after_d|e]; [|done].
      unfold mbind at 1, Svc_bind at 1, lift at 1.
      destruct (temporal_correlation now_d before_d after_d
                  (tp_time_interval request)) as [sorted|e]; [|done].
      unfold mbind at 1, Svc_bind at 1, lift at 1.
      destruct (process_results cfg (RTemporal sorted) (Some VIDEO) true)
        as [clusters|e] eqn:Hp; [|done].
      unfold mbind, Svc_bind, _generate_state_id, cache_result, mret,
        Svc_ret.
      cbn [redis_up redis entropy drawn]. rewrite ?Hup.
      intros [= <- <-]. eexists. split; [done|].
      cbn [resp_results success].
      apply (restore_of_stored cfg _ _
               (mkCached true (RTemporal sorted) (Some translated)));
        [done|apply lookup_insert_eq|].
      cbn [results temporal]. unfold process_results in *.
      by destruct (Results_is_empty (RTemporal sorted)).
Qed.

Lemma search_then_restore_witness :
  cache_shapes_ok empty_world
  ∧ redis_up empty_world = true
  ∧ ∃ resp w',
      visual_search sample_config milvus_sample None MOMENT (Some "a") []
        empty_world = (Ok resp, w')
      ∧ resp_results resp ≠ []
      ∧ ∃ h, state_id resp = Some h
             ∧ restore_chat sample_config MOMENT h w'
               = (Ok (success (Some MOMENT) h (resp_results resp) []), w').
Proof.
  split; [exact empty_world_shapes|]. split; [reflexivity|].
  eexists _, _. split; [reflexivity|]. split; [discriminate|].
  exact (proj1 (proj2 (search_then_restore sample_config milvus_sample
                         elastic_down translator_down empty_world
                         empty_world_shapes eq_refl))
           None MOMENT (Some "a") [] _ _ eq_refl).
Defined.

(** ** Relevance feedback without results *)

Lemma foldl_fixed {A B} (f : B → A → B) (b : B) (xs : list A) :
  Forall (λ x, ∀ b, f b x = b) xs → foldl f b xs = b.
Proof.
  induction 1 as [|x xs Hx _ IH]; [done|]. cbn [foldl]. by rewrite Hx.
Qed.

Lemma foldM_fixed {A B} (f : B → A → res B) (b : B) (xs : list A) :
  Forall (λ x, ∀ b, f b x = Ok b) xs → foldM f b xs = Ok b.
Proof.
  induction 1 as [|x xs Hx _ IH]; [done|]. cbn [foldM]. by rewrite Hx.
Qed.

Lemma fuse_all_empty (self : RRFFusion.t) (sets : list ResultSet) :
  Forall (λ s, s = []) sets → RRFFusion.fuse self sets = Ok [].
Proof.
  intros Hall. unfold RRFFusion.fuse. destruct sets as [|s sets]; [done|].
  assert (RRFFusion.merge_results (s :: sets) = []) as ->.
  { unfold RRFFusion.merge_results. apply foldl_fixed.
    eapply Forall_impl; [exact Hall|]. by intros ? -> ?. }
  assert (RRFFusion.calc_final_scores self (s :: sets) = Ok []) as ->.
  { unfold RRFFusion.calc_final_scores.
    assert (RRFFusion.reciprocal_rank_fusion self (s :: sets) = Ok []) as ->.
    { unfold RRFFusion.reciprocal_rank_fusion. apply foldM_fixed.
      eapply Forall_impl; [exact Hall|]. by intros ? -> ?. }
    assert (RRFFusion.comb_mnz_fusion (s :: sets) = []) as ->.
    { unfold RRFFusion.comb_mnz_fusion.
      assert (RRFFusion.comb_mnz_pass (s :: sets) = ([], [])) as ->; [|done].
      unfold RRFFusion.comb_mnz_pass. apply foldl_fixed.
      eapply Forall_impl; [exact Hall|]. by intros ? -> ?. }
    done. }
  done.
Qed.

(** Relevance feedback that finds nothing hands back the handle of the
    request: when the back end has no hit for the query or its answer
    cannot be read, for the one collection asked or for every ensemble
    collection, and when "ensemble" is asked with no ensemble collections
    configured, the answer has no clusters and the state id of the
    request, no handle is drawn and nothing is stored. A request without
    a collection raises [TypeError], and a failed request to the back end
    raises [APIRequestError]; both leave the world as it is. *)
Theorem relevance_feedback_no_results (cfg : Config)
    (milvus : MilvusPayload → ApiOutcome MilvusHit)
    (request : SearchFeedback) (w : World) :
  let payload c :=
    mkMilvusPayload (Some c) (Some (default_top_k cfg)) None None
      (Some (fb_positive request ++ fb_negative request))
      (Some (replicate (length (fb_positive request))
               (fb_positive_weight request)
             ++ replicate (length (fb_negative request))
                  (fb_negative_weight request))) in
  let nothing :=
    (Ok (success (Some (fb_mode request)) (fb_state_id request) [] []), w) in
  (∀ c, fb_collection request = Some c → c ≠ "ensemble" →
     milvus (payload c) = ApiOk [] ∨ milvus (payload c) = ApiMalformed →
     relevance_feedback cfg milvus request w = nothing)
  ∧ (fb_collection request = Some "ensemble" →
     Forall (λ c, milvus (payload c) = ApiOk []
                  ∨ milvus (payload c) = ApiMalformed)
       (ENSEMBLE_COLLECTIONS cfg) →
     relevance_feedback cfg milvus request w = nothing)
  ∧ (fb_collection request = None →
     relevance_feedback cfg milvus request w = (Raise TypeError, w))
  ∧ (∀ c, fb_collection request = Some c → c ≠ "ensemble" →
       milvus (payload c) = ApiRequestFailed →
       relevance_feedback cfg milvus request w = (Raise APIRequestError, w)).
Proof.
  intros payload nothing.
  assert (∀ c, milvus (payload c) = ApiOk []
               ∨ milvus (payload c) = ApiMalformed →
               _single_relevance_feedback cfg milvus request (Some c) = Ok [])
    as Hsingle.
  { intros c Hc. unfold _single_relevance_feedback. cbv zeta. fold (payload c).
    by destruct Hc as [-> | ->]. }
  unfold relevance_feedback. split_and!.
  - intros c Hc Hne Hm. rewrite Hc, decide_False by congruence.
    by rewrite (Hsingle c Hm).
  - intros Hc Hall. rewrite Hc, decide_True by done.
    unfold _ensemble_relevance_feedback.
    destruct (ENSEMBLE_COLLECTIONS cfg) as [|c cols] eqn:Hcols; [done|].
    destruct (mapM_total
                (λ c, _single_relevance_feedback cfg milvus request (Some c))
                (c :: cols)) as [results Hresults].
    { eapply Forall_impl; [exact Hall|]. intros c' Hc'.
      by rewrite (Hsingle c' Hc'). }
    rewrite Hresults. cbn [mbind res_bind bind].
    rewrite fuse_all_empty; [done|].
    apply mapM_Ok_Forall2 in Hresults.
    clear Hcols. revert Hall.
    induction Hresults as [|c' r cs rs Hr _ IH]; [constructor|].
    intros [Hc' Hall]%Forall_cons. constructor; [|by apply IH].
    rewrite (Hsingle c' Hc') in Hr. by injection Hr.
  - intros Hc. by rewrite Hc, decide_False.
  - intros c Hc Hne Hm. rewrite Hc, decide_False by congruence.
    unfold _single_relevance_feedback. cbv zeta. fold (payload c).
    by rewrite Hm.
Qed.

(** ** Related images *)

(** [related_search] raises only on its arguments: [ValueError] when the
    image id is empty or the mode is neither "timeline" nor "similar". With
    valid arguments it always answers "success" with the mode and the
    display name made of the id and the mode; a failed request, an answer
    that cannot be read and an id without three parts all give an answer
    without results. A timeline answer whose ids have three parts gives
    one MOMENT cluster per neighbouring frame, in the order of the answer,
    named by the video of the frame and holding the single image of the
    frame with score 1. *)
Theorem related_search_correct (cfg : Config)
    (milvus : MilvusPayload → ApiOutcome MilvusHit)
    (timeline : TimelinePayload → ApiOutcome TimelineHit)
    (mode image_id : string) (collection : option string) :
  let answer := related_search cfg milvus timeline mode image_id collection in
  let payload := mkTimelinePayload (ELASTIC_INDEX_NAME cfg) image_id 60 in
  (image_id = "" ∨ (mode ≠ "timeline" ∧ mode ≠ "similar") →
   answer = Raise ValueError)
  ∧ (image_id ≠ "" → mode = "timeline" ∨ mode = "similar" →
     ∃ clusters,
       answer = Ok (mkRelated "success" (Some mode) clusters
                      (related_display_name image_id mode)))
  ∧ (image_id ≠ "" → mode = "timeline" →
     timeline payload = ApiRequestFailed ∨ timeline payload = ApiMalformed
     ∨ (∃ hits, timeline payload = ApiOk hits
                ∧ ¬ Forall (λ h, is_ok (split3 (tl_id h))) hits) →
     ∃ r, answer = Ok r ∧ rel_results r = [])
  ∧ (image_id ≠ "" → mode = "timeline" →
     ∀ hits, timeline payload = ApiOk hits →
       Forall (λ h, is_ok (split3 (tl_id h))) hits →
       ∃ r, answer = Ok r
            ∧ Forall2
                (λ h c,
                   Cluster.mode c = Some MOMENT
                   ∧ TemporalSpec.video_of (tl_id h)
                     = Some (Cluster.cluster_name c)
                   ∧ Cluster.url c = tl_url h
                   ∧ Cluster.image_list c
                     = [Image.mk (tl_id h) (KEYFRAMES_DIR cfg) (tl_id h)
                          (tl_time_in_seconds h) 1])
                hits (rel_results r)).
Proof.
  intros answer payload. subst answer. unfold related_search. split_and!.
  - intros [->|[Ht Hs]]; [done|].
    destruct (decide (image_id = "")); [done|].
    by rewrite decide_False by tauto.
  - intros Hid Hmode. rewrite decide_False by done.
    rewrite decide_True by done. by eexists.
  - intros Hid -> Hfail. rewrite decide_False by done.
    rewrite decide_True by (by left). rewrite decide_True by done.
    eexists. split; [done|]. cbn [rel_results].
    unfold _timeline_search. fold payload.
    destruct Hfail as [->|[->|(hits & -> & Hbad)]]; [done..|].
    destruct (mapM (timeline_cluster cfg) hits) as [clusters|e] eqn:Hm;
      [|done].
    destruct Hbad. apply mapM_Ok_Forall2 in Hm.
    induction Hm as [|h c hs cs Hh _ IH]; constructor; [|done].
    unfold timeline_cluster in Hh. by destruct (split3 (tl_id h)).
  - intros Hid -> hits Hhits Hall. rewrite decide_False by done.
    rewrite decide_True by (by left). rewrite decide_True by done.
    eexists. split; [done|]. cbn [rel_results].
    unfold _timeline_search. fold payload. rewrite Hhits.
    destruct (mapM_total (timeline_cluster cfg) hits) as [clusters Hm].
    { eapply Forall_impl; [exact Hall|]. intros h Hh. cbn beta in Hh.
      unfold timeline_cluster. by destruct (split3 (tl_id h)) as [[??]|?]. }
    rewrite Hm. apply mapM_Ok_Forall2 in Hm.
    eapply Forall2_impl; [exact Hm|]. intros h c.
    unfold timeline_cluster, TemporalSpec.video_of.
    destruct (split3 (tl_id h)) as [[v f]|e]; [|done].
    cbn [mbind res_bind bind]. by intros [= <-].
Qed.


